(** * Chat-with-docs: a shallow embedding of the retrieval pipeline

    The server crawls a documentation site, cuts every page into
    chunks, embeds the chunks and answers queries by ranking the stored
    embeddings against the embedding of the query.  This file embeds
    the chunker ([knowledge_manager.ts]), the population of the
    knowledge store, cosine similarity ([embedder_service.ts]), the
    retrieval node ([graph.ts]), the chat handler ([message_handler.ts])
    and the crawler loop ([scraper.ts]) and states the properties the
    specification gives for them.

    Conventions.
    - A JavaScript string is the list of its UTF-16 code units.
    - A JavaScript [number] that holds a similarity score is an IEEE 754
      binary64 value, taken from [SpecFloat] with [prec = 53] and
      [emax = 1024]; every operation is the correctly rounded one of
      that library.
    - Array lengths, counters and the size limits are integers.
    - A thrown [Error] is the left summand of a [sum]. *)

From Stdlib Require Import ZArith NArith List Bool Lia QArith Sorting.Sorted.
From Stdlib Require Import Strings.Ascii.
From Stdlib Require Strings.String.
From Stdlib Require Import Floats.SpecFloat.
From stdpp Require gmap strings.
Import ListNotations.
Import Stdlib.Strings.String.StringSyntax.
Close Scope Q_scope.
Delimit Scope string_scope with str.

(* ================================================================= *)
(** ** JavaScript strings *)

Module JsString.

Definition code_unit := N.
Definition jsstring := list code_unit.

(** An ASCII literal as a JavaScript string. *)
Fixpoint lit (s : String.string) : jsstring :=
  match s with
  | String.EmptyString => []
  | String.String c s' => N_of_ascii c :: lit s'
  end.

Arguments lit _%_string_scope.

(** [WhiteSpace] and [LineTerminator] of ECMAScript: what
    [String.prototype.trim] strips. *)
Definition isWhiteSpace (c : code_unit) : bool :=
  ((9 <=? c) && (c <=? 13) || (c =? 32) || (c =? 160) || (c =? 5760)
   || (8192 <=? c) && (c <=? 8202) || (c =? 8232) || (c =? 8233)
   || (c =? 8239) || (c =? 8287) || (c =? 12288) || (c =? 65279))%N.

Fixpoint dropWhile (p : code_unit -> bool) (s : jsstring) : jsstring :=
  match s with
  | [] => []
  | c :: s' => if p c then dropWhile p s' else s
  end.

Definition trimStart (s : jsstring) : jsstring := dropWhile isWhiteSpace s.
Definition trimEnd (s : jsstring) : jsstring := rev (dropWhile isWhiteSpace (rev s)).
Definition trim (s : jsstring) : jsstring := trimEnd (trimStart s).

(** [s.length] as a number. *)
Definition len (s : jsstring) : Z := Z.of_nat (length s).

(** Truthiness of a string: it is not empty. *)
Definition truthy (s : jsstring) : bool :=
  match s with [] => false | _ :: _ => true end.

Definition SPACE : code_unit := 32%N.

(** [s.split(' ')]: the pieces between single spaces, in order.  The
    accumulator holds the piece being read. *)
Fixpoint split_from (cur : jsstring) (s : jsstring) : list jsstring :=
  match s with
  | [] => [cur]
  | c :: s' =>
      if (c =? SPACE)%N then cur :: split_from [] s'
      else split_from (cur ++ [c]) s'
  end.

Definition split_space (s : jsstring) : list jsstring := split_from [] s.

End JsString.
Export JsString.

(* ================================================================= *)
(** ** JavaScript numbers: binary64 *)

Module Num.

Definition prec : Z := 53.
Definition emax : Z := 1024.

Definition number := spec_float.

Definition NaN : number := S754_nan.
Definition zero : number := S754_zero false.

Definition add : number -> number -> number := SFadd prec emax.
Definition sub : number -> number -> number := SFsub prec emax.
Definition mul : number -> number -> number := SFmul prec emax.
Definition div : number -> number -> number := SFdiv prec emax.
Definition sqrt : number -> number := SFsqrt prec emax.

(** [x < y] and [x >= y] of JavaScript: false as soon as one side is NaN. *)
Definition lt (x y : number) : bool := SFltb x y.
Definition ge (x y : number) : bool := SFleb y x.
Definition eqn (x y : number) : bool := SFeqb x y.

Definition isNaN (x : number) : bool :=
  match x with S754_nan => true | _ => false end.

(** The binary64 value nearest to an integer. *)
Definition ofZ (z : Z) : number := binary_normalize prec emax z 0 false.

(** A value of [spec_float] denotes a binary64 number when its mantissa
    and exponent are in canonical form. *)
Definition is_binary64 (x : number) : bool := valid_binary prec emax x.

End Num.

(* ================================================================= *)
(** ** Configuration ([constants.ts]) *)

Module Config.

Definition MAX_CHARS_PER_CHUNK : Z := 600.
Definition RETRIEVAL_TOP_K : nat := 5.
(** 0.5 *)
Definition RETRIEVAL_THRESHOLD : Num.number :=
  S754_finite false 4503599627370496 (-53).
Definition SCRAPER_MAX_PAGES : nat := 100.

End Config.

(* ================================================================= *)
(** ** Cosine similarity ([EmbedderService.cosineSimilarity]) *)

Module Embedder.
Import Num.

Definition vector := list number.

Inductive similarity_error := VectorsMustHaveSameLength.

(** One turn of the loop body on the pair [(a[i], b[i])]. *)
Definition accumulate (acc : number * number * number) (ab : number * number)
  : number * number * number :=
  let '(dotProduct, normA, normB) := acc in
  let '(ai, bi) := ab in
  (add dotProduct (mul ai bi), add normA (mul ai ai), add normB (mul bi bi)).

Definition sums (a b : vector) : number * number * number :=
  fold_left accumulate (combine a b) (zero, zero, zero).

Definition cosineSimilarity (a b : vector) : similarity_error + number :=
  if negb (length a =? length b)%nat then inl VectorsMustHaveSameLength
  else
    let '(dotProduct, normA, normB) := sums a b in
    inr (div dotProduct (mul (sqrt normA) (sqrt normB))).

End Embedder.

(* ================================================================= *)
(** ** The retrieval node ([KnowledgeRetrievalNode.process]) *)

Module Retrieval.
Import Num Embedder.

Record EmbeddedKnowledgeRecord := {
  text : jsstring;
  embedding : vector
}.

(** The objects built by the [map] callback. *)
Record scored := {
  record : jsstring;
  similarity : number;
  index : nat
}.

Inductive retrieval_error := NoEmbeddedRecordsAvailable.

(** The callback of [embeddedRecords.map]: the [catch] branch turns a
    thrown similarity error into the score 0. *)
Definition score (queryEmbedding : vector) (r : EmbeddedKnowledgeRecord)
    (index : nat) : scored :=
  match cosineSimilarity queryEmbedding (embedding r) with
  | inr similarity =>
      {| record := text r; similarity := similarity; index := index |}
  | inl _ =>
      {| record := text r; similarity := zero; index := index |}
  end.

Fixpoint map_from {A B : Type} (f : A -> nat -> B) (i : nat) (l : list A)
  : list B :=
  match l with
  | [] => []
  | x :: l' => f x i :: map_from f (S i) l'
  end.

Definition similarities (embeddedRecords : list EmbeddedKnowledgeRecord)
    (queryEmbedding : vector) : list scored :=
  map_from (score queryEmbedding) 0 embeddedRecords.

(** The comparator [(a, b) => b.similarity - a.similarity]. *)
Definition compareFn (a b : scored) : number :=
  sub (similarity b) (similarity a).

(** [SortCompare] of ECMAScript: the sign of the comparator's value,
    a NaN counting as +0. *)
Definition SortCompare (a b : scored) : comparison :=
  let v := compareFn a b in
  if lt v zero then Lt else if lt zero v then Gt else Eq.

(** [Array.prototype.sort] is stable, and its result is fixed by the
    language whenever the comparator is consistent; when it is not (a
    NaN score compares as equal to every score) the order is left to
    the engine.  The method is embedded as insertion sort, where an
    element moves behind a neighbour only when [SortCompare] says it
    comes strictly after it: the result of every engine on a
    consistent comparator. *)
Fixpoint insert (x : scored) (l : list scored) : list scored :=
  match l with
  | [] => [x]
  | y :: l' =>
      match SortCompare x y with
      | Gt => y :: insert x l'
      | _ => x :: y :: l'
      end
  end.

Fixpoint sort (l : list scored) : list scored :=
  match l with
  | [] => []
  | x :: l' => insert x (sort l')
  end.

(** Sort, filter by threshold, keep the first [topK]. *)
Definition topItems (topK : nat) (threshold : number) (sims : list scored)
  : list scored :=
  firstn topK (filter (fun item => ge (similarity item) threshold) (sort sims)).

Definition rank (topK : nat) (threshold : number) (sims : list scored)
  : list jsstring :=
  map record (topItems topK threshold sims).

Definition retrieve (topK : nat) (threshold : number)
    (embeddedRecords : list EmbeddedKnowledgeRecord) (queryEmbedding : vector)
  : retrieval_error + list jsstring :=
  match embeddedRecords with
  | [] => inl NoEmbeddedRecordsAvailable
  | _ :: _ => inr (rank topK threshold (similarities embeddedRecords queryEmbedding))
  end.

(** [process] with the configured constants; [relevantRecords] is the
    list it returns. *)
Definition process (embeddedRecords : list EmbeddedKnowledgeRecord)
    (queryEmbedding : vector) : retrieval_error + list jsstring :=
  retrieve Config.RETRIEVAL_TOP_K Config.RETRIEVAL_THRESHOLD
    embeddedRecords queryEmbedding.

End Retrieval.


(* ================================================================= *)
(** ** The chunker ([KnowledgeManager.chunkText]) *)

Module Chunker.

(** The characters of the class [[.!?]]. *)
Definition isTerminator (c : code_unit) : bool :=
  ((c =? 46) || (c =? 33) || (c =? 63))%N.

(** [text.match(/[^.!?]+[.!?]+/g)]: the successive leftmost matches, each
    a longest run of non-terminators followed by a longest run of
    terminators.  The scanner is in [Seek] before a match has started,
    in [Body b] while it reads the run of non-terminators [b], and in
    [Terms b t] while it reads the run of terminators [t] after [b].
    A run of non-terminators that reaches the end of the text matches
    nothing. *)
Inductive scan_state :=
| Seek
| Body (b : jsstring)
| Terms (b t : jsstring).

Fixpoint scan (st : scan_state) (s : jsstring) : list jsstring :=
  match s with
  | [] =>
      match st with
      | Terms b t => [b ++ t]
      | _ => []
      end
  | c :: s' =>
      match st with
      | Seek =>
          if isTerminator c then scan Seek s' else scan (Body [c]) s'
      | Body b =>
          if isTerminator c then scan (Terms b [c]) s'
          else scan (Body (b ++ [c])) s'
      | Terms b t =>
          if isTerminator c then scan (Terms b (t ++ [c])) s'
          else (b ++ t) :: scan (Body [c]) s'
      end
  end.

Definition matchAll (text : jsstring) : list jsstring := scan Seek text.

(** [text.match(...) || [text]]: [match] yields [null] when nothing
    matches. *)
Definition sentencesOf (text : jsstring) : list jsstring :=
  match matchAll text with
  | [] => [text]
  | m => m
  end.

(** The state of the outer loop: the chunks pushed so far and
    [currentChunk]. *)
Definition chunk_state := (list jsstring * jsstring)%type.

(** [if (s) chunks.push(s.trim())]. *)
Definition pushIfTruthy (chunks : list jsstring) (s : jsstring) : list jsstring :=
  if truthy s then chunks ++ [trim s] else chunks.

(** The body of [for (const word of words)]; the state is the chunks
    and [tempChunk]. *)
Definition wordStep (maxChars : Z) (st : chunk_state) (word : jsstring)
  : chunk_state :=
  let '(chunks, tempChunk) := st in
  if (len (tempChunk ++ [SPACE] ++ word) <=? maxChars)%Z then
    (chunks, if truthy tempChunk then tempChunk ++ [SPACE] ++ word else word)
  else
    (pushIfTruthy chunks tempChunk, word).

(** The body of [for (const sentence of sentences)]. *)
Definition sentenceStep (maxChars : Z) (st : chunk_state) (sentence : jsstring)
  : chunk_state :=
  let '(chunks, currentChunk) := st in
  if (len (currentChunk ++ sentence) <=? maxChars)%Z then
    (chunks, currentChunk ++ sentence)
  else
    let chunks := pushIfTruthy chunks currentChunk in
    if (len sentence >? maxChars)%Z then
      let words := split_space sentence in
      let '(chunks, tempChunk) :=
        fold_left (wordStep maxChars) words (chunks, []) in
      (chunks, if truthy tempChunk then tempChunk else currentChunk)
    else
      (chunks, sentence).

Definition chunkText (text : jsstring) (maxChars : Z) : list jsstring :=
  let '(chunks, currentChunk) :=
    fold_left (sentenceStep maxChars) (sentencesOf text) ([], []) in
  pushIfTruthy chunks currentChunk.

End Chunker.

(* ================================================================= *)
(** ** Populating the store
       ([KnowledgeManager.loadDocumentationWithEmbeddings]) *)

Module KnowledgeManager.
Import Num Embedder Retrieval Chunker.

Record ScrapedPage := {
  url : jsstring;
  title : jsstring;
  content : jsstring
}.

Inductive load_error :=
| EmbedderInitializationFailed
| NoValidTextChunks
| BatchEmbeddingFailed
| EmbeddingFailureRateTooHigh (failureCount total : nat).

(** The embedding service as the manager sees it: whether
    [initialize()] succeeds, and what [embedBatch(validTexts)] gives,
    [None] when it throws.  An entry of the answer is [None] when it is
    [null] or [undefined]. *)
Record EmbedderService := {
  initialize : bool;
  embedBatch : list jsstring -> option (list (option vector))
}.

(** [texts.push(...this.chunkText(page.content))] over the pages. *)
Definition collectTexts (pages : list ScrapedPage) : list jsstring :=
  flat_map (fun page => chunkText (content page) Config.MAX_CHARS_PER_CHUNK) pages.

(** [text.trim().length >= 10]. *)
Definition isValidText (t : jsstring) : bool := (10 <=? length (trim t))%nat.

(** The loop [for (let i = 0; i < validTexts.length; i++)], started at
    index [i] on the texts from [i] on; the state is the records pushed
    so far and [failureCount]. *)
Fixpoint buildRecords (embeddings : list (option vector)) (i : nat)
    (validTexts : list jsstring)
    (st : list EmbeddedKnowledgeRecord * nat)
  : list EmbeddedKnowledgeRecord * nat :=
  match validTexts with
  | [] => st
  | t :: rest =>
      let '(records, failureCount) := st in
      match nth_error embeddings i with
      | Some (Some (x :: e)) =>
          buildRecords embeddings (S i) rest
            (records ++ [{| text := t; embedding := x :: e |}], failureCount)
      | _ =>
          buildRecords embeddings (S i) rest (records, S failureCount)
      end
  end.

(** [failureCount / validTexts.length > 0.5].  Both operands are array
    lengths; the quotient is taken exactly. *)
Definition failureRate (failureCount total : nat) : Q :=
  Z.of_nat failureCount # Pos.of_nat total.

Definition tooManyFailures (failureCount total : nat) : bool :=
  negb (Qle_bool (failureRate failureCount total) (1 # 2)).

(** The method returns the outcome and the value of
    [this.embeddedRecords] when it returns or throws.  The field is
    emptied first, whatever it held. *)
Definition loadDocumentationWithEmbeddings (service : EmbedderService)
    (embeddedRecords : list EmbeddedKnowledgeRecord) (pages : list ScrapedPage)
  : (load_error + unit) * list EmbeddedKnowledgeRecord :=
  let embeddedRecords : list EmbeddedKnowledgeRecord := [] in
  if negb (initialize service) then (inl EmbedderInitializationFailed, embeddedRecords)
  else
    let texts := collectTexts pages in
    let validTexts := filter isValidText texts in
    match validTexts with
    | [] => (inl NoValidTextChunks, embeddedRecords)
    | _ :: _ =>
        match embedBatch service validTexts with
        | None => (inl BatchEmbeddingFailed, embeddedRecords)
        | Some embeddings =>
            let '(embeddedRecords, failureCount) :=
              buildRecords embeddings 0 validTexts (embeddedRecords, 0%nat) in
            if tooManyFailures failureCount (length validTexts)
            then (inl (EmbeddingFailureRateTooHigh failureCount (length validTexts)),
                  embeddedRecords)
            else (inr tt, embeddedRecords)
        end
    end.

Definition hasEmbeddings (embeddedRecords : list EmbeddedKnowledgeRecord) : bool :=
  (0 <? length embeddedRecords)%nat.

End KnowledgeManager.

(* ================================================================= *)
(** ** The answer stream of a chat ([handleChat], from [processQuery]
       to the end) *)

Module ChatStream.

(** How a stream ends: [next()] says [done], or it throws; an error
    may say that the question was blocked by the safety filters. *)
Inductive stream_end :=
| Done
| Throws (blockedBySafetyFilters : bool).

(** A text stream: the [text] of the successive results of [next()]
    (empty when it is missing), and how the stream ends. *)
Record text_stream := {
  texts : list jsstring;
  ending : stream_end
}.

(** A result of the graph, by the handler [processResponse] gives it
    to.  The content of [Content] is empty when it is missing. *)
Inductive graph_result :=
| ContentStream (s : text_stream)
| TextStream (s : text_stream)
| Content (content : jsstring)
| StringData (data : jsstring)
| OtherResult.

(** The messages sent on the socket during a chat.
    [NotFoundMessage] is the message of type [message] that the
    [string] handler sends for an empty string, with the content
    [NOT_FOUND]; [MessageEnd] and [ErrorMessage] have no content. *)
Inductive sent :=
| MessageStart (content : jsstring)
| MessageChunk (content : jsstring)
| Message (content : jsstring)
| NotFoundMessage
| MessageEnd
| ErrorMessage (blockedBySafetyFilters : bool).

Definition NOT_FOUND : String.string :=
  "I couldn't find any information about that in the current documentation. Please try asking about topics covered in the loaded documentation."%str.

(** The variables [fullResponse] and [isFirstChunk], and the messages
    sent so far. *)
Record chat_state := {
  fullResponse : jsstring;
  isFirstChunk : bool;
  outbox : list sent
}.

(** The body of the [while (!chunk.done)] loops. *)
Definition onChunk (st : chat_state) (text : jsstring) : chat_state :=
  if truthy text then
    {| fullResponse := fullResponse st ++ text;
       isFirstChunk := false;
       outbox := outbox st ++ [if isFirstChunk st then MessageStart text
                               else MessageChunk text] |}
  else st.

(** One result of the graph; [inl] when the handler rejects. *)
Definition onResult (st : chat_state) (r : graph_result)
  : (bool * chat_state) + chat_state :=
  match r with
  | ContentStream s | TextStream s =>
      let st := fold_left onChunk (texts s) st in
      match ending s with
      | Done => inr st
      | Throws blocked => inl (blocked, st)
      end
  | Content content =>
      inr (if truthy content then
             {| fullResponse := fullResponse st ++ content;
                isFirstChunk := isFirstChunk st;
                outbox := outbox st ++ [Message content] |}
           else st)
  | StringData data =>
      inr (if negb (truthy data) then
             {| fullResponse := fullResponse st;
                isFirstChunk := isFirstChunk st;
                outbox := outbox st ++ [NotFoundMessage] |}
           else
             {| fullResponse := fullResponse st ++ data;
                isFirstChunk := isFirstChunk st;
                outbox := outbox st ++ [Message data] |})
  | OtherResult => inr st
  end.

(** [for await (const result of outputStream)]. *)
Fixpoint onResults (st : chat_state) (results : list graph_result)
  : (bool * chat_state) + chat_state :=
  match results with
  | [] => inr st
  | r :: rest =>
      match onResult st r with
      | inl failed => inl failed
      | inr st => onResults st rest
      end
  end.

(** The [try] block of [handleChat] on the results of the graph, the
    output stream ending as [ending] says: the messages sent, and the
    content of the assistant message pushed on the conversation, if
    one is. *)
Definition respond (results : list graph_result) (ending : stream_end)
  : list sent * option jsstring :=
  let start := {| fullResponse := []; isFirstChunk := true; outbox := [] |} in
  match onResults start results with
  | inl (blocked, st) => (outbox st ++ [ErrorMessage blocked], None)
  | inr st =>
      match ending with
      | Throws blocked => (outbox st ++ [ErrorMessage blocked], None)
      | Done =>
          if truthy (fullResponse st)
          then (outbox st ++ [MessageEnd], Some (fullResponse st))
          else (outbox st, None)
      end
  end.

(** [data.content] of a message, empty when it has none. *)
Definition contentOf (m : sent) : jsstring :=
  match m with
  | MessageStart c | MessageChunk c | Message c => c
  | NotFoundMessage => lit NOT_FOUND
  | MessageEnd | ErrorMessage _ => []
  end.

(** The message that says that nothing was found. *)
Definition isNotice (m : sent) : bool :=
  match m with
  | NotFoundMessage => true
  | _ => false
  end.

(** The messages that carry a part of the answer: all but the
    notices. *)
Definition answerParts (l : list sent) : list sent :=
  filter (fun m => negb (isNotice m)) l.

Definition isStreamed (m : sent) : bool :=
  match m with
  | MessageStart _ | MessageChunk _ => true
  | _ => false
  end.

Definition isChunk (m : sent) : bool :=
  match m with
  | MessageChunk _ => true
  | _ => false
  end.

(** What holds of the state between two results: the messages sent,
    the notices apart, spell [fullResponse]; none of them ends the
    answer or reports an error; the streamed ones are one
    [message_start] followed by [message_chunk]s, and [isFirstChunk]
    tells that there is none yet. *)
Definition wellStreamed (l : list sent) : Prop :=
  match filter isStreamed l with
  | [] => True
  | m :: rest => (exists c, m = MessageStart c) /\ forallb isChunk rest = true
  end.

Definition isFinal (m : sent) : bool :=
  match m with
  | MessageEnd | ErrorMessage _ => true
  | _ => false
  end.

Definition streamInv (st : chat_state) : Prop :=
  concat (map contentOf (answerParts (outbox st))) = fullResponse st
  /\ forallb (fun m => negb (isFinal m)) (outbox st) = true
  /\ wellStreamed (outbox st)
  /\ (isFirstChunk st = true <-> filter isStreamed (outbox st) = []).

End ChatStream.

(* ================================================================= *)
(** ** The chat handler ([MessageHandler]) *)

Module MessageHandler.
Import Num Embedder Retrieval KnowledgeManager.

(** The graph built by [InworldGraph.create]: it keeps the array that
    [getEmbeddedRecords()] returned when it was built. *)
Record InworldGraph := { graphRecords : list EmbeddedKnowledgeRecord }.

Record handler := {
  graph : option InworldGraph;
  managerRecords : list EmbeddedKnowledgeRecord
}.

Record connection := {
  messages : list jsstring;
  knowledgeLoaded : bool
}.

(** A call [onProgress(current, total, title)] of the scraper. *)
Inductive progress := Progress (current total : nat) (title : jsstring).

(** A run of [scraper.scrapeDocumentation(url, onProgress)]: the calls
    of [onProgress] it makes, in order, and the pages it returns,
    [None] when it throws. *)
Record scrape_run := {
  reported : list progress;
  scraped : option (list ScrapedPage)
}.

(** What a handler call does that can be seen from outside: the
    messages it gives to [sendMessage], which sends them on the socket
    when it is open, and the queries started on the graph with the
    outcome of the retrieval node.  The [percentage] of a
    [scraping_progress] message is computed from [current] and
    [total]. *)
Inductive effect :=
| SendError (error : String.string)
| SendClearMessages
| SendLoadingDocs
| SendScrapingProgress (current total : nat) (title : jsstring)
| SendDocsLoaded (pageCount recordCount : nat)
| GraphQuery (message : jsstring) (retrieved : retrieval_error + list jsstring)
| SendChat (m : ChatStream.sent).

Definition NOT_READY : String.string :=
  "Please load documentation first before asking questions."%str.
Definition QUESTION_FAILED : String.string :=
  "Failed to process your question. Please try again."%str.
Definition QUESTION_BLOCKED : String.string :=
  "Your question was blocked by safety filters. Please try rephrasing your question."%str.
Definition NO_PAGES : String.string :=
  "Unable to scrape any documentation from this URL. Please try a different documentation URL."%str.
Definition LOAD_FAILED : String.string :=
  "Failed to load documentation. Please check the URL and try again."%str.

(** The callback given to the scraper. *)
Definition progressMessage (p : progress) : effect :=
  match p with
  | Progress current total title => SendScrapingProgress current total title
  end.

(** The messages [handleLoadDocs] has sent when the scraper returns or
    throws: the two that open the load and one for each call of the
    callback. *)
Definition started (run : scrape_run) : list effect :=
  [SendClearMessages; SendLoadingDocs] ++ map progressMessage (reported run).

(** A message of the answer stream as it is sent; the error of the
    [catch] block is an [error] message with one of two texts. *)
Definition chatMessage (m : ChatStream.sent) : effect :=
  match m with
  | ChatStream.ErrorMessage blocked =>
      SendError (if blocked then QUESTION_BLOCKED else QUESTION_FAILED)
  | _ => SendChat m
  end.

Section Handler.

(** The collaborators: the crawler; the embedding service of the
    knowledge manager; whether [graph.destroy()] returns; the
    embedding service that [InworldGraph.create] makes for the graph,
    and its [embedSingle], [None] when it throws; and the output
    stream of an execution of the graph, for the query and the records
    retrieved, [None] when the query embedder or the retrieval node
    has thrown: the results of the stream and how it ends.  How the
    runtime reports a node that throws, and what the prompt and the
    model make of the records, is left to [generate]. *)
Variable scrapeDocumentation : jsstring -> scrape_run.
Variable service : EmbedderService.
Variable graphDestroy : bool.
Variable graphService : EmbedderService.
Variable embedSingle : jsstring -> option vector.
Variable generate :
  jsstring -> option (list jsstring)
  -> list ChatStream.graph_result * ChatStream.stream_end.

(** [InworldGraph.create]: refuses a manager without embeddings, and
    throws when its new embedding service cannot be initialized. *)
Definition createGraph (records : list EmbeddedKnowledgeRecord)
  : option InworldGraph :=
  if negb (hasEmbeddings records) then None
  else if negb (initialize graphService) then None
  else Some {| graphRecords := records |}.

(** [graph.processQuery]: the query is embedded and the records are
    retrieved; the output stream is what the execution gives then. *)
Definition processQuery (g : InworldGraph) (message : jsstring)
  : list effect * (list ChatStream.graph_result * ChatStream.stream_end) :=
  match embedSingle (trim message) with
  | None => ([], generate message None)
  | Some queryEmbedding =>
      let retrieved := process (graphRecords g) queryEmbedding in
      ([GraphQuery message retrieved],
       generate message
         match retrieved with
         | inr relevantRecords => Some relevantRecords
         | inl _ => None
         end)
  end.

(** [handleChat]: the user message is kept; the results of the output
    stream are handled as [ChatStream.respond] says, and the answer is
    kept when there is one. *)
Definition handleChat (h : handler) (c : connection) (message : jsstring)
  : connection * list effect :=
  match graph h, knowledgeLoaded c with
  | Some g, true =>
      let c := {| messages := messages c ++ [message];
                  knowledgeLoaded := knowledgeLoaded c |} in
      let '(effects, (results, ending)) := processQuery g message in
      let '(sent, stored) := ChatStream.respond results ending in
      (match stored with
       | Some fullResponse =>
           {| messages := messages c ++ [fullResponse];
              knowledgeLoaded := knowledgeLoaded c |}
       | None => c
       end,
       effects ++ map chatMessage sent)
  | _, _ => (c, [SendError NOT_READY])
  end.

Definition handleLoadDocs (h : handler) (c : connection) (docsUrl : jsstring)
  : handler * connection * list effect :=
  let c := {| messages := []; knowledgeLoaded := knowledgeLoaded c |} in
  let run := scrapeDocumentation docsUrl in
  let started := started run in
  match scraped run with
  | None => (h, c, started ++ [SendError LOAD_FAILED])
  | Some [] => (h, c, started ++ [SendError NO_PAGES])
  | Some pages =>
      match loadDocumentationWithEmbeddings service (managerRecords h) pages with
      | (inl _, records) =>
          ({| graph := graph h; managerRecords := records |}, c,
           started ++ [SendError LOAD_FAILED])
      | (inr _, records) =>
          if match graph h with Some _ => negb graphDestroy | None => false end
          then ({| graph := graph h; managerRecords := records |}, c,
                started ++ [SendError LOAD_FAILED])
          else
            match createGraph records with
            | None =>
                ({| graph := None; managerRecords := records |}, c,
                 started ++ [SendError LOAD_FAILED])
            | Some g =>
                ({| graph := Some g; managerRecords := records |},
                 {| messages := messages c; knowledgeLoaded := true |},
                 started ++ [SendDocsLoaded (length pages) (length records)])
            end
      end
  end.

End Handler.

End MessageHandler.

(* ================================================================= *)
(** ** The crawler ([DocumentationScraper]) *)

Module Scraper.
Import stdpp.base stdpp.list stdpp.gmap.
Import KnowledgeManager.

Definition CONCURRENT_LIMIT : nat := 5.

(** [s.startsWith(p)] and [s.includes(sub)]. *)
Fixpoint startsWith (s p : jsstring) : bool :=
  match p, s with
  | [], _ => true
  | _ :: _, [] => false
  | c :: p', d :: s' => (c =? d)%N && startsWith s' p'
  end.

Fixpoint includes (s sub : jsstring) : bool :=
  match s with
  | [] => startsWith [] sub
  | _ :: s' => startsWith s sub || includes s' sub
  end.

(** What the [try] block of [fetchPageWithLinks] reads off a fetched
    page: the host name of the URL, the extracted title and text, and
    the [href]s of its anchors resolved to absolute URLs, in document
    order. *)
Record response := {
  domain : jsstring;
  pageTitle : jsstring;
  pageContent : jsstring;
  absoluteUrls : list jsstring
}.

(** The crawl state: the three variables of [crawlLinks] and the
    instance field [visitedUrls].  [fetched] is a history variable:
    the URLs handed to [fetchPageWithLinks] so far, in order. *)
Record crawl_state := {
  pages : list ScrapedPage;
  toCrawl : list jsstring;
  visitedUrls : gset jsstring;
  fetched : list jsstring
}.

Section Crawl.

(** The web: [None] when the request or the parsing throws. *)
Variable http_get : jsstring -> option response.

Definition has (visitedUrls : gset jsstring) (u : jsstring) : bool :=
  bool_decide (u ∈ visitedUrls).

(** The condition under which a link is kept. *)
Definition followed (visitedUrls : gset jsstring) (domain absoluteUrl : jsstring)
  : bool :=
  includes absoluteUrl domain
  && negb (has visitedUrls absoluteUrl)
  && includes absoluteUrl (lit "/docs/")
  && negb (includes absoluteUrl (lit "/login"))
  && negb (includes absoluteUrl (lit "redirect=")).

Definition fetchPageWithLinks (visitedUrls : gset jsstring) (url : jsstring)
  : option ScrapedPage * list jsstring :=
  match http_get url with
  | None => (None, [])
  | Some r =>
      let links := List.filter (followed visitedUrls (domain r)) (absoluteUrls r) in
      if (length (pageContent r) <? 50)%nat then (None, links)
      else (Some {| url := url; title := pageTitle r; content := pageContent r |},
            links)
  end.

(** [for (const link of links) if (!visited.has(link) &&
    !toCrawl.includes(link)) toCrawl.push(link)]. *)
Definition enqueue (visitedUrls : gset jsstring) (toCrawl : list jsstring)
    (link : jsstring) : list jsstring :=
  if negb (has visitedUrls link) && negb (bool_decide (link ∈ toCrawl))
  then toCrawl ++ [link] else toCrawl.

(** The body of [for (const result of results)]; every promise is
    fulfilled, since [fetchPageWithLinks] catches what it throws. *)
Definition collectResult (visitedUrls : gset jsstring)
    (st : list ScrapedPage * list jsstring)
    (result : option ScrapedPage * list jsstring)
  : list ScrapedPage * list jsstring :=
  let '(pages, toCrawl) := st in
  let '(page, links) := result in
  (match page with Some p => pages ++ [p] | None => pages end,
   fold_left (enqueue visitedUrls) links toCrawl).

(** The URLs of one turn: [toCrawl.splice(0, CONCURRENT_LIMIT)] cut to
    the remaining slots. *)
Definition urlsToProcess (maxPages : nat) (st : crawl_state) : list jsstring :=
  let batch := firstn CONCURRENT_LIMIT (toCrawl st) in
  let remainingSlots := (maxPages - length (pages st))%nat in
  firstn remainingSlots batch.

(** [urlsToProcess.forEach((url) => this.visitedUrls.add(url))]. *)
Definition markVisited (visitedUrls : gset jsstring) (urls : list jsstring)
  : gset jsstring :=
  fold_left (fun v u => {[u]} ∪ v) urls visitedUrls.

(** One turn of the [while] loop.  The fetches of a batch all run
    after the batch has been marked, and nothing changes the set until
    they have settled, so each sees the set as marked. *)
Definition crawlStep (maxPages : nat) (st : crawl_state) : crawl_state :=
  let urls := urlsToProcess maxPages st in
  let rest := skipn CONCURRENT_LIMIT (toCrawl st) in
  let visitedUrls := markVisited (visitedUrls st) urls in
  let results := map (fetchPageWithLinks visitedUrls) urls in
  let '(pages, toCrawl) :=
    fold_left (collectResult visitedUrls) results (pages st, rest) in
  {| pages := pages; toCrawl := toCrawl; visitedUrls := visitedUrls;
     fetched := fetched st ++ urls |}.

(** [toCrawl.length > 0 && pages.length < maxPages]. *)
Definition continues (maxPages : nat) (st : crawl_state) : bool :=
  (0 <? length (toCrawl st))%nat && (length (pages st) <? maxPages)%nat.

(** The state after at most [n] turns of the loop. *)
Fixpoint turns (n : nat) (maxPages : nat) (st : crawl_state) : crawl_state :=
  match n with
  | O => st
  | S n' =>
      if continues maxPages st then turns n' maxPages (crawlStep maxPages st)
      else st
  end.

(** The loop, with a bound on its turns: [None] when the bound is
    reached before the loop condition fails. *)
Fixpoint crawlLoop (fuel : nat) (maxPages : nat) (st : crawl_state)
  : option crawl_state :=
  if negb (continues maxPages st) then Some st
  else
    match fuel with
    | O => None
    | S fuel' => crawlLoop fuel' maxPages (crawlStep maxPages st)
    end.

Definition start (baseUrl : jsstring) (visitedUrls : gset jsstring)
  : crawl_state :=
  {| pages := []; toCrawl := [baseUrl]; visitedUrls := visitedUrls; fetched := [] |}.

(** [scrapeDocumentation] clears the visited set and crawls from the
    seed with the configured page bound. *)
Definition crawlLinks (fuel : nat) (baseUrl : jsstring) (maxPages : nat)
  : option crawl_state :=
  crawlLoop fuel maxPages (start baseUrl ∅).

Definition scrapeDocumentation (fuel : nat) (url : jsstring)
  : option (list ScrapedPage) :=
  option_map pages (crawlLinks fuel url Config.SCRAPER_MAX_PAGES).

End Crawl.

End Scraper.


(* ================================================================= *)
(** ** Predicates on scores *)

Module Scores.
Import Num Embedder Retrieval.

Definition isZero (x : number) : bool :=
  match x with S754_zero _ => true | _ => false end.

(** A value that is a zero or NaN: what sums and products of zeros
    with arbitrary numbers can be. *)
Definition zeroOrNaN (x : number) : bool :=
  match x with S754_zero _ | S754_nan => true | _ => false end.

(** A value with the sign [s] that is not a zero: an infinity or a
    finite number. *)
Definition signed (s : bool) (x : number) : Prop :=
  x = S754_infinity s \/ exists m e, x = S754_finite s m e.

(** A binary64 value other than NaN. *)
Definition ordinary (x : number) : bool := is_binary64 x && negb (isNaN x).

Definition isOrdinary (a : scored) : Prop := ordinary (similarity a) = true.

(** [a] ranks before [b]: it scores more, or the same with a smaller
    index in the store. *)
Definition rankedBefore (a b : scored) : Prop :=
  lt (similarity b) (similarity a) = true \/
  (eqn (similarity a) (similarity b) = true /\ index a < index b).

(** 0.5 *)
Definition oneHalf : number := S754_finite false 4503599627370496 (-53).

(** The binary64 value of the decimal [n/d], for small [n] and [d]. *)
Definition decimal (n d : Z) : number := div (ofZ n) (ofZ d).

End Scores.

(* ================================================================= *)
(** ** Sample stores *)

Module Samples.
Import Num Embedder Retrieval Scores.

Definition textOf (s : String.string) (v : list Z) : EmbeddedKnowledgeRecord :=
  {| text := lit s; embedding := map ofZ v |}.
Arguments textOf _%_string_scope _.

(** Scenario E: scores 0.9, 0.7, 0.4, 0.3. *)
Definition scenarioE : list scored :=
  [ {| record := lit "r1"; similarity := decimal 9 10; index := 0 |};
    {| record := lit "r2"; similarity := decimal 7 10; index := 1 |};
    {| record := lit "r3"; similarity := decimal 4 10; index := 2 |};
    {| record := lit "r4"; similarity := decimal 3 10; index := 3 |} ].

(** A store in which the middle record has a zero embedding. *)
Definition storeWithZeroVector : list EmbeddedKnowledgeRecord :=
  [ textOf "a" [1; 1]; textOf "b" [0; 0]; textOf "c" [1; 0] ]%Z.

End Samples.


(* ================================================================= *)
(** ** Shapes of texts, and the chunker as the specification words it *)

Module Shapes.
Import Chunker.

Definition noTerminator (s : jsstring) : Prop :=
  Forall (fun c => isTerminator c = false) s.

Definition allTerminators (s : jsstring) : Prop :=
  Forall (fun c => isTerminator c = true) s.

Definition noSpace (s : jsstring) : Prop :=
  Forall (fun c => c <> SPACE) s.

Definition startsWithTerminator (s : jsstring) : bool :=
  match s with
  | c :: _ => isTerminator c
  | [] => false
  end.

Definition endsWithTerminator (s : jsstring) : Prop :=
  exists s0 t, s = s0 ++ [t] /\ isTerminator t = true.

(** A match of the sentence pattern: a run of non-terminators and a
    run of terminators, neither empty. *)
Definition isSentence (s : jsstring) : Prop :=
  exists body terms,
    s = body ++ terms /\ body <> [] /\ terms <> [] /\
    noTerminator body /\ allTerminators terms.

(** Non-terminators followed by terminators, either possibly empty. *)
Definition isPiece (s : jsstring) : Prop :=
  exists nb ts, s = nb ++ ts /\ noTerminator nb /\ allTerminators ts.

(** Nothing is left after the last terminator, if there is one. *)
Definition closed (x : jsstring) : Prop :=
  noTerminator x \/ endsWithTerminator x.

(** What makes a chunk come back from the chunker as it is. *)
Definition rechunkable (maxChars : Z) (c : jsstring) : Prop :=
  trim c = c /\ closed c /\
  ((len c <= maxChars)%Z \/ (noSpace c /\ isPiece c)).

(** The shape of a running chunk, and of a pushed chunk. *)
Definition runningShape (maxChars : Z) (x : jsstring) : Prop :=
  startsWithTerminator x = true \/
  (closed x /\ ((len x <= maxChars)%Z \/ (noSpace x /\ isPiece x))).

Definition chunkShape (maxChars : Z) (c : jsstring) : Prop :=
  c <> [] -> startsWithTerminator c = false -> rechunkable maxChars c.

(** The shape of [tempChunk] while the words read so far hold no
    terminator. *)
Definition wordShape (maxChars : Z) (x : jsstring) : Prop :=
  startsWithTerminator x = true \/
  (noTerminator x /\ ((len x <= maxChars)%Z \/ noSpace x)).

Definition stateShape (maxChars : Z) (st : chunk_state) : Prop :=
  Forall (chunkShape maxChars) (fst st) /\ runningShape maxChars (snd st).

Definition wordStateShape (maxChars : Z) (st : chunk_state) : Prop :=
  Forall (chunkShape maxChars) (fst st) /\ wordShape maxChars (snd st).









(** Following the specification's words: the text is split after each
    [.], [!] or [?] that is followed by white space, and what remains
    after the last split is one final sentence. *)
Fixpoint specSplit (cur : jsstring) (s : jsstring) : list jsstring :=
  match s with
  | [] => if truthy cur then [cur] else []
  | c :: s' =>
      if isTerminator c
         && match s' with w :: _ => isWhiteSpace w | [] => false end
      then (cur ++ [c]) :: specSplit [] s'
      else specSplit (cur ++ [c]) s'
  end.

Definition specSentences (text : jsstring) : list jsstring := specSplit [] text.

(** Following the specification's words: sentences are added to the
    running chunk while the sum fits; on overflow the running chunk is
    flushed, trimmed, and the next sentence starts a new one; the last
    running chunk is flushed when it is not empty. *)
Definition specFlush (running : jsstring) : list jsstring :=
  if truthy running then [trim running] else [].

Fixpoint specGreedyPack (maxChars : Z) (running : jsstring)
    (sentences : list jsstring) : list jsstring :=
  match sentences with
  | [] => specFlush running
  | s :: rest =>
      if (len (running ++ s) <=? maxChars)%Z
      then specGreedyPack maxChars (running ++ s) rest
      else specFlush running ++ specGreedyPack maxChars s rest
  end.

Definition specChunk (text : jsstring) (maxChars : Z) : list jsstring :=
  specGreedyPack maxChars [] (specSentences text).

End Shapes.


(* ================================================================= *)
(** ** Population: positional view and sample loads *)

Module Population.
Import Num Embedder Retrieval KnowledgeManager.

(** The embedding returned at an index is missing ([undefined] or
    [null]) or empty. *)
Definition missingOrEmpty (embeddings : list (option vector)) (i : nat) : bool :=
  match nth_error embeddings i with
  | Some (Some (_ :: _)) => false
  | _ => true
  end.

(** The number of valid texts, from index [i] on, without embedding. *)
Fixpoint failuresFrom (embeddings : list (option vector)) (i : nat)
    (validTexts : list jsstring) : nat :=
  match validTexts with
  | [] => 0
  | _ :: rest =>
      (if missingOrEmpty embeddings i then 1 else 0)
      + failuresFrom embeddings (S i) rest
  end.

(** The texts that have an embedding, each paired with the embedding at
    its own index. *)
Fixpoint zipFrom (embeddings : list (option vector)) (i : nat)
    (validTexts : list jsstring) : list EmbeddedKnowledgeRecord :=
  match validTexts with
  | [] => []
  | t :: rest =>
      match nth_error embeddings i with
      | Some (Some (x :: e)) =>
          {| text := t; embedding := x :: e |} :: zipFrom embeddings (S i) rest
      | _ => zipFrom embeddings (S i) rest
      end
  end.

Definition validTextsOf (pages : list ScrapedPage) : list jsstring :=
  filter isValidText (collectTexts pages).

Definition pageOf (s : String.string) : ScrapedPage :=
  {| url := lit "https://example.com/docs/"; title := lit "Docs"; content := lit s |}.
Arguments pageOf _%_string_scope.

(** Ten pages of one valid chunk each. *)
Definition tenPages : list ScrapedPage :=
  [ pageOf "Alpha page text."; pageOf "Bravo page text.";
    pageOf "Charlie page text."; pageOf "Delta page text.";
    pageOf "Echo page text."; pageOf "Foxtrot page text.";
    pageOf "Golf page text."; pageOf "Hotel page text.";
    pageOf "India page text."; pageOf "Juliett page text." ].

Definition unit_vector : vector := [ofZ 1; ofZ 0].

(** An answer of the embedding service in which six of ten embeddings
    are missing or empty, and one in which four are. *)
Definition sixFailures : list (option vector) :=
  [ Some unit_vector; None; Some []; None; Some unit_vector;
    None; Some unit_vector; Some []; None; Some unit_vector ].

Definition fourFailures : list (option vector) :=
  [ Some unit_vector; None; Some unit_vector; Some unit_vector; Some [];
    Some unit_vector; Some unit_vector; None; None; Some unit_vector ].

Definition answering (embeddings : list (option vector)) : EmbedderService :=
  {| initialize := true; embedBatch := fun _ => Some embeddings |}.

End Population.


(* ================================================================= *)
(** ** The invariant of the crawl *)

Module CrawlShapes.
Import stdpp.base stdpp.list stdpp.gmap.
Import Scraper.

(** The two properties of the queue: no URL twice, none visited. *)
Definition queueOk (visited : gset jsstring) (queue : list jsstring) : Prop :=
  NoDup queue ∧ ∀ u, u ∈ queue → u ∉ visited.

(** Before every turn of the loop: no URL was fetched twice, every
    fetched URL is in the visited set, the queue holds no URL twice and
    none that is visited, and the pages are within the bound. *)
Definition crawlInv (maxPages : nat) (st : crawl_state) : Prop :=
  NoDup (fetched st)
  ∧ (∀ u, u ∈ fetched st → u ∈ visitedUrls st)
  ∧ queueOk (visitedUrls st) (toCrawl st)
  ∧ length (pages st) ≤ maxPages.

(** The queue and the visited set stay within a site and the seed. *)
Definition withinSite (site : gset jsstring) (baseUrl : jsstring)
    (st : crawl_state) : Prop :=
  (∀ u, u ∈ toCrawl st → u ∈ site ∪ {[baseUrl]})
  ∧ visitedUrls st ⊆ site ∪ {[baseUrl]}.

End CrawlShapes.

(* ================================================================= *)
(** ** A sample site *)

Module CrawlSample.
Import stdpp.base stdpp.list stdpp.gmap.
Import Scraper.

Definition sampleText : jsstring :=
  lit "This page has more than fifty characters of documentation text.".

Definition pageWith (links : list jsstring) : option response :=
  Some {| domain := lit "example.com"; pageTitle := lit "Docs";
          pageContent := sampleText; absoluteUrls := links |}.

Definition seedUrl : jsstring := lit "https://example.com/docs/".
Definition urlA : jsstring := lit "https://example.com/docs/a".
Definition urlB : jsstring := lit "https://example.com/docs/b".
Definition urlLogin : jsstring := lit "https://example.com/docs/login".

(** The seed links to [urlA] twice, to [urlB] and to a login page;
    [urlA] links back to the seed and to [urlB]; fetching [urlB]
    fails. *)
Definition smallSite (u : jsstring) : option response :=
  if bool_decide (u = seedUrl) then pageWith [urlA; urlB; urlA; urlLogin]
  else if bool_decide (u = urlA) then pageWith [seedUrl; urlB]
  else None.

End CrawlSample.

(* ================================================================= *)
(** * Further parts of the server

    The conversation history given to the prompt, the embedding
    service and its batches, the cleaning of scraped text, the links
    a crawl follows, the answer stream of a chat, the server with its
    connections, and the browser scraper. *)

From Stdlib Require Import Sorting.Permutation.

(* ================================================================= *)
(** ** Arrays: [Array.prototype.slice] *)

Module JsArray.

(** An index argument of [slice] made relative to the length: a
    negative one counts from the end, and both ends are clamped. *)
Definition relativeIndex (len i : Z) : Z :=
  if (i <? 0)%Z then Z.max (len + i) 0 else Z.min i len.

(** [l.slice(start, end)]; [end] is [None] when it is not given. *)
Definition slice {A : Type} (l : list A) (start : Z) (finish : option Z)
  : list A :=
  let len := Z.of_nat (length l) in
  let k := relativeIndex len start in
  let final := match finish with
               | Some e => relativeIndex len e
               | None => len
               end in
  firstn (Z.to_nat (final - k)) (skipn (Z.to_nat k) l).

End JsArray.

(* ================================================================= *)
(** ** The prompt ([JinjaPromptRenderNode.process]) *)

Module Prompt.
Import JsArray.

Definition MAX_CONVERSATION_HISTORY : Z := 10.

(** [conversationHistory.slice(0, -1).slice(-MAX_CONVERSATION_HISTORY)]:
    the messages given to the template as [conversation_history]. *)
Definition conversation_history {M : Type} (conversationHistory : list M)
  : list M :=
  slice (slice conversationHistory 0 (Some (-1)%Z))
        (- MAX_CONVERSATION_HISTORY) None.

End Prompt.

(* ================================================================= *)
(** ** The embedding service ([EmbedderService]) *)

Module Service.
Import Num Embedder.

Definition BATCH_SIZE : nat := 100.

(** The embedder made by [TextEmbedderFactory.createRemote]: what
    [embed(text)] and [embedBatch(batch)] give, [None] when the call
    throws.  An entry of a batch answer is [None] when it is [null] or
    [undefined]. *)
Record remote := {
  embed : jsstring -> option vector;
  remoteBatch : list jsstring -> option (list (option vector))
}.

Inductive service_error :=
| InitializationFailed
| FailedToEmbedText
| BatchEmbeddingFailed.

(** The fields [embedder] and [initialized]. *)
Record service := {
  embedder : option remote;
  initialized : bool
}.

Definition fresh : service := {| embedder := None; initialized := false |}.

Section Factory.

(** [TextEmbedderFactory.createRemote(...)]: [None] when it throws. *)
Variable createRemote : option remote.

Definition initialize (s : service) : (service_error + unit) * service :=
  if initialized s then (inr tt, s)
  else
    match createRemote with
    | Some e => (inr tt, {| embedder := Some e; initialized := true |})
    | None => (inl InitializationFailed, s)
    end.

(** [if (!this.initialized) await this.initialize()]. *)
Definition ensureInitialized (s : service) : (service_error + unit) * service :=
  if negb (initialized s) then initialize s else (inr tt, s).

Definition embedSingle (s : service) (text : jsstring)
  : (service_error + vector) * service :=
  match ensureInitialized s with
  | (inl e, s) => (inl e, s)
  | (inr _, s) =>
      match embedder s with
      | Some r =>
          match embed r text with
          | Some embedding => (inr embedding, s)
          | None => (inl FailedToEmbedText, s)
          end
      | None => (inl FailedToEmbedText, s)
      end
  end.

(** The loop [for (let i = 0; i < texts.length; i += BATCH_SIZE)] from
    index [i] on, for at most [fuel] turns.  The state is
    [allEmbeddings] and, as a history variable, the batches handed to
    the remote embedder so far.  [None] when the turns are used up
    before the loop ends. *)
Fixpoint batchLoop (fuel : nat) (r : option remote) (texts : list jsstring)
    (i : nat) (allEmbeddings : list (option vector)) (sent : list (list jsstring))
  : option ((service_error + list (option vector)) * list (list jsstring)) :=
  if (i <? length texts)%nat then
    match fuel with
    | O => None
    | S fuel' =>
        (* texts.slice(i, i + BATCH_SIZE) *)
        let batch := firstn BATCH_SIZE (skipn i texts) in
        match r with
        | Some e =>
            match remoteBatch e batch with
            | Some batchEmbeddings =>
                batchLoop fuel' r texts (i + BATCH_SIZE)
                  (allEmbeddings ++ batchEmbeddings) (sent ++ [batch])
            | None => Some (inl BatchEmbeddingFailed, sent ++ [batch])
            end
        | None => Some (inl BatchEmbeddingFailed, sent)
        end
    end
  else Some (inr allEmbeddings, sent).

(** [embedBatch(texts)]: the outcome, the service after the call and
    the batches sent. *)
Definition embedBatch (s : service) (texts : list jsstring)
  : option ((service_error + list (option vector)) * service
            * list (list jsstring)) :=
  match ensureInitialized s with
  | (inl e, s) => Some (inl e, s, [])
  | (inr _, s) =>
      match batchLoop (length texts) (embedder s) texts 0 [] [] with
      | Some (outcome, sent) => Some (outcome, s, sent)
      | None => None
      end
  end.

(** [destroy()]: the embedder is destroyed and kept in the field. *)
Definition destroy (s : service) : service :=
  {| embedder := embedder s; initialized := false |}.

(** The service of a knowledge manager as its
    [loadDocumentationWithEmbeddings] uses it. *)
Definition asUsedByManager (s : service) : KnowledgeManager.EmbedderService :=
  {| KnowledgeManager.initialize :=
       match fst (initialize s) with inr _ => true | inl _ => false end;
     KnowledgeManager.embedBatch := fun texts =>
       match embedBatch (snd (initialize s)) texts with
       | Some (inr embeddings, _, _) => Some embeddings
       | _ => None
       end |}.

End Factory.

(** The answer of the service's embedder to a batch: [None] when the
    call throws, as it does when there is no embedder. *)
Definition answerOf (s : service) (batch : list jsstring)
  : option (list (option vector)) :=
  match embedder s with
  | Some e => remoteBatch e batch
  | None => None
  end.

(** A remote embedder that answers every text on its own, by [f]. *)
Definition textByText (f : jsstring -> option vector) (r : remote) : Prop :=
  forall batch, remoteBatch r batch = Some (map f batch).

(** All the batches but the last are full. *)
Fixpoint fullButLast (batches : list (list jsstring)) : Prop :=
  match batches with
  | [] => True
  | [_] => True
  | b :: rest => length b = BATCH_SIZE /\ fullButLast rest
  end.

End Service.

(* ================================================================= *)
(** ** The characters of a text that are not white space *)

Module Content.

Definition visible (s : jsstring) : jsstring :=
  filter (fun c => negb (isWhiteSpace c)) s.

End Content.

(* ================================================================= *)
(** ** Cleaning the scraped text ([cleanupText], [cleanupContent]) *)

Module Cleanup.
Import Chunker Scraper.

(** [s.replace(/\s+/g, ' ')]: every longest run of white space becomes
    one space.  [inRun] tells that the character before was white
    space, so that the run has its space already. *)
Fixpoint collapseFrom (inRun : bool) (s : jsstring) : jsstring :=
  match s with
  | [] => []
  | c :: s' =>
      if isWhiteSpace c then
        if inRun then collapseFrom true s' else SPACE :: collapseFrom true s'
      else c :: collapseFrom false s'
  end.

Definition collapseWhiteSpace (s : jsstring) : jsstring := collapseFrom false s.

(** [cleanupContent] of the browser scraper. *)
Definition cleanupContent (content : jsstring) : jsstring :=
  if negb (truthy content) || (length (trim content) =? 0)%nat then []
  else trim (collapseWhiteSpace content).

Definition BACKTICK : code_unit := 96%N.

(** The classes [[a-z]] and [[A-Z]]. *)
Definition isLower (c : code_unit) : bool := ((97 <=? c) && (c <=? 122))%N.
Definition isUpper (c : code_unit) : bool := ((65 <=? c) && (c <=? 90))%N.

Definition CODE_BLOCK_REMOVED : jsstring := lit "[CODE_BLOCK_REMOVED]".

(** [s.replace(/```[\s\S]*?```/g, '[CODE_BLOCK_REMOVED]')].  Outside a
    block the scanner looks for three backticks; inside, it skips up to
    the next three, keeping what it skips: when the text ends before
    the block is closed nothing matches from its opening on, and the
    text stays as it is. *)
Inductive fence_state :=
| Outside
| Inside (skipped : jsstring).

Fixpoint removeCodeBlocks (st : fence_state) (s : jsstring) : jsstring :=
  match s with
  | [] =>
      match st with
      | Outside => []
      | Inside skipped => [BACKTICK; BACKTICK; BACKTICK] ++ skipped
      end
  | c1 :: s1 =>
      let fence :=
        match s1 with
        | c2 :: c3 :: _ => ((c1 =? BACKTICK) && (c2 =? BACKTICK) && (c3 =? BACKTICK))%N
        | _ => false
        end in
      match st with
      | Outside =>
          if fence then
            match s1 with
            | _ :: _ :: s3 => removeCodeBlocks (Inside []) s3
            | _ => c1 :: removeCodeBlocks Outside s1
            end
          else c1 :: removeCodeBlocks Outside s1
      | Inside skipped =>
          if fence then
            match s1 with
            | _ :: _ :: s3 => CODE_BLOCK_REMOVED ++ removeCodeBlocks Outside s3
            | _ => removeCodeBlocks (Inside (skipped ++ [c1])) s1
            end
          else removeCodeBlocks (Inside (skipped ++ [c1])) s1
      end
  end.

(** [s.replace(/([a-z])([A-Z][a-z])/g, '$1 $2')]. *)
Fixpoint splitCamelCase (s : jsstring) : jsstring :=
  match s with
  | [] => []
  | c1 :: s1 =>
      match s1 with
      | c2 :: c3 :: s3 =>
          if isLower c1 && isUpper c2 && isLower c3
          then c1 :: SPACE :: c2 :: c3 :: splitCamelCase s3
          else c1 :: splitCamelCase s1
      | _ => c1 :: splitCamelCase s1
      end
  end.

(** [s.replace(/([.!?])([A-Z])/g, '$1 $2')]. *)
Fixpoint spaceAfterTerminator (s : jsstring) : jsstring :=
  match s with
  | [] => []
  | c1 :: s1 =>
      match s1 with
      | c2 :: s2 =>
          if isTerminator c1 && isUpper c2
          then c1 :: SPACE :: c2 :: spaceAfterTerminator s2
          else c1 :: spaceAfterTerminator s1
      | [] => [c1]
      end
  end.

(** [cleanupText] of the crawler. *)
Definition cleanupText (text : jsstring) : jsstring :=
  trim (collapseWhiteSpace
          (spaceAfterTerminator (splitCamelCase (removeCodeBlocks Outside text)))).

(** A text that does not begin with white space. *)
Definition headNotWhite (s : jsstring) : Prop :=
  match s with
  | d :: _ => isWhiteSpace d = false
  | [] => True
  end.

(** A text in which white space only comes as single spaces, each
    followed by another character or by the end. *)
Fixpoint singleSpaced (s : jsstring) : Prop :=
  match s with
  | [] => True
  | c :: s' =>
      (isWhiteSpace c = true -> c = SPACE /\ headNotWhite s')
      /\ singleSpaced s'
  end.

Definition normalized (s : jsstring) : Prop :=
  singleSpaced s /\ trim s = s.

End Cleanup.

(* ================================================================= *)
(** ** The links a crawl follows *)

Module CrawlLinks.
Import stdpp.base stdpp.list stdpp.gmap.
Import KnowledgeManager Scraper.

(** The part of the link filter that does not depend on the visited
    set: the URL holds the host name of the page and [/docs/], and
    neither [/login] nor [redirect=]. *)
Definition isDocumentationLink (domain absoluteUrl : jsstring) : bool :=
  includes absoluteUrl domain
  && includes absoluteUrl (lit "/docs/")
  && negb (includes absoluteUrl (lit "/login"))
  && negb (includes absoluteUrl (lit "redirect=")).

Section Links.

Variable http_get : jsstring → option response.

(** [l] is a documentation link of the page fetched at [v]. *)
Definition linkedFrom (v l : jsstring) : Prop :=
  ∃ r, http_get v = Some r ∧ l ∈ absoluteUrls r
       ∧ isDocumentationLink (domain r) l = true.

(** Every URL queued or fetched is the seed or a documentation link of
    a page fetched before. *)
Definition foundByLinks (baseUrl : jsstring) (st : crawl_state) : Prop :=
  ∀ u, u ∈ toCrawl st ∨ u ∈ fetched st →
       u = baseUrl ∨ ∃ v, v ∈ fetched st ∧ linkedFrom v u.

(** A page of the result is what its URL gave when it was fetched. *)
Definition isFetchedDocument (p : ScrapedPage) : Prop :=
  ∃ r, http_get (url p) = Some r ∧ title p = pageTitle r
       ∧ content p = pageContent r ∧ 50 ≤ length (content p).

(** The pages come from the URLs fetched, in their order, at most one
    for each. *)
Definition pagesFetched (st : crawl_state) : Prop :=
  map url (pages st) `sublist_of` fetched st
  ∧ Forall isFetchedDocument (pages st).

(** Only fetched URLs are marked, and no documentation link of a
    fetched page is forgotten: it is marked or waits in the queue. *)
Definition linksKept (st : crawl_state) : Prop :=
  (∀ u, u ∈ visitedUrls st → u ∈ fetched st)
  ∧ ∀ v l, v ∈ fetched st → linkedFrom v l →
           l ∈ visitedUrls st ∨ l ∈ toCrawl st.

End Links.

End CrawlLinks.

(* ================================================================= *)
(** ** The server: connections and messages ([MessageHandler]) *)

Module Server.
Import stdpp.base stdpp.list stdpp.gmap.
Import Embedder Retrieval KnowledgeManager MessageHandler.

(** A message of a client, by its [type]. *)
Inductive request :=
| LoadDocs (url : jsstring)
| Chat (message : jsstring)
| OtherType.

(** What the outside gives while one request is handled: the crawler,
    the embedding service of the manager, whether the graph can be
    destroyed, the embedding service of a new graph, the query
    embedder and the output stream of the graph. *)
Record world := {
  scrape : jsstring → scrape_run;
  service : EmbedderService;
  graphDestroy : bool;
  graphService : EmbedderService;
  embedSingle : jsstring → option vector;
  generate :
    jsstring → option (list jsstring)
    → list ChatStream.graph_result * ChatStream.stream_end
}.

(** The fields [graph] and [knowledgeManager] of the handler, and
    [connections]. *)
Record server := {
  state : handler;
  connections : gmap jsstring connection
}.

Definition initial : server :=
  {| state := {| graph := None; managerRecords := [] |}; connections := ∅ |}.

Inductive event :=
| Connect (sessionId : jsstring)
| Close (sessionId : jsstring)
| Receive (sessionId : jsstring) (m : request).

(** What leaves the server: the welcome message, and what the handlers
    of a session do. *)
Inductive output :=
| Connected (sessionId : jsstring)
| Effect (sessionId : jsstring) (e : effect).

(** [handleConnection]: a new connection under a new session id. *)
Definition handleConnection (s : server) (sessionId : jsstring)
  : server * list output :=
  ({| state := state s;
      connections := <[sessionId := {| messages := []; knowledgeLoaded := false |}]>
                       (connections s) |},
   [Connected sessionId]).

(** [ws.on('close')]. *)
Definition handleClose (s : server) (sessionId : jsstring) : server :=
  {| state := state s; connections := delete sessionId (connections s) |}.

(** [handleMessage]: nothing for a session that is not connected or a
    type that is not known. *)
Definition handleMessage (w : world) (s : server) (sessionId : jsstring)
    (m : request) : server * list output :=
  match connections s !! sessionId with
  | None => (s, [])
  | Some c =>
      match m with
      | LoadDocs url =>
          let '(h, c', effects) :=
            handleLoadDocs (scrape w) (service w) (graphDestroy w) (graphService w)
              (state s) c url in
          ({| state := h; connections := <[sessionId := c']> (connections s) |},
           map (Effect sessionId) effects)
      | Chat message =>
          let '(c', effects) :=
            handleChat (embedSingle w) (generate w) (state s) c message in
          ({| state := state s; connections := <[sessionId := c']> (connections s) |},
           map (Effect sessionId) effects)
      | OtherType => (s, [])
      end
  end.

(** One event, requests being handled one at a time. *)
Definition step (s : server) (we : world * event) : server * list output :=
  match snd we with
  | Connect sessionId => handleConnection s sessionId
  | Close sessionId => (handleClose s sessionId, [])
  | Receive sessionId m => handleMessage (fst we) s sessionId m
  end.

(** The server and everything sent after a sequence of events. *)
Fixpoint run (s : server) (events : list (world * event))
  : server * list output :=
  match events with
  | [] => (s, [])
  | we :: rest =>
      let '(s', out) := step s we in
      let '(s'', out') := run s' rest in
      (s'', out ++ out')
  end.

(** A query that reached the graph was ranked: the retrieval node did
    not throw. *)
Definition isRanked (o : output) : Prop :=
  match o with
  | Effect _ (GraphQuery _ retrieved) => ∃ texts, retrieved = inr texts
  | _ => True
  end.

(** The graph, when there is one, holds a store that is not empty. *)
Definition graphHasRecords (s : server) : Prop :=
  ∀ g, graph (state s) = Some g → graphRecords g ≠ [].

(** A connection is ready only after it was told that its
    documentation is loaded. *)
Definition readyWasLoaded (s : server) (sent : list output) : Prop :=
  ∀ sessionId c,
    connections s !! sessionId = Some c → knowledgeLoaded c = true →
    ∃ pageCount recordCount,
      Effect sessionId (SendDocsLoaded pageCount recordCount) ∈ sent.

End Server.

(* ================================================================= *)
(** ** A sample run of the server *)

Module ServerSample.
Import stdpp.base stdpp.list stdpp.gmap.
Import Num Embedder Retrieval KnowledgeManager MessageHandler Population Server.




Definition docsUrl : jsstring := lit "https://example.com/docs/".


End ServerSample.

(* ================================================================= *)
(** ** The browser scraper ([scraper.ts], with Puppeteer) *)

Module BrowserScraper.
Import stdpp.base stdpp.list stdpp.gmap.
Import KnowledgeManager Scraper Cleanup.

(** What a page gives once the browser has loaded it: its address
    ([window.location.href]), the title and the joined text that
    [extractContentFromPage] read in it, and the [href] of its
    anchors, in document order. *)
Record document := {
  location : jsstring;
  titleText : jsstring;
  joinedText : jsstring;
  anchors : list jsstring
}.

Section Browser.

(** [page.goto(url)] and the reading of the page: [None] when one of
    them throws. *)
Variable open : jsstring → option document.
(** [new URL(baseUrl).hostname]. *)
Variable hostname : jsstring → jsstring.
(** [new URL(href, base).toString()]: [None] when it throws. *)
Variable resolve : jsstring → jsstring → option jsstring.

(** The page of a URL, as [scrapeSinglePage] and the callback of
    [scrapePagesConcurrently] make it: none when the page cannot be
    read or its cleaned text has fewer than 50 characters. *)
Definition scrapeSinglePage (url : jsstring) : option ScrapedPage :=
  match open url with
  | None => None
  | Some d =>
      let content := cleanupContent (joinedText d) in
      if (length content <? 50)%nat then None
      else Some {| url := url; title := titleText d; content := content |}
  end.

(** The absolute URL of an [href], if it has one. *)
Definition absoluteUrlOf (domain base href : jsstring) : option jsstring :=
  if negb (truthy href) then None
  else if startsWith href (lit "http") then Some href
  else if startsWith href (lit "/") then Some (lit "https://" ++ domain ++ href)
  else if negb (startsWith href (lit "#")) then resolve href base
  else None.

(** The condition under which a link is kept. *)
Definition keepLink (domain absoluteUrl : jsstring) : bool :=
  includes absoluteUrl domain
  && includes absoluteUrl (lit "/docs/")
  && negb (includes absoluteUrl (lit "#"))
  && negb (includes absoluteUrl (lit "?")).

(** A [Set] of strings as the list of its elements in insertion
    order; [set.add(x)] and the adding of a list. *)
Definition setAdd (set : list jsstring) (x : jsstring) : list jsstring :=
  if bool_decide (x ∈ set) then set else set ++ [x].

Definition addAll (set : list jsstring) (l : list jsstring) : list jsstring :=
  fold_left setAdd l set.

(** [extractLinksFromPage(page, baseUrl)]: the links kept, without
    duplicates. *)
Definition extractLinksFromPage (d : document) (baseUrl : jsstring)
  : list jsstring :=
  let domain := hostname baseUrl in
  addAll []
    (List.filter (keepLink domain)
       (omap (absoluteUrlOf domain (location d)) (anchors d))).

(** The start of the callback of [batch.map]: a URL that is visited
    gives nothing; another is marked and scraped.  The state is the
    visited set and the values the promises settle with. *)
Definition scrapeUrl (st : gset jsstring * list (option ScrapedPage))
    (url : jsstring) : gset jsstring * list (option ScrapedPage) :=
  let '(visitedUrls, settled) := st in
  if has visitedUrls url then (visitedUrls, settled ++ [None])
  else ({[url]} ∪ visitedUrls, settled ++ [scrapeSinglePage url]).

(** The loop [for (let i = 0; i < urls.length; i += maxConcurrency)]
    of [scrapePagesConcurrently] from index [i] on, for at most [fuel]
    turns; [None] when the turns are used up before the loop ends. *)
Fixpoint scrapeFrom (fuel : nat) (maxConcurrency : nat) (urls : list jsstring)
    (i : nat) (visitedUrls : gset jsstring) (results : list ScrapedPage)
  : option (gset jsstring * list ScrapedPage) :=
  if (i <? length urls)%nat then
    match fuel with
    | O => None
    | S fuel' =>
        let batch := take maxConcurrency (drop i urls) in
        let '(visitedUrls, settled) := fold_left scrapeUrl batch (visitedUrls, []) in
        let results := results ++ omap id settled in
        if (Config.SCRAPER_MAX_PAGES <=? length results)%nat
        then Some (visitedUrls, results)
        else scrapeFrom fuel' maxConcurrency urls (i + maxConcurrency)
               visitedUrls results
    end
  else Some (visitedUrls, results).

Definition scrapePagesConcurrently (urls : list jsstring) (maxConcurrency : nat)
    (visitedUrls : gset jsstring) : option (gset jsstring * list ScrapedPage) :=
  scrapeFrom (length urls) maxConcurrency urls 0 visitedUrls [].

(** The URLs to scrape: the seed, then the links of its page that are
    not the seed, the first [SCRAPER_MAX_PAGES] of them. *)
Definition urlsToScrape (d : document) (url : jsstring) : list jsstring :=
  take Config.SCRAPER_MAX_PAGES (addAll [url] (extractLinksFromPage d url)).

(** [scrapeDocumentation(url)]: [Some None] when it throws, [None]
    when the turns of the loop are used up. *)
Definition scrapeDocumentation (url : jsstring)
  : option (option (list ScrapedPage)) :=
  match open url with
  | None => Some None
  | Some d =>
      match scrapePagesConcurrently (urlsToScrape d url) 3 ∅ with
      | Some (_, pages) => Some (Some pages)
      | None => None
      end
  end.

End Browser.

End BrowserScraper.


(* ================================================================= *)
(** * Properties *)

(** ** Cosine similarity *)

Module EmbedderFacts.
Import Num Embedder Scores Samples.

Lemma cosineSimilarity_mismatch (a b : vector) :
  length a <> length b -> cosineSimilarity a b = inl VectorsMustHaveSameLength.
Proof.
  intros H. unfold cosineSimilarity.
  destruct (Nat.eqb_spec (length a) (length b)) as [E|E]; [contradiction|reflexivity].
Qed.

Lemma cosineSimilarity_same_length (a b : vector) :
  length a = length b ->
  cosineSimilarity a b =
    inr (let '(dotProduct, normA, normB) := sums a b in
         div dotProduct (mul (sqrt normA) (sqrt normB))).
Proof.
  intros H. unfold cosineSimilarity. rewrite H, Nat.eqb_refl. simpl.
  destruct (sums a b) as [[dp na] nb]. reflexivity.
Qed.

(** The function throws exactly on vectors of different lengths. *)
Lemma cosineSimilarity_throws_iff (a b : vector) :
  (exists e, cosineSimilarity a b = inl e) <-> length a <> length b.
Proof.
  split.
  - intros [e He] E. rewrite (cosineSimilarity_same_length _ _ E) in He. discriminate.
  - intros H. eexists. apply cosineSimilarity_mismatch, H.
Qed.

Lemma mul_zero_r x z : isZero z = true -> zeroOrNaN (mul x z) = true.
Proof. destruct z; try discriminate. intros _. destruct x; reflexivity. Qed.

Lemma add_zeroOrNaN x y :
  zeroOrNaN x = true -> zeroOrNaN y = true -> zeroOrNaN (add x y) = true.
Proof.
  destruct x as [[|]| | |]; try discriminate; destruct y as [[|]| | |];
    try discriminate; reflexivity.
Qed.

Lemma mul_zero_zero y z :
  isZero y = true -> isZero z = true -> isZero (mul y z) = true.
Proof. destruct y; try discriminate; destruct z; try discriminate; reflexivity. Qed.

Lemma add_zero_zero y z :
  isZero y = true -> isZero z = true -> isZero (add y z) = true.
Proof.
  destruct y as [[|]| | |]; try discriminate; destruct z as [[|]| | |];
    try discriminate; reflexivity.
Qed.

(** Against a vector of zeros the dot product is a zero or NaN and the
    squared norm of that vector is a zero, whatever the loop started
    from. *)
Lemma fold_accumulate_zero_vector (a b : vector) dp na nb :
  Forall (fun x => isZero x = true) b ->
  zeroOrNaN dp = true -> isZero nb = true ->
  let '(dp', _, nb') := fold_left accumulate (combine a b) (dp, na, nb) in
  zeroOrNaN dp' = true /\ isZero nb' = true.
Proof.
  intros Hb. revert a dp na nb.
  induction Hb as [|z b Hz Hb IH]; intros a dp na nb Hdp Hnb.
  - destruct a; simpl; auto.
  - destruct a as [|x a]; simpl; auto.
    apply IH.
    + apply add_zeroOrNaN; [assumption | apply mul_zero_r, Hz].
    + apply add_zero_zero; [assumption | apply mul_zero_zero; assumption].
Qed.

Lemma div_zeroOrNaN x y :
  zeroOrNaN x = true -> zeroOrNaN y = true -> div x y = NaN.
Proof. destruct x; try discriminate; destruct y; try discriminate; reflexivity. Qed.

Lemma sqrt_zero z : isZero z = true -> isZero (sqrt z) = true.
Proof. destruct z; try discriminate. reflexivity. Qed.

(** The similarity to a vector of zeros of the same length is the NaN
    of 0/0. *)
Lemma cosineSimilarity_zero_vector (a b : vector) :
  length a = length b -> Forall (fun x => isZero x = true) b ->
  cosineSimilarity a b = inr NaN.
Proof.
  intros Hlen Hb. rewrite (cosineSimilarity_same_length _ _ Hlen).
  unfold sums.
  pose proof (@fold_accumulate_zero_vector a b zero zero zero Hb eq_refl eq_refl) as H.
  destruct (fold_left accumulate (combine a b) (zero, zero, zero)) as [[dp na] nb].
  destruct H as [Hdp Hnb]. f_equal.
  apply div_zeroOrNaN; [assumption | apply mul_zero_r, sqrt_zero, Hnb].
Qed.

Lemma mul_zero_l x z : isZero z = true -> zeroOrNaN (mul z x) = true.
Proof. destruct z; try discriminate. intros _. destruct x; reflexivity. Qed.

Lemma fold_accumulate_zero_query (a b : vector) dp na nb :
  Forall (fun x => isZero x = true) a ->
  zeroOrNaN dp = true -> isZero na = true ->
  let '(dp', na', _) := fold_left accumulate (combine a b) (dp, na, nb) in
  zeroOrNaN dp' = true /\ isZero na' = true.
Proof.
  intros Ha. revert b dp na nb.
  induction Ha as [|z a Hz Ha IH]; intros b dp na nb Hdp Hna.
  - simpl; auto.
  - destruct b as [|y b]; simpl; auto.
    apply IH.
    + apply add_zeroOrNaN; [assumption | apply mul_zero_l, Hz].
    + apply add_zero_zero; [assumption | apply mul_zero_zero; assumption].
Qed.

(** The same when the first vector is the one of zeros. *)
Lemma cosineSimilarity_zero_query (a b : vector) :
  length a = length b -> Forall (fun x => isZero x = true) a ->
  cosineSimilarity a b = inr NaN.
Proof.
  intros Hlen Ha. rewrite (cosineSimilarity_same_length _ _ Hlen).
  unfold sums.
  pose proof (@fold_accumulate_zero_query a b zero zero zero Ha eq_refl eq_refl) as H.
  destruct (fold_left accumulate (combine a b) (zero, zero, zero)) as [[dp na] nb].
  destruct H as [Hdp Hna]. f_equal.
  apply div_zeroOrNaN; [assumption | apply mul_zero_l, sqrt_zero, Hna].
Qed.

End EmbedderFacts.


(** ** Binary64: order and the sign of a difference *)

Module NumFacts.
Import Num Scores Samples.
Local Open Scope Z_scope.

Lemma fexp_eq x : fexp prec emax x = Z.max (x - 53) (-1074).
Proof. reflexivity. Qed.

Lemma digits2_pos_bounds m :
  2 ^ (Z.pos (digits2_pos m) - 1) <= Z.pos m < 2 ^ Z.pos (digits2_pos m).
Proof.
  induction m as [m IH|m IH|]; cbn [digits2_pos].
  - rewrite Pos2Z.inj_succ.
    replace (Z.succ (Z.pos (digits2_pos m)) - 1) with (Z.succ (Z.pos (digits2_pos m) - 1)) by lia.
    rewrite !Z.pow_succ_r by lia. lia.
  - rewrite Pos2Z.inj_succ.
    replace (Z.succ (Z.pos (digits2_pos m)) - 1) with (Z.succ (Z.pos (digits2_pos m) - 1)) by lia.
    rewrite !Z.pow_succ_r by lia. lia.
  - simpl. lia.
Qed.

(** The mantissa of a binary64 value has at most 53 digits, and
    exactly 53 above the least exponent. *)
Lemma bounded_canonical m e :
  bounded prec emax m e = true ->
  -1074 <= e /\ Z.pos (digits2_pos m) <= 53 /\
  (-1074 < e -> Z.pos (digits2_pos m) = 53).
Proof.
  unfold bounded, canonical_mantissa. intros H.
  apply andb_prop in H. destruct H as [H _].
  apply Z.eqb_eq in H. rewrite fexp_eq in H. lia.
Qed.

Lemma Pos_iter_xO m d : Z.pos (Pos.iter xO m d) = Z.pos m * 2 ^ Z.pos d.
Proof.
  induction d as [|d IH] using Pos.peano_ind.
  - simpl. lia.
  - rewrite Pos.iter_succ, Pos2Z.inj_succ, Z.pow_succ_r by lia.
    rewrite Pos2Z.inj_xO, IH. lia.
Qed.

(** Aligning a mantissa on a smaller exponent multiplies it by the
    power of two between the exponents. *)
Lemma shl_align_down mx ex ez :
  ez <= ex ->
  Z.pos (fst (shl_align mx ex ez)) = Z.pos mx * 2 ^ (ex - ez).
Proof.
  intros H. unfold shl_align.
  destruct (ez - ex) as [|p|p] eqn:E; try lia.
  - replace (ex - ez) with 0 by lia. simpl. lia.
  - simpl. rewrite Pos_iter_xO. f_equal. f_equal. lia.
Qed.

Lemma shl_align_exponent mx ex ez :
  snd (shl_align mx ex ez) = Z.min ex ez.
Proof.
  unfold shl_align. destruct (ez - ex) as [|p|p] eqn:E; simpl; lia.
Qed.

(** The comparison of two binary64 values is the comparison of their
    mantissas on a common exponent. *)
Lemma compare_aligned sx mx ex sy my ey :
  bounded prec emax mx ex = true -> bounded prec emax my ey = true ->
  let ez := Z.min ex ey in
  SFcompare (S754_finite sx mx ex) (S754_finite sy my ey)
  = Some (Z.compare (cond_Zopp sx (Z.pos mx * 2 ^ (ex - ez)))
                    (cond_Zopp sy (Z.pos my * 2 ^ (ey - ez)))).
Proof.
  intros Hx Hy ez.
  destruct (bounded_canonical _ _ Hx) as (Hex & Hdx & Hnx).
  destruct (bounded_canonical _ _ Hy) as (Hey & Hdy & Hny).
  pose proof (digits2_pos_bounds mx) as Bx. pose proof (digits2_pos_bounds my) as By.
  assert (Px : 0 < 2 ^ (ex - ez)) by (apply Z.pow_pos_nonneg; lia).
  assert (Py : 0 < 2 ^ (ey - ez)) by (apply Z.pow_pos_nonneg; lia).
  assert (Hsmall : forall m, Z.pos (digits2_pos m) <= 53 ->
                             2 ^ Z.pos (digits2_pos m) <= 2 ^ 53).
  { intros m Hm. apply Z.pow_le_mono_r; lia. }
  assert (Hkey : Z.compare (Z.pos mx * 2 ^ (ex - ez)) (Z.pos my * 2 ^ (ey - ez))
                 = match Z.compare ex ey with
                   | Lt => Lt | Gt => Gt | Eq => Pos.compare_cont Eq mx my
                   end).
  { destruct (Z.compare_spec ex ey) as [E|E|E].
    - subst ey. replace (ex - ez) with 0 by lia. rewrite !Z.mul_1_r. reflexivity.
    - apply Z.compare_lt_iff.
      replace (ex - ez) with 0 by lia. replace (ey - ez) with (ey - ex) by lia.
      rewrite Z.mul_1_r.
      assert (Hd : Z.pos (digits2_pos my) = 53) by (apply Hny; lia).
      rewrite Hd in By. specialize (Hsmall mx Hdx).
      assert (2 ^ 1 <= 2 ^ (ey - ex)) by (apply Z.pow_le_mono_r; lia).
      change (2 ^ 1) with 2 in *. change (2 ^ (53 - 1)) with 4503599627370496 in *.
      change (2 ^ 53) with 9007199254740992 in *. nia.
    - apply Z.compare_gt_iff.
      replace (ey - ez) with 0 by lia. replace (ex - ez) with (ex - ey) by lia.
      rewrite Z.mul_1_r.
      assert (Hd : Z.pos (digits2_pos mx) = 53) by (apply Hnx; lia).
      rewrite Hd in Bx. specialize (Hsmall my Hdy).
      assert (2 ^ 1 <= 2 ^ (ex - ey)) by (apply Z.pow_le_mono_r; lia).
      change (2 ^ 1) with 2 in *. change (2 ^ (53 - 1)) with 4503599627370496 in *.
      change (2 ^ 53) with 9007199254740992 in *. nia. }
  set (vx := Z.pos mx * 2 ^ (ex - ez)) in *.
  set (vy := Z.pos my * 2 ^ (ey - ez)) in *.
  assert (0 < vx) by (subst vx; lia). assert (0 < vy) by (subst vy; lia).
  unfold SFcompare. f_equal.
  destruct sx, sy; cbn [cond_Zopp].
  - rewrite Z.compare_opp, (Z.compare_antisym vx vy), Hkey.
    destruct (ex ?= ey); reflexivity.
  - symmetry. apply Z.compare_lt_iff. lia.
  - symmetry. apply Z.compare_gt_iff. lia.
  - rewrite Hkey. destruct (ex ?= ey); reflexivity.
Qed.

(** *** Rounding a non-zero integer keeps its sign *)

Lemma iter_pos_nat {A} (f : A -> A) p x :
  iter_pos f p x = Nat.iter (Pos.to_nat p) f x.
Proof.
  revert x. induction p as [p IH|p IH|]; intros x; cbn [iter_pos].
  - rewrite !IH, Pos2Nat.inj_xI, Nat.iter_succ_r.
    replace (2 * Pos.to_nat p)%nat with (Pos.to_nat p + Pos.to_nat p)%nat by lia.
    now rewrite Nat.iter_add.
  - rewrite !IH, Pos2Nat.inj_xO.
    replace (2 * Pos.to_nat p)%nat with (Pos.to_nat p + Pos.to_nat p)%nat by lia.
    now rewrite Nat.iter_add.
  - reflexivity.
Qed.

Lemma shr_1_half mrs :
  0 <= shr_m mrs -> shr_m (shr_1 mrs) = Z.div2 (shr_m mrs).
Proof.
  destruct mrs as [m r s]. cbn [shr_m]. intros H.
  destruct m as [|[p|p|]|p]; try reflexivity; lia.
Qed.

Lemma shr_iter_positive n mrs :
  2 ^ Z.of_nat n <= shr_m mrs -> 0 < shr_m (Nat.iter n shr_1 mrs).
Proof.
  revert mrs. induction n as [|n IH]; intros mrs H.
  - simpl in *. lia.
  - rewrite Nat.iter_succ_r. apply IH.
    rewrite Nat2Z.inj_succ, Z.pow_succ_r in H by lia.
    assert (0 <= 2 ^ Z.of_nat n) by (apply Z.pow_nonneg; lia).
    rewrite shr_1_half by lia. rewrite Z.div2_div.
    apply Z.div_le_lower_bound; lia.
Qed.

Lemma shr_record_of_loc_m m l : shr_m (shr_record_of_loc m l) = m.
Proof. destruct l as [|[| |]]; reflexivity. Qed.

(** Shifting to the canonical exponent does not lose a positive
    mantissa, when the exponent is not below the least one. *)
Lemma shr_fexp_positive m e l :
  0 < m -> -1074 <= e ->
  0 < shr_m (fst (shr_fexp prec emax m e l))
  /\ -1074 <= snd (shr_fexp prec emax m e l).
Proof.
  intros Hm He. unfold shr_fexp, shr. rewrite fexp_eq.
  destruct m as [|p|p]; try lia. cbn [Zdigits2].
  pose proof (digits2_pos_bounds p) as [Blo _].
  destruct (Z.max (Z.pos (digits2_pos p) + e - 53) (-1074) - e) as [|n|n] eqn:E;
    cbn [fst snd]; rewrite ?shr_record_of_loc_m; try lia.
  split; [|lia].
  rewrite iter_pos_nat. apply shr_iter_positive.
  rewrite shr_record_of_loc_m, positive_nat_Z.
  etransitivity; [|exact Blo]. apply Z.pow_le_mono_r; lia.
Qed.

Lemma round_nearest_even_positive m l : 0 < m -> 0 < round_nearest_even m l.
Proof.
  intros H. unfold round_nearest_even.
  destruct l as [|[| |]]; try lia. destruct (Z.even m); lia.
Qed.

Lemma binary_round_aux_signed sx m e l :
  0 < m -> -1074 <= e -> signed sx (binary_round_aux prec emax sx m e l).
Proof.
  intros Hm He. unfold binary_round_aux.
  destruct (shr_fexp_positive m e l Hm He) as [H1 H1e].
  destruct (shr_fexp prec emax m e l) as [mrs' e']. cbn [fst snd] in *.
  pose proof (round_nearest_even_positive (shr_m mrs') (loc_of_shr_record mrs') H1) as H2.
  destruct (shr_fexp_positive _ e' loc_Exact H2 H1e) as [H3 _].
  destruct (shr_fexp prec emax _ e' loc_Exact) as [mrs'' e'']. cbn [fst snd] in *.
  destruct (shr_m mrs'') as [|p|p]; try lia.
  destruct (e'' <=? emax - prec); [right; eauto | now left].
Qed.

Lemma binary_round_signed sx mx ex :
  -1074 <= ex -> signed sx (binary_round prec emax sx mx ex).
Proof.
  intros He. unfold binary_round.
  pose proof (shl_align_exponent mx ex (fexp prec emax (Z.pos (digits2_pos mx) + ex))) as Hs.
  destruct (shl_align mx ex _) as [mz ez]. cbn [snd] in Hs.
  apply binary_round_aux_signed; [lia|]. rewrite fexp_eq in Hs. lia.
Qed.

(** The normalized form of an integer scaled by a power of two above
    the least exponent has the sign of the integer. *)
Lemma binary_normalize_sign d e :
  -1074 <= e ->
  match d with
  | 0 => binary_normalize prec emax d e false = S754_zero false
  | Z.pos _ => signed false (binary_normalize prec emax d e false)
  | Z.neg _ => signed true (binary_normalize prec emax d e false)
  end.
Proof.
  intros He. destruct d; cbn [binary_normalize]; [reflexivity| |];
    now apply binary_round_signed.
Qed.

(** *** The order of JavaScript numbers *)

Lemma compare_antisym x y :
  SFcompare y x = option_map CompOpp (SFcompare x y).
Proof.
  destruct x as [sx|sx| |sx mx ex], y as [sy|sy| |sy my ey]; cbn [SFcompare option_map];
    try reflexivity;
    try (destruct sx; reflexivity); try (destruct sy; reflexivity);
    try (destruct sx, sy; reflexivity).
  destruct sx, sy; try reflexivity; f_equal;
    rewrite (Z.compare_antisym ex ey); destruct (ex ?= ey); cbn [CompOpp]; try reflexivity;
    change (Pos.compare_cont Eq my mx) with (Pos.compare my mx);
    change (Pos.compare_cont Eq mx my) with (Pos.compare mx my);
    rewrite (Pos.compare_antisym mx my); destruct (mx ?= my)%positive; reflexivity.
Qed.

Lemma lt_then_not_ge x y : lt x y = true -> ge x y = false.
Proof.
  unfold lt, ge, SFltb, SFleb. rewrite (compare_antisym x y).
  destruct (SFcompare x y) as [[| |]|]; cbn; congruence.
Qed.

Lemma compare_defined x y :
  isNaN x = false -> isNaN y = false -> exists c, SFcompare x y = Some c.
Proof. destruct x, y; try discriminate; cbn [SFcompare]; eauto. Qed.

Lemma not_lt_then_ge x y :
  isNaN x = false -> isNaN y = false -> lt x y = false -> ge x y = true.
Proof.
  unfold lt, ge, SFltb, SFleb. rewrite (compare_antisym x y). intros Hx Hy.
  destruct (compare_defined x y Hx Hy) as [c ->]. destruct c; cbn; congruence.
Qed.

Lemma ge_cases x y : ge x y = true -> lt y x = true \/ eqn x y = true.
Proof.
  unfold lt, ge, eqn, SFltb, SFleb, SFeqb. rewrite (compare_antisym y x).
  destruct (SFcompare y x) as [[| |]|]; cbn; auto; discriminate.
Qed.

Lemma eqn_then_ge x y : eqn x y = true -> ge x y = true.
Proof.
  unfold ge, eqn, SFleb, SFeqb. rewrite (compare_antisym x y).
  destruct (SFcompare x y) as [[| |]|]; cbn; congruence.
Qed.

Lemma lt_then_ge x y : lt y x = true -> ge x y = true.
Proof.
  unfold ge, lt, SFleb, SFltb. destruct (SFcompare y x) as [[| |]|]; congruence.
Qed.

Ltac compare_cases :=
  repeat match goal with
  | H : context [Pos.compare_cont Eq ?a ?b] |- _ =>
      change (Pos.compare_cont Eq a b) with (Pos.compare a b) in H
  | |- context [Pos.compare_cont Eq ?a ?b] =>
      change (Pos.compare_cont Eq a b) with (Pos.compare a b)
  end;
  repeat match goal with
  | H : context [Z.compare ?a ?b] |- _ => destruct (Z.compare_spec a b)
  | |- context [Z.compare ?a ?b] => destruct (Z.compare_spec a b)
  | H : context [Pos.compare ?a ?b] |- _ => destruct (Pos.compare_spec a b)
  | |- context [Pos.compare ?a ?b] => destruct (Pos.compare_spec a b)
  end;
  cbn in *; try discriminate; try reflexivity; try lia.

Lemma leb_trans x y z :
  SFleb x y = true -> SFleb y z = true -> SFleb x z = true.
Proof.
  unfold SFleb.
  destruct x as [sx|sx| |sx mx ex], y as [sy|sy| |sy my ey], z as [sz|sz| |sz mz ez];
    cbn [SFcompare]; try discriminate; try reflexivity;
    try (destruct sx; cbn; try discriminate; try reflexivity);
    try (destruct sy; cbn; try discriminate; try reflexivity);
    try (destruct sz; cbn; try discriminate; try reflexivity);
    intros; compare_cases.
Qed.

Lemma ge_trans x y z : ge x y = true -> ge y z = true -> ge x z = true.
Proof. unfold ge. intros H1 H2. exact (leb_trans z y x H2 H1). Qed.

(** *** The sign of a difference *)

Lemma signed_sign s r :
  signed s r -> lt zero r = negb s /\ lt r zero = s.
Proof. intros [->|(m & e & ->)]; destruct s; split; reflexivity. Qed.

Lemma sub_finite_sign sx mx ex sy my ey :
  bounded prec emax mx ex = true -> bounded prec emax my ey = true ->
  let x := S754_finite sx mx ex in
  let y := S754_finite sy my ey in
  lt zero (sub x y) = lt y x /\ lt (sub x y) zero = lt x y.
Proof.
  intros Hx Hy x y.
  destruct (bounded_canonical _ _ Hx) as (Hex & _). destruct (bounded_canonical _ _ Hy) as (Hey & _).
  pose proof (compare_aligned sx mx ex sy my ey Hx Hy) as Hxy. cbv zeta in Hxy.
  pose proof (compare_antisym x y) as Hyx. fold x y in Hxy. rewrite Hxy in Hyx.
  cbn [option_map] in Hyx.
  set (vx := cond_Zopp sx (Z.pos mx * 2 ^ (ex - Z.min ex ey))) in *.
  set (vy := cond_Zopp sy (Z.pos my * 2 ^ (ey - Z.min ex ey))) in *.
  assert (Hsub : sub x y = binary_normalize prec emax (vx - vy) (Z.min ex ey) false).
  { subst x y vx vy. unfold sub, SFsub. now rewrite !shl_align_down by lia. }
  assert (Hlt1 : lt y x = match vx ?= vy with Gt => true | _ => false end).
  { unfold lt, SFltb. rewrite Hyx. now destruct (vx ?= vy). }
  assert (Hlt2 : lt x y = match vx ?= vy with Lt => true | _ => false end).
  { unfold lt, SFltb. now rewrite Hxy. }
  rewrite Hsub, Hlt1, Hlt2.
  pose proof (binary_normalize_sign (vx - vy) (Z.min ex ey) ltac:(lia)) as Hn.
  destruct (Z.compare_spec vx vy) as [E|E|E].
  - replace (vx - vy) with 0 in * by lia. rewrite Hn. split; reflexivity.
  - destruct (vx - vy) as [|d|d] eqn:Ed; try lia.
    destruct (signed_sign true _ Hn) as [-> ->]. split; reflexivity.
  - destruct (vx - vy) as [|d|d] eqn:Ed; try lia.
    destruct (signed_sign false _ Hn) as [-> ->]. split; reflexivity.
Qed.

(** On binary64 values other than NaN, [x - y] is positive exactly
    when [y < x] and negative exactly when [x < y]. *)
Lemma sub_sign x y :
  ordinary x = true -> ordinary y = true ->
  lt zero (sub x y) = lt y x /\ lt (sub x y) zero = lt x y.
Proof.
  unfold ordinary, is_binary64. intros Hx Hy.
  apply andb_prop in Hx. destruct Hx as [Vx Nx].
  apply andb_prop in Hy. destruct Hy as [Vy Ny].
  destruct x as [sx|sx| |sx mx ex], y as [sy|sy| |sy my ey]; try discriminate;
    try (now apply sub_finite_sign);
    try (destruct sx; split; reflexivity);
    try (destruct sy; split; reflexivity);
    try (destruct sx, sy; split; reflexivity).
Qed.

End NumFacts.


(** ** Retrieval *)

Module RetrievalFacts.
Import Num Embedder Retrieval Scores Samples EmbedderFacts.

Lemma map_from_length {A B} (f : A -> nat -> B) l i :
  length (map_from f i l) = length l.
Proof. revert i; induction l; intros; simpl; auto. Qed.

Lemma map_from_nth {A B} (f : A -> nat -> B) l i k x :
  nth_error l k = Some x -> nth_error (map_from f i l) k = Some (f x (i + k)).
Proof.
  revert i k; induction l as [|y l IH]; intros i [|k] H; simpl in *; try discriminate.
  - inversion H; subst. now rewrite Nat.add_0_r.
  - rewrite (IH (S i) k H). f_equal. f_equal. lia.
Qed.

Lemma map_from_In {A B} (f : A -> nat -> B) l i y :
  In y (map_from f i l) ->
  exists k x, nth_error l k = Some x /\ y = f x (i + k).
Proof.
  revert i; induction l as [|x l IH]; intros i H; simpl in H; [contradiction|].
  destruct H as [<-|H].
  - exists 0, x. split; [reflexivity | now rewrite Nat.add_0_r].
  - destruct (IH _ H) as (k & x' & Hk & ->).
    exists (S k), x'. split; [exact Hk | f_equal; lia].
Qed.

Lemma score_index q r i : index (score q r i) = i.
Proof. unfold score. destruct (cosineSimilarity q (embedding r)); reflexivity. Qed.

Lemma score_record q r i : record (score q r i) = text r.
Proof. unfold score. destruct (cosineSimilarity q (embedding r)); reflexivity. Qed.

(** Every scored item carries its position in the store as index. *)
Lemma similarities_In store q item :
  In item (similarities store q) ->
  exists r, nth_error store (index item) = Some r /\ item = score q r (index item).
Proof.
  intros H. apply map_from_In in H. destruct H as (k & r & Hk & ->).
  simpl. rewrite score_index. eauto.
Qed.

Lemma insert_In x l y : In y (insert x l) <-> y = x \/ In y l.
Proof.
  induction l as [|z l IH]; simpl.
  - intuition.
  - destruct (SortCompare x z); simpl; rewrite ?IH; intuition.
Qed.

Lemma sort_In l y : In y (sort l) <-> In y l.
Proof.
  induction l as [|x l IH]; simpl; [tauto|].
  rewrite insert_In, IH. intuition.
Qed.

Lemma insert_length x l : length (insert x l) = S (length l).
Proof.
  induction l as [|z l IH]; simpl; auto.
  destruct (SortCompare x z); simpl; auto.
Qed.

Lemma sort_length l : length (sort l) = length l.
Proof. induction l; simpl; auto. now rewrite insert_length, IHl. Qed.

Lemma In_firstn {A} (x : A) n l : In x (firstn n l) -> In x l.
Proof.
  revert l; induction n; intros [|y l]; simpl; try tauto.
  intros [H|H]; auto.
Qed.

(** What is returned was scored, and passes the threshold. *)
Lemma topItems_In topK threshold sims item :
  In item (topItems topK threshold sims) ->
  In item sims /\ ge (similarity item) threshold = true.
Proof.
  unfold topItems. intros H. apply In_firstn in H.
  apply filter_In in H. now rewrite sort_In in H.
Qed.

Lemma topItems_length topK threshold sims :
  length (topItems topK threshold sims) <= topK.
Proof. unfold topItems. apply firstn_le_length. Qed.

Lemma rank_length topK threshold sims :
  length (rank topK threshold sims) <= topK.
Proof. unfold rank. rewrite length_map. apply topItems_length. Qed.

(** A score of 0 or NaN is below every positive threshold. *)
Lemma below_positive_threshold s threshold :
  zeroOrNaN s = true -> lt zero threshold = true -> ge s threshold = false.
Proof.
  destruct s as [sg| | |]; try discriminate; intros _;
    destruct threshold as [st|[|]| |[|] m e]; try discriminate; reflexivity.
Qed.

End RetrievalFacts.


(** ** Ranking when no score is NaN *)

Module RankingFacts.
Import Num Embedder Retrieval Scores Samples NumFacts RetrievalFacts.

Lemma ordinary_not_NaN x : ordinary x = true -> isNaN x = false.
Proof.
  unfold ordinary. intros H. apply andb_prop in H. destruct H as [_ H].
  now destruct (isNaN x).
Qed.

(** On ordinary scores the comparator orders by the scores. *)
Lemma SortCompare_scores a b :
  isOrdinary a -> isOrdinary b ->
  SortCompare a b
  = if lt (similarity b) (similarity a) then Lt
    else if lt (similarity a) (similarity b) then Gt else Eq.
Proof.
  intros Ha Hb. unfold SortCompare, compareFn.
  destruct (sub_sign (similarity b) (similarity a) Hb Ha) as [H1 H2].
  now rewrite H1, H2.
Qed.

Lemma SortCompare_Gt a b :
  isOrdinary a -> isOrdinary b ->
  SortCompare a b = Gt <-> lt (similarity a) (similarity b) = true.
Proof.
  intros Ha Hb. rewrite (SortCompare_scores a b Ha Hb). split.
  - destruct (lt (similarity b) (similarity a)); [discriminate|].
    destruct (lt (similarity a) (similarity b)); [reflexivity|discriminate].
  - intros H. rewrite H.
    pose proof (lt_then_not_ge _ _ H) as Hge.
    destruct (lt (similarity b) (similarity a)) eqn:E; [|reflexivity].
    apply lt_then_ge in E. congruence.
Qed.

Lemma rankedBefore_ge a b : rankedBefore a b -> ge (similarity a) (similarity b) = true.
Proof. intros [H|[H _]]; [now apply lt_then_ge | now apply eqn_then_ge]. Qed.

(** An item that comes earlier in the store and does not score less
    ranks before. *)
Lemma earlier_ranks_before a b :
  ge (similarity a) (similarity b) = true -> index a < index b -> rankedBefore a b.
Proof.
  intros Hge Hi. destruct (ge_cases _ _ Hge) as [H|H]; [now left | right; now split].
Qed.

Lemma insert_sorted x l :
  isOrdinary x -> Forall isOrdinary l ->
  Forall (fun y => index x < index y) l ->
  StronglySorted rankedBefore l ->
  StronglySorted rankedBefore (insert x l).
Proof.
  intros Hx Hl Hi Hs. induction Hs as [|y l Hs IH Hy]; cbn [insert].
  - repeat constructor.
  - inversion Hl as [|? ? Hoy Hol]; subst. inversion Hi as [|? ? Hiy Hil]; subst.
    destruct (SortCompare x y) eqn:E.
    + constructor; [now constructor|].
      assert (Hge : ge (similarity x) (similarity y) = true).
      { apply not_lt_then_ge; try (apply ordinary_not_NaN; assumption).
        destruct (lt (similarity x) (similarity y)) eqn:El; [|reflexivity].
        apply (SortCompare_Gt x y Hx Hoy) in El. congruence. }
      constructor; [now apply earlier_ranks_before|].
      rewrite Forall_forall in *. intros z Hz.
      apply earlier_ranks_before; [|now apply Hil].
      eapply ge_trans; [exact Hge|]. apply rankedBefore_ge. now apply Hy.
    + constructor; [now constructor|].
      assert (Hge : ge (similarity x) (similarity y) = true).
      { apply not_lt_then_ge; try (apply ordinary_not_NaN; assumption).
        destruct (lt (similarity x) (similarity y)) eqn:El; [|reflexivity].
        apply (SortCompare_Gt x y Hx Hoy) in El. congruence. }
      constructor; [now apply earlier_ranks_before|].
      rewrite Forall_forall in *. intros z Hz.
      apply earlier_ranks_before; [|now apply Hil].
      eapply ge_trans; [exact Hge|]. apply rankedBefore_ge. now apply Hy.
    + apply (SortCompare_Gt x y Hx Hoy) in E.
      constructor; [now apply IH|].
      rewrite Forall_forall in *. intros z Hz. apply insert_In in Hz.
      destruct Hz as [->|Hz]; [now left | now apply Hy].
Qed.

Lemma sort_sorted l :
  Forall isOrdinary l ->
  StronglySorted (fun a b => index a < index b) l ->
  StronglySorted rankedBefore (sort l).
Proof.
  intros Hl Hs. induction Hs as [|x l Hs IH Hx]; cbn [sort]; [constructor|].
  inversion Hl as [|? ? Hox Hol]; subst.
  apply insert_sorted; try assumption.
  - rewrite Forall_forall in *. intros y Hy. apply Hol. now apply sort_In.
  - rewrite Forall_forall in *. intros y Hy. apply Hx. now apply sort_In.
  - now apply IH.
Qed.

Lemma map_from_indices q i store :
  StronglySorted (fun a b => index a < index b) (map_from (score q) i store)
  /\ Forall (fun a => i <= index a) (map_from (score q) i store).
Proof.
  revert i. induction store as [|r store IH]; intros i; cbn [map_from].
  - split; constructor.
  - destruct (IH (S i)) as [Hs Hf]. split.
    + constructor; [exact Hs|]. rewrite score_index.
      eapply Forall_impl; [|exact Hf]. cbv beta. intros a Ha. lia.
    + constructor; [rewrite score_index; lia|].
      eapply Forall_impl; [|exact Hf]. cbv beta. intros a Ha. lia.
Qed.

Lemma StronglySorted_filter {A} (R : A -> A -> Prop) f l :
  StronglySorted R l -> StronglySorted R (filter f l).
Proof.
  intros H. induction H as [|x l Hs IH Hx]; cbn [filter]; [constructor|].
  destruct (f x); [|exact IH]. constructor; [exact IH|].
  rewrite Forall_forall in *. intros y Hy. apply Hx. now apply filter_In in Hy.
Qed.

Lemma StronglySorted_firstn {A} (R : A -> A -> Prop) n l :
  StronglySorted R l -> StronglySorted R (firstn n l).
Proof.
  intros H. revert n. induction H as [|x l Hs IH Hx]; intros [|n]; cbn [firstn];
    try constructor.
  - apply IH.
  - rewrite Forall_forall in *. intros y Hy. apply Hx. now apply In_firstn in Hy.
Qed.

(** When no score is NaN, what retrieval returns is in descending
    order of score, records of equal score in the order of the store. *)
Theorem ranking_descending_without_NaN store q topK threshold :
  Forall isOrdinary (similarities store q) ->
  StronglySorted rankedBefore (topItems topK threshold (similarities store q)).
Proof.
  intros H. unfold topItems.
  apply StronglySorted_firstn, StronglySorted_filter, sort_sorted; [exact H|].
  apply (map_from_indices q 0 store).
Qed.

Lemma ranking_descending_example :
  StronglySorted rankedBefore
    (topItems 3 oneHalf
       (similarities [textOf "a" [1; 1]; textOf "b" [0; 1]; textOf "c" [1; 0];
                      textOf "d" [2; 0]]%Z (map ofZ [1; 0]%Z))).
Proof.
  apply ranking_descending_without_NaN.
  repeat constructor.
Qed.

End RankingFacts.


(** ** Retrieval: the statements of the specification *)

Module RetrievalClaims.
Import Num Embedder Retrieval Scores Samples MessageHandler.
Import EmbedderFacts RetrievalFacts RankingFacts.

Lemma similarities_nth store q i r :
  nth_error store i = Some r ->
  nth_error (similarities store q) i = Some (score q r i).
Proof. intros H. unfold similarities. now rewrite (map_from_nth _ _ 0 _ _ H). Qed.

Lemma retrieve_nonempty topK threshold store q i (r : EmbeddedKnowledgeRecord) :
  nth_error store i = Some r ->
  retrieve topK threshold store q
  = inr (rank topK threshold (similarities store q)).
Proof. destruct store; [destruct i; discriminate | reflexivity]. Qed.

(** The record at position [i] is not returned when its score is a
    zero or NaN and the threshold is positive. *)
Lemma low_score_not_returned store q i r topK threshold :
  nth_error store i = Some r ->
  zeroOrNaN (similarity (score q r i)) = true ->
  lt zero threshold = true ->
  forall item, In item (topItems topK threshold (similarities store q)) ->
               index item <> i.
Proof.
  intros Hr Hs Hthr item Hin Hi.
  apply topItems_In in Hin. destruct Hin as [Hin Hge].
  apply similarities_In in Hin. destruct Hin as (r' & Hr' & Hitem).
  rewrite Hi in Hr', Hitem. rewrite Hr in Hr'. inversion Hr'; subst r'.
  rewrite Hitem in Hge.
  now rewrite (below_positive_threshold _ _ Hs Hthr) in Hge.
Qed.

(** C7. [cosineSimilarity] throws on vectors of different lengths, and
    when that happens for a stored record during retrieval the record
    is scored 0: retrieval still returns, and the record stays below
    every positive threshold. *)
Theorem dimension_mismatch_scores_zero store q i r topK threshold :
  nth_error store i = Some r ->
  length q <> length (embedding r) ->
  cosineSimilarity q (embedding r) = inl VectorsMustHaveSameLength /\
  nth_error (similarities store q) i
  = Some {| record := text r; similarity := zero; index := i |} /\
  retrieve topK threshold store q
  = inr (rank topK threshold (similarities store q)) /\
  (lt zero threshold = true ->
   forall item, In item (topItems topK threshold (similarities store q)) ->
                index item <> i).
Proof.
  intros Hr Hlen.
  pose proof (cosineSimilarity_mismatch _ _ Hlen) as Hcos.
  assert (Hscore : score q r i = {| record := text r; similarity := zero; index := i |}).
  { unfold score. now rewrite Hcos. }
  repeat split.
  - exact Hcos.
  - rewrite (similarities_nth _ _ _ _ Hr). now rewrite Hscore.
  - eapply retrieve_nonempty, Hr.
  - intros Hthr. eapply low_score_not_returned; eauto. now rewrite Hscore.
Qed.

Lemma dimension_mismatch_scores_zero_witness :
  let store := [textOf "a" [1; 0]; textOf "b" [1]]%Z in
  let q := map ofZ [1; 0]%Z in
  nth_error (similarities store q) 1
  = Some {| record := lit "b"; similarity := zero; index := 1 |}
  /\ process store q = inr [lit "a"].
Proof.
  intros store q.
  destruct (@dimension_mismatch_scores_zero store q 1 (textOf "b" [1]%Z)
              Config.RETRIEVAL_TOP_K Config.RETRIEVAL_THRESHOLD)
    as (_ & H & _ & _).
  - reflexivity.
  - simpl. lia.
  - split; [exact H | vm_compute; reflexivity].
Defined.

(** C10. [cosineSimilarity] throws exactly when the lengths differ.  On
    vectors of one length of which one has only zero components the
    division is 0/0 and the result is NaN, and a stored record with
    such an embedding is not returned under a positive threshold. *)
Theorem zero_norm_record_is_never_returned store q i r topK threshold :
  nth_error store i = Some r ->
  Forall (fun x => isZero x = true) (embedding r) ->
  lt zero threshold = true ->
  (forall a b : vector,
     (exists e, cosineSimilarity a b = inl e) <-> length a <> length b) /\
  (forall a b : vector,
     length a = length b ->
     Forall (fun x => isZero x = true) a \/ Forall (fun x => isZero x = true) b ->
     cosineSimilarity a b = inr NaN) /\
  (forall item, In item (topItems topK threshold (similarities store q)) ->
                index item <> i).
Proof.
  intros Hr Hz Hthr. repeat split.
  - apply cosineSimilarity_throws_iff.
  - apply cosineSimilarity_throws_iff.
  - intros a b Hlen [H|H].
    + now apply cosineSimilarity_zero_query.
    + now apply cosineSimilarity_zero_vector.
  - eapply low_score_not_returned; eauto.
    unfold score.
    destruct (Nat.eq_dec (length q) (length (embedding r))) as [E|E].
    + now rewrite (cosineSimilarity_zero_vector _ _ E Hz).
    + now rewrite (cosineSimilarity_mismatch _ _ E).
Qed.

Lemma zero_norm_record_is_never_returned_witness :
  let store := [textOf "a" [1; 0]; textOf "b" [0; 0]]%Z in
  let q := map ofZ [1; 0]%Z in
  cosineSimilarity q (map ofZ [0; 0]%Z) = inr NaN /\
  forall item,
    In item (topItems Config.RETRIEVAL_TOP_K Config.RETRIEVAL_THRESHOLD
               (similarities store q)) -> index item <> 1.
Proof.
  intros store q.
  destruct (@zero_norm_record_is_never_returned store q 1 (textOf "b" [0; 0]%Z)
              Config.RETRIEVAL_TOP_K Config.RETRIEVAL_THRESHOLD)
    as (_ & H & Hout).
  - reflexivity.
  - repeat constructor.
  - reflexivity.
  - split; [|exact Hout].
    apply H; [reflexivity | right; repeat constructor].
Defined.

(** C4, as the claim states it: retrieval on an empty store would
    return for every query.  It does not: the node throws. *)
Lemma retrieve_on_empty_store_counterexample :
  ~ (forall q : vector, exists texts, process [] q = inr texts).
Proof. intros H. destruct (H []) as [texts Ht]. discriminate. Qed.

(** C4, amended.  On an empty store the retrieval node throws "No
    embedded records available" for every query, and no graph is built
    over an empty store; a chat message that arrives while no graph
    exists or the connection has no loaded knowledge is answered with
    the not-ready error alone, and no query is started. *)
Theorem empty_store_throws_and_unready_chat_is_rejected
    (service : KnowledgeManager.EmbedderService)
    (embedSingle : jsstring -> option vector)
    (generate : jsstring -> option (list jsstring)
                -> list ChatStream.graph_result * ChatStream.stream_end)
    (h : handler) (c : connection) (message : jsstring) (q : vector) :
  graph h = None \/ knowledgeLoaded c = false ->
  process [] q = inl NoEmbeddedRecordsAvailable /\
  createGraph service [] = None /\
  handleChat embedSingle generate h c message = (c, [SendError NOT_READY]) /\
  (forall m r, ~ In (GraphQuery m r)
                    (snd (handleChat embedSingle generate h c message))).
Proof.
  intros Hnot.
  assert (Hchat : handleChat embedSingle generate h c message
                  = (c, [SendError NOT_READY])).
  { unfold handleChat. destruct Hnot as [Hg|Hk].
    - now rewrite Hg.
    - rewrite Hk. now destruct (graph h). }
  split; [reflexivity|]. split; [reflexivity|]. split; [exact Hchat|].
  intros m r. rewrite Hchat. simpl. intros [H|[]]. discriminate.
Qed.

Lemma empty_store_throws_and_unready_chat_is_rejected_witness :
  let h := {| graph := None; managerRecords := [] |} in
  let c := {| messages := []; knowledgeLoaded := false |} in
  handleChat (fun _ => Some []) (fun _ _ => ([], ChatStream.Done)) h c (lit "hello")
  = (c, [SendError NOT_READY]).
Proof.
  intros h c.
  apply (empty_store_throws_and_unready_chat_is_rejected
           {| KnowledgeManager.initialize := true;
              KnowledgeManager.embedBatch := fun _ => None |}
           (fun _ => Some []) (fun _ _ => ([], ChatStream.Done)) h c (lit "hello") []).
  left. reflexivity.
Defined.

(** Scenario E on the ranking stage: scores 0.9, 0.7, 0.4, 0.3 under
    threshold 0.5 and top-K 3. *)
Lemma scenarioE_returns_first_two :
  rank 3 (decimal 5 10) scenarioE = [lit "r1"; lit "r2"].
Proof. vm_compute. reflexivity. Qed.

Lemma threshold_is_one_half : Config.RETRIEVAL_THRESHOLD = decimal 5 10.
Proof. vm_compute. reflexivity. Qed.

(** C1, on [storeWithZeroVector] and the query [[1, 0]].  The scores
    are 0.7071..., NaN and 1; every comparison with the NaN score
    gives NaN, so nothing moves, and the text of score 0.7071... is
    returned before the text of score 1.  Without a NaN score the
    order is descending ([ranking_descending_without_NaN]). *)
Theorem zero_vector_leaves_scores_unsorted :
  let q := map ofZ [1; 0]%Z in
  map similarity (similarities storeWithZeroVector q)
  = [S754_finite false 6369051672525772 (-53); NaN;
     S754_finite false 4503599627370496 (-52)] /\
  process storeWithZeroVector q = inr [lit "a"; lit "c"] /\
  lt (S754_finite false 6369051672525772 (-53))
     (S754_finite false 4503599627370496 (-52)) = true.
Proof. vm_compute. repeat split. Qed.

End RetrievalClaims.


(** ** Strings *)

Module JsStringFacts.

Lemma dropWhile_decompose p s :
  exists pre, s = pre ++ dropWhile p s /\ Forall (fun c => p c = true) pre.
Proof.
  induction s as [|c s IH]; simpl.
  - exists []. auto.
  - destruct (p c) eqn:E.
    + destruct IH as (pre & Hs & Hp). exists (c :: pre). split.
      * simpl. now rewrite <- Hs.
      * constructor; assumption.
    + exists []. auto.
Qed.

Lemma dropWhile_head p s c r : dropWhile p s = c :: r -> p c = false.
Proof.
  induction s as [|d s IH]; simpl; [discriminate|].
  destruct (p d) eqn:E; [exact IH|].
  intros H. inversion H; subst. exact E.
Qed.

Lemma dropWhile_fixed p s :
  match s with [] => True | c :: _ => p c = false end -> dropWhile p s = s.
Proof. destruct s as [|c s]; simpl; [reflexivity|]. now intros ->. Qed.

Lemma dropWhile_idempotent p s : dropWhile p (dropWhile p s) = dropWhile p s.
Proof.
  apply dropWhile_fixed. destruct (dropWhile p s) eqn:E; [exact I|].
  eapply dropWhile_head, E.
Qed.

Lemma dropWhile_length p s : length (dropWhile p s) <= length s.
Proof.
  destruct (dropWhile_decompose p s) as (pre & Hs & _).
  rewrite Hs at 2. rewrite length_app. lia.
Qed.

Lemma dropWhile_In p s c : In c (dropWhile p s) -> In c s.
Proof.
  destruct (dropWhile_decompose p s) as (pre & Hs & _).
  intros H. rewrite Hs. apply in_or_app. now right.
Qed.

(** [dropWhile] on an append: it stops in the first part when it can. *)
Lemma dropWhile_app_stop p a b c r :
  dropWhile p a = c :: r -> dropWhile p (a ++ b) = (c :: r) ++ b.
Proof.
  induction a as [|d a IH]; simpl; [discriminate|].
  destruct (p d); [exact IH|].
  intros H. inversion H; subst. reflexivity.
Qed.

Lemma dropWhile_app_through p a b :
  dropWhile p a = [] -> dropWhile p (a ++ b) = dropWhile p b.
Proof.
  induction a as [|d a IH]; simpl; [reflexivity|].
  destruct (p d); [exact IH|discriminate].
Qed.

Lemma trimStart_length s : length (trimStart s) <= length s.
Proof. apply dropWhile_length. Qed.

Lemma trimEnd_length s : length (trimEnd s) <= length s.
Proof.
  unfold trimEnd. rewrite length_rev.
  etransitivity; [apply dropWhile_length|]. now rewrite length_rev.
Qed.

Lemma trim_length s : length (trim s) <= length s.
Proof.
  unfold trim. etransitivity; [apply trimEnd_length | apply trimStart_length].
Qed.

Lemma trim_len s : (len (trim s) <= len s)%Z.
Proof. unfold len. pose proof (trim_length s). lia. Qed.

Lemma trimEnd_In s c : In c (trimEnd s) -> In c s.
Proof.
  unfold trimEnd. rewrite <- in_rev. intros H.
  apply dropWhile_In in H. now rewrite <- in_rev in H.
Qed.

Lemma trim_In s c : In c (trim s) -> In c s.
Proof. intros H. apply trimEnd_In in H. now apply dropWhile_In in H. Qed.

(** [trimEnd s] is [s] without a trailing run of white space. *)
Lemma trimEnd_decompose s :
  exists suf, s = trimEnd s ++ suf /\ Forall (fun c => isWhiteSpace c = true) suf.
Proof.
  unfold trimEnd.
  destruct (dropWhile_decompose isWhiteSpace (rev s)) as (pre & Hs & Hp).
  exists (rev pre). split.
  - rewrite <- rev_app_distr, <- Hs. now rewrite rev_involutive.
  - apply Forall_rev, Hp.
Qed.

Lemma trimEnd_fixed s c :
  isWhiteSpace c = false -> trimEnd (s ++ [c]) = s ++ [c].
Proof.
  intros H. unfold trimEnd. rewrite rev_app_distr. simpl. rewrite H.
  simpl. now rewrite rev_involutive.
Qed.

Lemma trimEnd_nil : trimEnd [] = [].
Proof. reflexivity. Qed.

(** The first character of a string survives [trimEnd] when it is not
    white space. *)
Lemma trimEnd_keeps_head c s :
  isWhiteSpace c = false -> exists r, trimEnd (c :: s) = c :: r.
Proof.
  intros H. destruct (trimEnd_decompose (c :: s)) as (suf & Hs & Hw).
  destruct (trimEnd (c :: s)) as [|d r] eqn:E.
  - simpl in Hs. subst suf. inversion Hw; subst. congruence.
  - simpl in Hs. inversion Hs; subst. eauto.
Qed.

Lemma trim_idempotent s : trim (trim s) = trim s.
Proof.
  unfold trim at 2. set (y := trimStart s).
  assert (Hy : match y with [] => True | c :: _ => isWhiteSpace c = false end).
  { subst y. unfold trimStart. destruct (dropWhile isWhiteSpace s) eqn:E; [exact I|].
    eapply dropWhile_head, E. }
  assert (Hstart : trimStart (trimEnd y) = trimEnd y).
  { apply dropWhile_fixed. destruct y as [|c y']; [exact I|].
    destruct (trimEnd_keeps_head c y' Hy) as [r ->]. exact Hy. }
  unfold trim. rewrite Hstart.
  unfold trimEnd at 1. unfold trimEnd at 1. rewrite rev_involutive.
  rewrite dropWhile_idempotent. reflexivity.
Qed.

(** A string that ends in a character other than white space keeps its
    end under [trim]. *)
Lemma trim_keeps_end s c :
  isWhiteSpace c = false -> trim (s ++ [c]) = trimStart (s ++ [c]).
Proof.
  intros H. unfold trim.
  destruct (dropWhile_decompose isWhiteSpace (s ++ [c])) as (pre & Hs & Hp).
  fold (trimStart (s ++ [c])) in Hs.
  destruct (trimStart (s ++ [c])) as [|d r] eqn:E.
  - rewrite app_nil_r in Hs. subst pre.
    apply Forall_app in Hp. destruct Hp as [_ Hp]. inversion Hp; subst. congruence.
  - assert (Hne : d :: r <> []) by discriminate.
    destruct (exists_last Hne) as (y0 & e & Hy). rewrite Hy in *.
    rewrite app_assoc in Hs. apply app_inj_tail in Hs.
    destruct Hs as [_ <-]. apply trimEnd_fixed, H.
Qed.

Lemma split_from_nonempty cur s : split_from cur s <> [].
Proof.
  revert cur; induction s as [|c s IH]; intros cur; simpl; [discriminate|].
  destruct (c =? SPACE)%N; [discriminate | apply IH].
Qed.

(** The characters of a piece come from the accumulator or from the
    text, and those from the text are not the space. *)
Lemma split_from_In cur s w c :
  In w (split_from cur s) -> In c w ->
  In c cur \/ (In c s /\ c <> SPACE).
Proof.
  revert cur; induction s as [|d s IH]; intros cur Hw Hc; simpl in Hw.
  - destruct Hw as [<-|[]]. now left.
  - destruct (N.eqb_spec d SPACE) as [E|E].
    + destruct Hw as [<-|Hw]; [now left|].
      destruct (IH [] Hw Hc) as [[]|[H1 H2]]. right. split; [now right|assumption].
    + destruct (IH _ Hw Hc) as [H|[H1 H2]].
      * apply in_app_or in H. destruct H as [H|[<-|[]]]; [now left|].
        right. split; [now left|assumption].
      * right. split; [now right|assumption].
Qed.

(** A text without a space is one piece. *)
Lemma split_from_no_space cur s :
  Forall (fun c => c <> SPACE) s -> split_from cur s = [cur ++ s].
Proof.
  intros H. revert cur. induction H as [|c s Hc Hs IH]; intros cur; simpl.
  - now rewrite app_nil_r.
  - destruct (N.eqb_spec c SPACE) as [E|E]; [contradiction|].
    rewrite IH. now rewrite <- app_assoc.
Qed.

(** The accumulator is the start of the first piece. *)
Lemma split_from_accumulator cur s :
  split_from cur s
  = (cur ++ hd [] (split_from [] s)) :: tl (split_from [] s).
Proof.
  revert cur; induction s as [|c s IH]; intros cur; simpl.
  - now rewrite app_nil_r.
  - destruct (c =? SPACE)%N; simpl.
    + now rewrite app_nil_r.
    + rewrite (IH (cur ++ [c])), (IH [c]). simpl. now rewrite <- app_assoc.
Qed.

(** A tail without a space extends the last piece. *)
Lemma split_from_app_no_space cur s t :
  Forall (fun c => c <> SPACE) t ->
  split_from cur (s ++ t)
  = removelast (split_from cur s) ++ [last (split_from cur s) [] ++ t].
Proof.
  intros Ht. revert cur; induction s as [|c s IH]; intros cur; simpl.
  - now apply split_from_no_space.
  - destruct (c =? SPACE)%N.
    + rewrite IH. pose proof (split_from_nonempty [] s) as Hne.
      destruct (split_from [] s) as [|w ws]; [contradiction|]. reflexivity.
    + apply IH.
Qed.

End JsStringFacts.


(** ** The sentence pattern *)

Module ScanFacts.
Import Chunker Shapes JsStringFacts.

Lemma terminator_not_white c : isTerminator c = true -> isWhiteSpace c = false.
Proof.
  unfold isTerminator. intros H.
  apply orb_prop in H. destruct H as [H|H]; [apply orb_prop in H; destruct H as [H|H]|];
    apply N.eqb_eq in H; subst; reflexivity.
Qed.

Lemma terminator_not_space c : isTerminator c = true -> c <> SPACE.
Proof. intros H ->. discriminate. Qed.

Lemma scan_Terms_nonempty b t s : scan (Terms b t) s <> [].
Proof.
  revert b t; induction s as [|c s IH]; intros b t; simpl; [discriminate|].
  destruct (isTerminator c); [apply IH | discriminate].
Qed.

Lemma scan_Body_nil b s : scan (Body b) s = [] -> noTerminator s.
Proof.
  revert b; induction s as [|c s IH]; intros b H; [constructor|].
  simpl in H. destruct (isTerminator c) eqn:E.
  - now apply scan_Terms_nonempty in H.
  - constructor; [exact E | eapply IH, H].
Qed.

Lemma scan_Body_noTerminator b s : noTerminator s -> scan (Body b) s = [].
Proof.
  intros H. revert b. induction H as [|c s Hc Hs IH]; intros b; simpl; [reflexivity|].
  now rewrite Hc.
Qed.

Lemma matchAll_noTerminator s : noTerminator s -> matchAll s = [].
Proof.
  intros H. unfold matchAll. destruct H as [|c s Hc Hs]; simpl; [reflexivity|].
  rewrite Hc. now apply scan_Body_noTerminator.
Qed.

(** A text without a match is a run of terminators followed by a run of
    non-terminators. *)
Lemma matchAll_nil_shape text :
  matchAll text = [] ->
  exists ts nb, text = ts ++ nb /\ allTerminators ts /\ noTerminator nb.
Proof.
  unfold matchAll. induction text as [|c s IH]; simpl; intros H.
  - exists [], []. repeat split; constructor.
  - destruct (isTerminator c) eqn:E.
    + destruct (IH H) as (ts & nb & -> & Hts & Hnb).
      exists (c :: ts), nb. repeat split; [constructor|]; assumption.
    + exists [], (c :: s). repeat split; [constructor|].
      constructor; [exact E | eapply scan_Body_nil, H].
Qed.

Lemma scan_Body_app b n s :
  noTerminator n -> scan (Body b) (n ++ s) = scan (Body (b ++ n)) s.
Proof.
  intros H. revert b. induction H as [|c n Hc Hn IH]; intros b; simpl.
  - now rewrite app_nil_r.
  - rewrite Hc, IH. now rewrite <- app_assoc.
Qed.

Lemma scan_Terms_allTerminators b t u :
  allTerminators u -> scan (Terms b t) u = [b ++ t ++ u].
Proof.
  intros H. revert t. induction H as [|c u Hc Hu IH]; intros t; simpl.
  - now rewrite app_nil_r.
  - rewrite Hc, IH. now rewrite <- app_assoc.
Qed.

Lemma endsWithTerminator_cons c s :
  endsWithTerminator (c :: s) ->
  (s = [] /\ isTerminator c = true) \/ endsWithTerminator s.
Proof.
  intros (s0 & t & Hs & Ht). destruct s0 as [|d s0]; simpl in Hs; inversion Hs; subst.
  - now left.
  - right. now exists s0, t.
Qed.

Lemma endsWithTerminator_app s u :
  endsWithTerminator u -> endsWithTerminator (s ++ u).
Proof.
  intros (u0 & t & -> & Ht). exists (s ++ u0), t. now rewrite app_assoc.
Qed.

(** When the text ends in a terminator the matches leave nothing out. *)
Lemma scan_concat s :
  (endsWithTerminator s -> forall b, concat (scan (Body b) s) = b ++ s) /\
  (s = [] \/ endsWithTerminator s ->
   forall b t, concat (scan (Terms b t) s) = b ++ t ++ s).
Proof.
  induction s as [|c s [IHb IHt]]; split.
  - intros (s0 & t & Hs & _). now destruct s0.
  - intros _ b t. simpl. now rewrite !app_nil_r.
  - intros He b. apply endsWithTerminator_cons in He. simpl.
    destruct (isTerminator c) eqn:E.
    + rewrite IHt; [reflexivity|]. destruct He as [[-> _]|He]; auto.
    + destruct He as [[_ Hc]|He]; [congruence|].
      rewrite IHb by assumption. now rewrite <- app_assoc.
  - intros He b t. destruct He as [He|He]; [discriminate|].
    apply endsWithTerminator_cons in He. simpl.
    destruct (isTerminator c) eqn:E.
    + rewrite IHt; [now rewrite <- app_assoc|]. destruct He as [[-> _]|He]; auto.
    + destruct He as [[_ Hc]|He]; [congruence|].
      simpl. rewrite IHb by assumption. now rewrite <- !app_assoc.
Qed.

(** Every match of the pattern is a sentence. *)
Lemma scan_isSentence st text s :
  match st with
  | Seek => True
  | Body b => b <> [] /\ noTerminator b
  | Terms b t => b <> [] /\ noTerminator b /\ t <> [] /\ allTerminators t
  end ->
  In s (scan st text) -> isSentence s.
Proof.
  revert st; induction text as [|c text IH]; intros st Hst Hin.
  - destruct st as [|b|b t]; simpl in Hin; try contradiction.
    destruct Hin as [<-|[]]. destruct Hst as (? & ? & ? & ?). now exists b, t.
  - simpl in Hin. destruct st as [|b|b t]; destruct (isTerminator c) eqn:E.
    + eapply IH; [|exact Hin]. exact I.
    + eapply IH; [|exact Hin]. split; [discriminate | repeat constructor; exact E].
    + destruct Hst as [Hb Hnb].
      eapply IH; [|exact Hin]. repeat split; try assumption; [discriminate|].
      repeat constructor; exact E.
    + destruct Hst as [Hb Hnb].
      eapply IH; [|exact Hin]. split.
      * intros H. now apply app_eq_nil in H as [_ H].
      * apply Forall_app. split; [assumption | repeat constructor; exact E].
    + destruct Hst as (Hb & Hnb & Ht & Hat).
      eapply IH; [|exact Hin]. repeat split; try assumption.
      * intros H. now apply app_eq_nil in H as [_ H].
      * apply Forall_app. split; [assumption | repeat constructor; exact E].
    + destruct Hst as (Hb & Hnb & Ht & Hat).
      destruct Hin as [<-|Hin]; [now exists b, t|].
      eapply IH; [|exact Hin]. split; [discriminate | repeat constructor; exact E].
Qed.

Lemma matchAll_isSentence text s : In s (matchAll text) -> isSentence s.
Proof. apply (scan_isSentence Seek). exact I. Qed.

(** A sentence or the whole text: what [sentencesOf] is made of. *)
Lemma sentencesOf_cases text :
  (matchAll text = [] /\ sentencesOf text = [text]) \/
  (matchAll text <> [] /\ sentencesOf text = matchAll text).
Proof.
  unfold sentencesOf. destruct (matchAll text); [left|right]; split; auto; discriminate.
Qed.

Lemma isSentence_ends s : isSentence s -> endsWithTerminator s.
Proof.
  intros (body & terms & -> & _ & Ht & _ & Hat).
  destruct (exists_last Ht) as (t0 & t & ->).
  exists (body ++ t0), t. split; [now rewrite app_assoc|].
  apply Forall_app in Hat. destruct Hat as [_ Hat]. now inversion Hat.
Qed.

End ScanFacts.


(** ** The size of chunks *)

Module ChunkerLimit.
Import Chunker Shapes JsStringFacts ScanFacts.

Lemma fold_left_invariant {A B : Type} (P : A -> Prop) (f : A -> B -> A)
    (l : list B) (a : A) :
  P a -> (forall a b, In b l -> P a -> P (f a b)) -> P (fold_left f l a).
Proof.
  revert a; induction l as [|b l IH]; intros a Ha Hstep; simpl; [exact Ha|].
  apply IH.
  - apply Hstep; [now left | exact Ha].
  - intros a' b' Hb'. apply Hstep. now right.
Qed.

Lemma pushIfTruthy_Forall (P : jsstring -> Prop) chunks s :
  Forall P chunks -> (s <> [] -> P (trim s)) -> Forall P (pushIfTruthy chunks s).
Proof.
  intros Hc Hs. unfold pushIfTruthy. destruct s as [|c s]; simpl; [exact Hc|].
  apply Forall_app. split; [exact Hc|]. constructor; [|constructor].
  apply Hs. discriminate.
Qed.

Lemma len_app a b : len (a ++ b) = (len a + len b)%Z.
Proof. unfold len. rewrite length_app. lia. Qed.

Lemma len_cons c a : len (c :: a) = (1 + len a)%Z.
Proof. unfold len. simpl length. lia. Qed.

Lemma len_nil : len [] = 0%Z.
Proof. reflexivity. Qed.

Lemma len_nonneg a : (0 <= len a)%Z.
Proof. unfold len. lia. Qed.

Lemma truthy_nonempty s : truthy s = true <-> s <> [].
Proof. destruct s; simpl; split; congruence. Qed.

(** The branches of the two loop bodies. *)
Lemma wordStep_fits maxChars chunks tempChunk word :
  (len (tempChunk ++ [SPACE] ++ word) <= maxChars)%Z ->
  wordStep maxChars (chunks, tempChunk) word
  = (chunks, if truthy tempChunk then tempChunk ++ [SPACE] ++ word else word).
Proof. intros H. unfold wordStep. apply Z.leb_le in H. now rewrite H. Qed.

Lemma wordStep_overflows maxChars chunks tempChunk word :
  (maxChars < len (tempChunk ++ [SPACE] ++ word))%Z ->
  wordStep maxChars (chunks, tempChunk) word
  = (pushIfTruthy chunks tempChunk, word).
Proof. intros H. unfold wordStep. apply Z.leb_gt in H. now rewrite H. Qed.

Lemma sentenceStep_fits maxChars chunks currentChunk sentence :
  (len (currentChunk ++ sentence) <= maxChars)%Z ->
  sentenceStep maxChars (chunks, currentChunk) sentence
  = (chunks, currentChunk ++ sentence).
Proof. intros H. unfold sentenceStep. apply Z.leb_le in H. now rewrite H. Qed.

Lemma sentenceStep_starts_anew maxChars chunks currentChunk sentence :
  (maxChars < len (currentChunk ++ sentence))%Z ->
  (len sentence <= maxChars)%Z ->
  sentenceStep maxChars (chunks, currentChunk) sentence
  = (pushIfTruthy chunks currentChunk, sentence).
Proof.
  intros H1 H2. unfold sentenceStep. apply Z.leb_gt in H1. rewrite H1.
  destruct (Z.gtb_spec (len sentence) maxChars); [lia | reflexivity].
Qed.

Lemma sentenceStep_splits maxChars chunks currentChunk sentence :
  (maxChars < len (currentChunk ++ sentence))%Z ->
  (maxChars < len sentence)%Z ->
  sentenceStep maxChars (chunks, currentChunk) sentence
  = let st := fold_left (wordStep maxChars) (split_space sentence)
                (pushIfTruthy chunks currentChunk, []) in
    (fst st, if truthy (snd st) then snd st else currentChunk).
Proof.
  intros H1 H2. unfold sentenceStep. apply Z.leb_gt in H1. rewrite H1.
  destruct (Z.gtb_spec (len sentence) maxChars); [|lia].
  now destruct (fold_left _ _ _).
Qed.

Lemma chunkText_unfold text maxChars :
  chunkText text maxChars
  = let st := fold_left (sentenceStep maxChars) (sentencesOf text) ([], []) in
    pushIfTruthy (fst st) (snd st).
Proof. unfold chunkText. now destruct (fold_left _ _ _). Qed.


Section Limit.

Variable text : jsstring.
Variable maxChars : Z.







End Limit.




End ChunkerLimit.


(** ** Chunking a chunk again *)

Module ChunkerRechunk.
Import Chunker Shapes JsStringFacts ScanFacts ChunkerLimit.

(** *** A chunk of the right shape comes back unchanged *)

Lemma noTerminator_starts x : noTerminator x -> startsWithTerminator x = false.
Proof. intros H. destruct H; simpl; auto. Qed.

Lemma sentencesOf_noTerminator c : noTerminator c -> sentencesOf c = [c].
Proof. intros H. unfold sentencesOf. now rewrite matchAll_noTerminator. Qed.

Lemma sentencesOf_concat c :
  c <> [] -> startsWithTerminator c = false -> closed c ->
  concat (sentencesOf c) = c.
Proof.
  intros Hne Hstart [Hno|Hends].
  - rewrite sentencesOf_noTerminator by assumption. simpl. apply app_nil_r.
  - destruct c as [|x c]; [contradiction|]. simpl in Hstart.
    assert (Hc : endsWithTerminator c).
    { apply endsWithTerminator_cons in Hends. destruct Hends as [[_ H]|H]; [congruence|exact H]. }
    assert (Hm : concat (matchAll (x :: c)) = x :: c).
    { unfold matchAll. simpl. rewrite Hstart.
      now rewrite (proj1 (scan_concat c) Hc). }
    unfold sentencesOf. destruct (matchAll (x :: c)); [discriminate|exact Hm].
Qed.

Lemma sentencesOf_piece c :
  c <> [] -> startsWithTerminator c = false -> isPiece c -> sentencesOf c = [c].
Proof.
  intros Hne Hstart (nb & ts & -> & Hnb & Hts).
  destruct ts as [|t ts].
  - rewrite app_nil_r in *. now apply sentencesOf_noTerminator.
  - destruct nb as [|x nb].
    + simpl in Hstart. inversion Hts; subst. congruence.
    + unfold sentencesOf, matchAll. simpl. simpl in Hstart. rewrite Hstart.
      inversion Hnb; subst. inversion Hts; subst.
      rewrite scan_Body_app by assumption. simpl.
      match goal with H : isTerminator t = true |- _ => rewrite H end.
      now rewrite scan_Terms_allTerminators by assumption.
Qed.

(** Sentences that fit together are gathered into one running chunk. *)
Lemma fold_sentences_fit maxChars ps chunks cur :
  (len (cur ++ concat ps) <= maxChars)%Z ->
  fold_left (sentenceStep maxChars) ps (chunks, cur) = (chunks, cur ++ concat ps).
Proof.
  revert cur; induction ps as [|p ps IH]; intros cur H; cbn [fold_left concat] in *.
  - now rewrite app_nil_r.
  - rewrite sentenceStep_fits.
    + rewrite IH; rewrite <- app_assoc; [reflexivity | exact H].
    + rewrite app_assoc, len_app in H. pose proof (len_nonneg (concat ps)). lia.
Qed.

Lemma pushIfTruthy_single c : c <> [] -> pushIfTruthy [] c = [trim c].
Proof. destruct c; [contradiction|reflexivity]. Qed.

Lemma pushIfTruthy_nil chunks : pushIfTruthy chunks [] = chunks.
Proof. reflexivity. Qed.

Lemma rechunkable_returns maxChars c :
  c <> [] -> startsWithTerminator c = false -> rechunkable maxChars c ->
  chunkText c maxChars = [c].
Proof.
  intros Hne Hstart (Htrim & Hclosed & Hsize).
  rewrite chunkText_unfold.
  destruct (Z.le_gt_cases (len c) maxChars) as [Hfit|Hlong].
  - rewrite fold_sentences_fit; cbn [app fst snd];
      rewrite (sentencesOf_concat c Hne Hstart Hclosed).
    + now rewrite pushIfTruthy_single, Htrim.
    + exact Hfit.
  - destruct Hsize as [Hfit|[Hsp Hpiece]]; [lia|].
    rewrite (sentencesOf_piece c Hne Hstart Hpiece). cbn [fold_left].
    rewrite sentenceStep_splits by (cbn [app]; assumption).
    unfold split_space. rewrite (split_from_no_space [] c Hsp).
    cbn [fold_left app]. rewrite pushIfTruthy_nil.
    rewrite wordStep_overflows.
    + cbn [fst snd]. rewrite pushIfTruthy_nil.
      apply truthy_nonempty in Hne. rewrite Hne.
      apply truthy_nonempty in Hne.
      now rewrite pushIfTruthy_single, Htrim.
    + cbn [app]. rewrite len_cons. lia.
Qed.

(** *** Trimming keeps the shape *)

Lemma startsWithTerminator_trim x :
  startsWithTerminator x = true -> startsWithTerminator (trim x) = true.
Proof.
  destruct x as [|c x]; [discriminate|]. simpl. intros Hc.
  pose proof (terminator_not_white c Hc) as Hw.
  unfold trim, trimStart. simpl. rewrite Hw.
  destruct (trimEnd_keeps_head c x Hw) as [r ->]. exact Hc.
Qed.

Lemma Forall_trim (P : code_unit -> Prop) x : Forall P x -> Forall P (trim x).
Proof.
  rewrite !Forall_forall. intros H c Hc. apply H. now apply trim_In.
Qed.

Lemma dropWhile_keeps_last p s t :
  p t = false -> exists s1, dropWhile p (s ++ [t]) = s1 ++ [t].
Proof.
  intros Ht. induction s as [|c s IH]; simpl.
  - rewrite Ht. now exists [].
  - destruct (p c); [exact IH|]. now exists (c :: s).
Qed.

Lemma endsWithTerminator_trim x :
  endsWithTerminator x -> endsWithTerminator (trim x).
Proof.
  intros (s0 & t & -> & Ht).
  pose proof (terminator_not_white t Ht) as Hw.
  rewrite (trim_keeps_end _ _ Hw). unfold trimStart.
  destruct (dropWhile_keeps_last isWhiteSpace s0 t Hw) as [s1 ->].
  now exists s1, t.
Qed.

Lemma closed_trim x : closed x -> closed (trim x).
Proof.
  intros [H|H]; [left; now apply Forall_trim | right; now apply endsWithTerminator_trim].
Qed.

Lemma isPiece_trim x : isPiece x -> isPiece (trim x).
Proof.
  intros (nb & ts & -> & Hnb & Hts).
  destruct ts as [|t ts] using rev_ind.
  - rewrite app_nil_r. exists (trim nb), []. rewrite app_nil_r.
    repeat split; [now apply Forall_trim | constructor].
  - clear IHts. apply Forall_app in Hts as Hts'. destruct Hts' as [_ Ht].
    inversion Ht as [|? ? Ht' _]; subst.
    pose proof (terminator_not_white t Ht') as Hw.
    rewrite app_assoc, (trim_keeps_end _ _ Hw), <- app_assoc. unfold trimStart.
    destruct (dropWhile isWhiteSpace nb) as [|c r] eqn:E.
    + rewrite (dropWhile_app_through _ _ _ E).
      exists [], (ts ++ [t]). repeat split; [|constructor|assumption].
      simpl. apply dropWhile_fixed.
      destruct (ts ++ [t]) as [|d l] eqn:E2; [exact I|].
      apply terminator_not_white. rewrite <- E2 in Hts.
      rewrite E2 in Hts. now inversion Hts.
    + rewrite (dropWhile_app_stop _ _ _ _ _ E).
      exists (c :: r), (ts ++ [t]). repeat split; [|assumption].
      rewrite <- E. apply Forall_forall. intros d Hd.
      apply dropWhile_In in Hd. revert d Hd. now apply Forall_forall.
Qed.

(** A running chunk of the right shape is pushed as a chunk of the
    right shape. *)
Lemma running_to_chunk maxChars x :
  runningShape maxChars x -> chunkShape maxChars (trim x).
Proof.
  intros [Hstart|(Hclosed & Hsize)] Hne Hst.
  - rewrite (startsWithTerminator_trim x Hstart) in Hst. discriminate.
  - split; [apply trim_idempotent|]. split; [now apply closed_trim|].
    destruct Hsize as [Hfit|[Hsp Hpiece]].
    + left. pose proof (trim_len x). lia.
    + right. split; [now apply Forall_trim | now apply isPiece_trim].
Qed.

Lemma push_shape maxChars chunks x :
  Forall (chunkShape maxChars) chunks -> runningShape maxChars x ->
  Forall (chunkShape maxChars) (pushIfTruthy chunks x).
Proof.
  intros Hc Hx. apply pushIfTruthy_Forall; [exact Hc|].
  intros _. now apply running_to_chunk.
Qed.

Lemma wordShape_running maxChars x : wordShape maxChars x -> runningShape maxChars x.
Proof.
  intros [H|(Hno & Hsize)]; [now left|right].
  split; [now left|]. destruct Hsize as [H|H]; [now left|right].
  split; [exact H|]. exists x, []. rewrite app_nil_r. repeat split; [exact Hno|constructor].
Qed.

(** *** The loops keep the shape *)

Lemma runningShape_nil maxChars : runningShape maxChars [].
Proof.
  right. split; [left; constructor|]. right. split; [constructor|].
  exists [], []. repeat split; constructor.
Qed.

Lemma wordShape_nil maxChars : wordShape maxChars [].
Proof. right. split; [constructor | right; constructor]. Qed.

Lemma startsWithTerminator_app x y :
  startsWithTerminator x = true -> startsWithTerminator (x ++ y) = true.
Proof. destruct x; [discriminate | auto]. Qed.

Lemma space_not_terminator : isTerminator SPACE = false.
Proof. reflexivity. Qed.

(** A word without a terminator, while no terminator has been read. *)
Lemma wordStep_plain maxChars st w :
  noTerminator w -> noSpace w ->
  wordStateShape maxChars st -> wordStateShape maxChars (wordStep maxChars st w).
Proof.
  destruct st as [chunks tempChunk]. intros Hw Hsp [Hc Ht]. cbn [fst snd] in Hc, Ht.
  destruct (Z.le_gt_cases (len (tempChunk ++ [SPACE] ++ w)) maxChars) as [Hfit|Hover].
  - rewrite (wordStep_fits _ _ _ _ Hfit). split; cbn [fst snd]; [exact Hc|].
    destruct tempChunk as [|c t]; cbn [truthy].
    + right. split; [exact Hw | now right].
    + destruct Ht as [Hst|[Hno _]].
      * left. now apply startsWithTerminator_app.
      * right. split; [|now left].
        apply Forall_app. split; [exact Hno|].
        constructor; [apply space_not_terminator | exact Hw].
  - rewrite (wordStep_overflows _ _ _ _ Hover). split; cbn [fst snd].
    + apply push_shape; [exact Hc | now apply wordShape_running].
    + right. split; [exact Hw | now right].
Qed.

(** The last word of a sentence, which ends in its terminators. *)
Lemma wordStep_last maxChars st w :
  isPiece w -> endsWithTerminator w -> noSpace w ->
  wordStateShape maxChars st -> stateShape maxChars (wordStep maxChars st w).
Proof.
  destruct st as [chunks tempChunk]. intros Hp He Hsp [Hc Ht]. cbn [fst snd] in Hc, Ht.
  destruct (Z.le_gt_cases (len (tempChunk ++ [SPACE] ++ w)) maxChars) as [Hfit|Hover].
  - rewrite (wordStep_fits _ _ _ _ Hfit). split; cbn [fst snd]; [exact Hc|].
    destruct tempChunk as [|c t]; cbn [truthy].
    + right. split; [now right|]. left.
      rewrite !len_app in Hfit. pose proof (len_nonneg [SPACE]). rewrite len_nil in Hfit. lia.
    + right. split; [|now left]. right.
      rewrite app_assoc. now apply endsWithTerminator_app.
  - rewrite (wordStep_overflows _ _ _ _ Hover). split; cbn [fst snd].
    + apply push_shape; [exact Hc | now apply wordShape_running].
    + right. split; [now right | right; now split].
Qed.

Lemma In_removelast {A} (x : A) l : In x (removelast l) -> In x l.
Proof.
  induction l as [|y l IH]; simpl; [tauto|].
  destruct l as [|z l]; [tauto|]. simpl. intros [H|H]; [now left | right; now apply IH].
Qed.

Lemma In_last {A} (l : list A) d : l <> [] -> In (last l d) l.
Proof.
  induction l as [|y l IH]; [contradiction|]. intros _.
  destruct l as [|z l]; [now left|]. right. apply IH. discriminate.
Qed.

Lemma allTerminators_noSpace ts : allTerminators ts -> noSpace ts.
Proof.
  intros H. eapply Forall_impl; [|exact H]. intros c Hc. now apply terminator_not_space.
Qed.

(** The pieces of a text without terminators hold none. *)
Lemma words_plain cur s w :
  noTerminator cur -> noTerminator s -> In w (split_from cur s) ->
  noTerminator w.
Proof.
  intros Hcur Hs Hw. apply Forall_forall. intros c Hc.
  unfold noTerminator in Hcur, Hs. rewrite Forall_forall in Hcur, Hs.
  destruct (split_from_In cur s w c Hw Hc) as [H|[H _]]; auto.
Qed.

Lemma words_noSpace cur s w :
  noSpace cur -> In w (split_from cur s) -> noSpace w.
Proof.
  intros Hcur Hw. apply Forall_forall. intros c Hc.
  unfold noSpace in Hcur. rewrite Forall_forall in Hcur.
  destruct (split_from_In cur s w c Hw Hc) as [H|[_ H]]; auto.
Qed.

(** The words of a sentence: words without terminators, then one that
    ends in the terminators of the sentence. *)
Lemma words_of_sentence s :
  isSentence s ->
  exists ws wl,
    split_space s = ws ++ [wl] /\
    Forall (fun w => noTerminator w /\ noSpace w) ws /\
    isPiece wl /\ endsWithTerminator wl /\ noSpace wl.
Proof.
  intros (body & terms & -> & Hb & Ht & Hnb & Hat).
  pose proof (allTerminators_noSpace terms Hat) as Hsp.
  unfold split_space. rewrite (split_from_app_no_space [] body terms Hsp).
  pose proof (split_from_nonempty [] body) as Hne.
  set (X := split_from [] body) in *.
  exists (removelast X), (last X [] ++ terms).
  assert (HX : forall w, In w X -> noTerminator w /\ noSpace w).
  { intros w Hw. split.
    - eapply words_plain; [constructor | exact Hnb | exact Hw].
    - eapply words_noSpace; [constructor | exact Hw]. }
  destruct (HX _ (In_last X [] Hne)) as [Hl1 Hl2].
  repeat split.
  - apply Forall_forall. intros w Hw. apply HX. now apply In_removelast.
  - now exists (last X []), terms.
  - apply endsWithTerminator_app.
    destruct (exists_last Ht) as (t0 & t & ->). exists t0, t. split; [reflexivity|].
    apply Forall_app in Hat. destruct Hat as [_ Hat]. now inversion Hat.
  - apply Forall_app. now split.
Qed.

Lemma fold_words_plain maxChars ws st :
  Forall (fun w => noTerminator w /\ noSpace w) ws ->
  wordStateShape maxChars st ->
  wordStateShape maxChars (fold_left (wordStep maxChars) ws st).
Proof.
  intros Hws. revert st. induction Hws as [|w ws [Hw1 Hw2] _ IH]; intros st Hst;
    cbn [fold_left]; [exact Hst|].
  apply IH. now apply wordStep_plain.
Qed.

Lemma fold_words_sentence maxChars chunks s :
  isSentence s -> Forall (chunkShape maxChars) chunks ->
  stateShape maxChars (fold_left (wordStep maxChars) (split_space s) (chunks, [])).
Proof.
  intros Hs Hc. destruct (words_of_sentence s Hs) as (ws & wl & -> & Hws & Hp & He & Hsp).
  rewrite fold_left_app. cbn [fold_left].
  apply wordStep_last; try assumption.
  apply fold_words_plain; [exact Hws|]. split; [exact Hc | apply wordShape_nil].
Qed.

Lemma sentenceStep_shape maxChars st s :
  isSentence s -> stateShape maxChars st ->
  stateShape maxChars (sentenceStep maxChars st s).
Proof.
  destruct st as [chunks currentChunk]. intros Hs [Hc Hr]. cbn [fst snd] in Hc, Hr.
  pose proof (isSentence_ends s Hs) as He.
  destruct (Z.le_gt_cases (len (currentChunk ++ s)) maxChars) as [Hfit|Hover].
  - rewrite (sentenceStep_fits _ _ _ _ Hfit). split; cbn [fst snd]; [exact Hc|].
    right. split; [right; now apply endsWithTerminator_app | now left].
  - destruct (Z.le_gt_cases (len s) maxChars) as [Hshort|Hlong].
    + rewrite (sentenceStep_starts_anew _ _ _ _ Hover Hshort). split; cbn [fst snd].
      * now apply push_shape.
      * right. split; [now right | now left].
    + rewrite (sentenceStep_splits _ _ _ _ Hover Hlong).
      destruct (fold_words_sentence maxChars (pushIfTruthy chunks currentChunk) s Hs)
        as [Hc' Ht']; [now apply push_shape|].
      split; cbn [fst snd]; [exact Hc'|].
      destruct (truthy _); assumption.
Qed.

(** *** A text without a match *)

Lemma split_from_prefix cur t s :
  noSpace t -> split_from cur (t ++ s) = split_from (cur ++ t) s.
Proof.
  intros Ht. revert cur. induction Ht as [|c t Hc Ht IH]; intros cur; simpl.
  - now rewrite app_nil_r.
  - destruct (N.eqb_spec c SPACE) as [E|E]; [contradiction|].
    rewrite IH. now rewrite <- app_assoc.
Qed.

Lemma fold_words_unmatched maxChars text :
  matchAll text = [] ->
  wordStateShape maxChars
    (fold_left (wordStep maxChars) (split_space text) ([], [])).
Proof.
  intros Hm. destruct (matchAll_nil_shape text Hm) as (ts & nb & -> & Hts & Hnb).
  assert (Hrest : forall cur w, In w (tl (split_from cur nb)) ->
                                noTerminator w /\ noSpace w).
  { intros cur w Hw. rewrite split_from_accumulator in Hw. cbn [tl] in Hw.
    assert (Hin : In w (split_from [] nb)).
    { destruct (split_from [] nb); [contradiction | now right]. }
    split; [eapply words_plain | eapply words_noSpace]; try exact Hin;
      try constructor; assumption. }
  destruct ts as [|t ts].
  - apply fold_words_plain.
    + apply Forall_forall. intros w Hw. cbn [app] in Hw. unfold split_space in Hw. split.
      * eapply words_plain; [constructor | exact Hnb | exact Hw].
      * eapply words_noSpace; [constructor | exact Hw].
    + split; [constructor | apply wordShape_nil].
  - unfold split_space.
    rewrite (split_from_prefix [] (t :: ts) nb (allTerminators_noSpace _ Hts)).
    cbn [app].
    pose proof (split_from_accumulator (t :: ts) nb) as Hacc.
    pose proof (Hrest (t :: ts)) as Hr. rewrite Hacc in Hr |- *. cbn [tl] in Hr.
    cbn [fold_left].
    assert (Hfirst : wordStep maxChars ([], [])
                       ((t :: ts) ++ hd [] (split_from [] nb))
                     = ([], (t :: ts) ++ hd [] (split_from [] nb))).
    { unfold wordStep. now destruct (_ <=? _)%Z. }
    rewrite Hfirst. apply fold_words_plain.
    + apply Forall_forall. exact Hr.
    + split; [constructor|]. left. cbn. now inversion Hts.
Qed.

Lemma unmatched_running maxChars text :
  matchAll text = [] -> (len text <= maxChars)%Z -> runningShape maxChars text.
Proof.
  intros Hm Hfit. destruct (matchAll_nil_shape text Hm) as (ts & nb & -> & Hts & Hnb).
  destruct ts as [|t ts].
  - right. split; [now left | now left].
  - left. cbn. now inversion Hts.
Qed.

Lemma unmatched_state maxChars text :
  matchAll text = [] ->
  stateShape maxChars (sentenceStep maxChars ([], []) text).
Proof.
  intros Hm.
  destruct (Z.le_gt_cases (len ([] ++ text)) maxChars) as [Hfit|Hover].
  - rewrite (sentenceStep_fits _ _ _ _ Hfit). split; [constructor|].
    now apply unmatched_running.
  - destruct (Z.le_gt_cases (len text) maxChars) as [Hshort|Hlong].
    + rewrite (sentenceStep_starts_anew _ _ _ _ Hover Hshort). split; [constructor|].
      now apply unmatched_running.
    + rewrite (sentenceStep_splits _ _ _ _ Hover Hlong). rewrite pushIfTruthy_nil.
      destruct (fold_words_unmatched maxChars text Hm) as [Hc Ht].
      split; cbn [fst snd]; [exact Hc|].
      destruct (truthy _); [now apply wordShape_running | apply runningShape_nil].
Qed.

(** Every chunk has the shape that makes it come back unchanged, but
    for the empty chunk and the chunks that begin with a terminator. *)
Lemma chunkText_shape text maxChars :
  Forall (chunkShape maxChars) (chunkText text maxChars).
Proof.
  rewrite chunkText_unfold.
  assert (H : stateShape maxChars
                (fold_left (sentenceStep maxChars) (sentencesOf text) ([], []))).
  { destruct (sentencesOf_cases text) as [[Hm ->]|[Hm ->]].
    - cbn [fold_left]. now apply unmatched_state.
    - apply fold_left_invariant.
      + split; [constructor | apply runningShape_nil].
      + intros st s Hs. apply sentenceStep_shape. now apply (matchAll_isSentence text). }
  destruct H as [Hc Hr]. now apply push_shape.
Qed.

(** C9, as the claim states it, on the text [" . Hi."]: its only chunk
    is [". Hi."], and chunking that chunk gives ["Hi."]. *)
Lemma rechunking_changes_chunk_counterexample :
  ~ (forall text maxChars c,
        In c (chunkText text maxChars) -> chunkText c maxChars = [c]).
Proof.
  intros H.
  specialize (H (lit " . Hi.") 600%Z (lit ". Hi.")).
  assert (Hin : In (lit ". Hi.") (chunkText (lit " . Hi.") 600)).
  { vm_compute. now left. }
  specialize (H Hin). vm_compute in H. discriminate.
Qed.

(** The empty chunk: a text of white space has the empty chunk, and
    the empty text has none. *)
Lemma empty_chunk_is_not_returned :
  chunkText (lit " ") 600 = [[]] /\ chunkText [] 600 = [].
Proof. split; reflexivity. Qed.

(** C9, amended. Chunking again, with the same limit, a chunk that is
    not empty and does not begin with [.], [!] or [?] returns that
    chunk alone and unchanged. *)
Theorem rechunking_returns_chunk text maxChars c :
  In c (chunkText text maxChars) ->
  c <> [] ->
  startsWithTerminator c = false ->
  chunkText c maxChars = [c].
Proof.
  intros Hin Hne Hstart.
  pose proof (chunkText_shape text maxChars) as Hall.
  rewrite Forall_forall in Hall.
  apply rechunkable_returns; try assumption.
  now apply (Hall c Hin).
Qed.

Lemma rechunking_returns_chunk_witness :
  chunkText (lit "abcdefghij.") 5 = [lit "abcdefghij."].
Proof.
  apply (rechunking_returns_chunk (lit "ab cd. abcdefghij. x.") 5).
  - vm_compute. right. right. left. reflexivity.
  - discriminate.
  - reflexivity.
Defined.

End ChunkerRechunk.


(** ** Sentences and greedy packing *)

Module ChunkerGreedy.
Import Chunker Shapes JsStringFacts ScanFacts ChunkerLimit.

Lemma scan_Terms_app b t u s :
  allTerminators u -> scan (Terms b t) (u ++ s) = scan (Terms b (t ++ u)) s.
Proof.
  intros H. revert t. induction H as [|c u Hc Hu IH]; intros t; simpl.
  - now rewrite app_nil_r.
  - rewrite Hc, IH. now rewrite <- app_assoc.
Qed.

Lemma scan_Terms_then b t rest :
  startsWithTerminator rest = false ->
  scan (Terms b t) rest = (b ++ t) :: scan Seek rest.
Proof. destruct rest as [|y r]; simpl; [reflexivity|]. now intros ->. Qed.

Lemma isSentence_starts p : isSentence p -> startsWithTerminator p = false.
Proof.
  intros (body & terms & -> & Hb & _ & Hnb & _).
  destruct body as [|x body]; [contradiction|]. simpl. now inversion Hnb.
Qed.

Lemma concat_sentences_starts ps :
  Forall isSentence ps -> startsWithTerminator (concat ps) = false.
Proof.
  intros H. destruct H as [|p ps Hp _]; [reflexivity|]. simpl.
  pose proof (isSentence_starts p Hp) as Hs.
  destruct Hp as (body & terms & -> & Hb & _).
  destruct body; [contradiction | exact Hs].
Qed.

(** The matches of a sentence followed by a text that does not begin
    with a terminator. *)
Lemma matchAll_sentence_app p rest :
  isSentence p -> startsWithTerminator rest = false ->
  matchAll (p ++ rest) = p :: matchAll rest.
Proof.
  intros (body & terms & -> & Hb & Ht & Hnb & Hat) Hrest.
  destruct body as [|x body]; [contradiction|].
  destruct terms as [|t terms]; [contradiction|].
  inversion Hnb as [|? ? Hx Hbody]; subst. inversion Hat as [|? ? Htt Hterms]; subst.
  unfold matchAll. rewrite <- app_assoc. simpl. rewrite Hx.
  rewrite scan_Body_app by assumption. simpl. rewrite Htt.
  rewrite scan_Terms_app by assumption.
  now rewrite scan_Terms_then by assumption.
Qed.

(** A text made of sentences is cut into these sentences. *)
Lemma matchAll_concat ps :
  Forall isSentence ps -> matchAll (concat ps) = ps.
Proof.
  intros H. induction H as [|p ps Hp Hps IH]; [reflexivity|]. simpl.
  rewrite matchAll_sentence_app; [now rewrite IH | exact Hp |].
  now apply concat_sentences_starts.
Qed.

Lemma pushIfTruthy_flush chunks x : pushIfTruthy chunks x = chunks ++ specFlush x.
Proof. unfold pushIfTruthy, specFlush. destruct (truthy x); [reflexivity|now rewrite app_nil_r]. Qed.

(** While no sentence is longer than the limit the loop is the greedy
    packing. *)
Lemma fold_sentences_greedy maxChars l chunks cur :
  (forall s, In s l -> (len s <= maxChars)%Z) ->
  (let st := fold_left (sentenceStep maxChars) l (chunks, cur) in
   pushIfTruthy (fst st) (snd st))
  = chunks ++ specGreedyPack maxChars cur l.
Proof.
  revert chunks cur. induction l as [|s l IH]; intros chunks cur Hl;
    cbn [fold_left specGreedyPack].
  - apply pushIfTruthy_flush.
  - assert (Hs : (len s <= maxChars)%Z) by (apply Hl; now left).
    assert (Hl' : forall s', In s' l -> (len s' <= maxChars)%Z)
      by (intros s' H'; apply Hl; now right).
    destruct (Z.leb_spec (len (cur ++ s)) maxChars) as [Hfit|Hover].
    + rewrite sentenceStep_fits by assumption. now apply IH.
    + rewrite sentenceStep_starts_anew by assumption.
      rewrite (IH _ _ Hl'), pushIfTruthy_flush. now rewrite <- app_assoc.
Qed.

Lemma chunkText_empty maxChars : chunkText [] maxChars = [].
Proof.
  rewrite chunkText_unfold. cbn [sentencesOf matchAll scan fold_left].
  destruct (Z.le_gt_cases (len ([] ++ [])) maxChars) as [Hfit|Hover].
  - now rewrite sentenceStep_fits.
  - assert (Hlong : (maxChars < len [])%Z) by exact Hover.
    rewrite sentenceStep_splits by assumption.
    cbn [split_space split_from fold_left]. rewrite wordStep_overflows.
    + reflexivity.
    + rewrite !len_app. rewrite len_nil in *. pose proof (len_nonneg [SPACE]). lia.
Qed.

(** A terminator splits whether white space follows or not. *)
Lemma terminator_splits_without_white_space :
  sentencesOf (lit "v1.2 is out.") = [lit "v1."; lit "2 is out."]
  /\ specSentences (lit "v1.2 is out.") = [lit "v1.2 is out."].
Proof. split; reflexivity. Qed.

(** C6. On the text ["Hi. Bye"] the chunker returns the chunk ["Hi."]
    alone: the text after the last terminator is matched by nothing
    and is in no chunk, where the specification keeps it as one final
    sentence.  A text without any terminator is kept: nothing matches,
    and [match(...) || [text]] gives the text as its one sentence. *)
Theorem trailing_text_is_dropped :
  sentencesOf (lit "Hi. Bye") = [lit "Hi."]
  /\ chunkText (lit "Hi. Bye") 600 = [lit "Hi."]
  /\ specChunk (lit "Hi. Bye") 600 = [lit "Hi. Bye"]
  /\ sentencesOf (lit "Bye") = [lit "Bye"]
  /\ chunkText (lit "Bye") 600 = [lit "Bye"].
Proof. vm_compute. repeat split. Qed.

(** The sentences are the successive matches of a longest run of
    characters other than [.], [!], [?] followed by a longest run of
    these: a text made of such sentences is cut into them, white space
    or not, and a text without terminator is one sentence.  While no
    sentence exceeds the limit, the chunks are the greedy packing of
    the sentences, each flushed chunk trimmed.  The empty text has no
    chunk. *)
Lemma sentences_are_packed_greedily text maxChars :
  (forall s, In s (sentencesOf text) -> (len s <= maxChars)%Z) ->
  (forall ps, ps <> [] -> Forall isSentence ps -> text = concat ps ->
              sentencesOf text = ps) /\
  (noTerminator text -> sentencesOf text = [text]) /\
  chunkText text maxChars = specGreedyPack maxChars [] (sentencesOf text) /\
  chunkText [] maxChars = [].
Proof.
  intros Hfit. repeat split.
  - intros ps Hne Hps ->. unfold sentencesOf. rewrite matchAll_concat by assumption.
    destruct ps; [contradiction|reflexivity].
  - intros Hno. unfold sentencesOf. now rewrite matchAll_noTerminator.
  - rewrite chunkText_unfold.
    exact (fold_sentences_greedy maxChars (sentencesOf text) [] [] Hfit).
  - apply chunkText_empty.
Qed.

Example sentences_are_packed_greedily_example :
  chunkText (lit "One. Two! Three?") 10
  = specGreedyPack 10 [] [lit "One."; lit " Two!"; lit " Three?"].
Proof.
  destruct (sentences_are_packed_greedily (lit "One. Two! Three?") 10) as (_ & _ & H & _).
  - intros s Hs. vm_compute in Hs.
    destruct Hs as [<-|[<-|[<-|[]]]]; vm_compute; discriminate.
  - exact H.
Qed.

End ChunkerGreedy.


(** ** Populating the store *)

Module PopulateFacts.
Import Num Embedder Retrieval KnowledgeManager Scores Samples Population.

Lemma buildRecords_zip embeddings validTexts i records failureCount :
  buildRecords embeddings i validTexts (records, failureCount)
  = (records ++ zipFrom embeddings i validTexts,
     failureCount + failuresFrom embeddings i validTexts).
Proof.
  revert i records failureCount.
  induction validTexts as [|t rest IH]; intros i records failureCount; simpl.
  - now rewrite app_nil_r, Nat.add_0_r.
  - unfold missingOrEmpty.
    destruct (nth_error embeddings i) as [[[|x e]|]|]; rewrite IH; simpl;
      rewrite <- ?app_assoc; f_equal; lia.
Qed.

Lemma failures_and_records embeddings validTexts i :
  failuresFrom embeddings i validTexts + length (zipFrom embeddings i validTexts)
  = length validTexts.
Proof.
  revert i. induction validTexts as [|t rest IH]; intros i; simpl; [reflexivity|].
  unfold missingOrEmpty. specialize (IH (S i)).
  destruct (nth_error embeddings i) as [[[|x e]|]|]; simpl; lia.
Qed.

(** The test on the failure rate compares twice the failures with the
    number of texts. *)
Lemma tooManyFailures_spec failureCount total :
  0 < total ->
  tooManyFailures failureCount total = (total <? 2 * failureCount).
Proof.
  intros Hpos. unfold tooManyFailures, failureRate, Qle_bool. cbn [Qnum Qden].
  assert (Ht : Z.pos (Pos.of_nat total) = Z.of_nat total).
  { destruct total; [lia|]. rewrite <- Pos.of_nat_succ. lia. }
  rewrite Ht.
  destruct (Nat.ltb_spec total (2 * failureCount));
    destruct (Z.leb_spec (Z.of_nat failureCount * 2) (1 * Z.of_nat total));
    simpl; try reflexivity; lia.
Qed.

(** The outcome of a load once the service has answered. *)
Lemma load_answered service store pages embeddings :
  initialize service = true ->
  validTextsOf pages <> [] ->
  embedBatch service (validTextsOf pages) = Some embeddings ->
  loadDocumentationWithEmbeddings service store pages
  = let failures := failuresFrom embeddings 0 (validTextsOf pages) in
    let records := zipFrom embeddings 0 (validTextsOf pages) in
    if (length (validTextsOf pages) <? 2 * failures)
    then (inl (EmbeddingFailureRateTooHigh failures (length (validTextsOf pages))),
          records)
    else (inr tt, records).
Proof.
  intros Hinit Hne Hbatch. unfold loadDocumentationWithEmbeddings.
  rewrite Hinit. cbn [negb]. fold (validTextsOf pages).
  destruct (validTextsOf pages) as [|t rest] eqn:E; [contradiction|].
  rewrite Hbatch, buildRecords_zip. cbn [app Nat.add].
  rewrite tooManyFailures_spec by (simpl; lia). reflexivity.
Qed.

(** The quotient of the two counts is taken exactly in
    [failureRate].  On the counts up to 128 the test agrees with the one
    made on the binary64 quotient. *)
Lemma tooManyFailures_as_binary64 :
  forallb (fun total =>
    forallb (fun failureCount =>
      Bool.eqb (tooManyFailures failureCount total)
               (lt oneHalf
                   (div (ofZ (Z.of_nat failureCount)) (ofZ (Z.of_nat total)))))
      (seq 0 (S total)))
    (seq 1 128) = true.
Proof. vm_compute. reflexivity. Qed.

(** C3. With [n >= 1] valid chunks and an answer of the embedding
    service: when the chunks without embedding are more than half, the
    load fails with the failure-rate error; otherwise it succeeds and
    the store holds the chunks that have an embedding, each with the
    embedding of its own index.  A load without any valid chunk fails. *)
Theorem load_fails_above_half_of_failures service store pages embeddings :
  initialize service = true ->
  validTextsOf pages <> [] ->
  embedBatch service (validTextsOf pages) = Some embeddings ->
  let n := length (validTextsOf pages) in
  let failures := failuresFrom embeddings 0 (validTextsOf pages) in
  let records := zipFrom embeddings 0 (validTextsOf pages) in
  (n < 2 * failures ->
   fst (loadDocumentationWithEmbeddings service store pages)
   = inl (EmbeddingFailureRateTooHigh failures n)) /\
  (2 * failures <= n ->
   loadDocumentationWithEmbeddings service store pages = (inr tt, records)
   /\ length records = n - failures) /\
  (forall pages',
     validTextsOf pages' = [] ->
     fst (loadDocumentationWithEmbeddings service store pages')
     = inl NoValidTextChunks).
Proof.
  intros Hinit Hne Hbatch n failures records.
  pose proof (load_answered service store pages embeddings Hinit Hne Hbatch) as H.
  cbv zeta in H. fold n failures records in H.
  split; [|split].
  - intros Hmany. rewrite H. apply Nat.ltb_lt in Hmany. now rewrite Hmany.
  - intros Hfew. split.
    + rewrite H. apply Nat.ltb_ge in Hfew. now rewrite Hfew.
    + pose proof (failures_and_records embeddings (validTextsOf pages) 0) as Hsum.
      fold n failures records in Hsum. lia.
  - intros pages' Hnone. unfold loadDocumentationWithEmbeddings.
    rewrite Hinit. cbn [negb]. fold (validTextsOf pages'). now rewrite Hnone.
Qed.

Lemma load_fails_above_half_of_failures_witness :
  fst (loadDocumentationWithEmbeddings (answering sixFailures) [] tenPages)
  = inl (EmbeddingFailureRateTooHigh 6 10)
  /\ fst (loadDocumentationWithEmbeddings (answering fourFailures) [] tenPages)
     = inr tt
  /\ length (snd (loadDocumentationWithEmbeddings (answering fourFailures) [] tenPages))
     = 6.
Proof.
  split.
  - apply (load_fails_above_half_of_failures (answering sixFailures) [] tenPages
             sixFailures); [reflexivity | discriminate | reflexivity |].
    vm_compute. lia.
  - destruct (load_fails_above_half_of_failures (answering fourFailures) [] tenPages
                fourFailures) as (_ & H & _);
      [reflexivity | discriminate | reflexivity |].
    destruct H as [H1 H2]; [vm_compute; lia|].
    rewrite H1. split; [reflexivity | exact H2].
Defined.

(** C5, on ten valid chunks of which six come back without embedding:
    the load throws the failure-rate error and the store is left with
    the four records that were embedded. *)
Theorem failed_load_keeps_embedded_records :
  let outcome := loadDocumentationWithEmbeddings (answering sixFailures) [] tenPages in
  fst outcome = inl (EmbeddingFailureRateTooHigh 6 10) /\
  map text (snd outcome)
  = [lit "Alpha page text."; lit "Echo page text.";
     lit "Golf page text."; lit "Juliett page text."] /\
  hasEmbeddings (snd outcome) = true.
Proof. vm_compute. repeat split. Qed.

(** The records left by any load that fails on the failure rate: those
    that were embedded. *)
Lemma failed_load_store service store pages embeddings :
  initialize service = true ->
  validTextsOf pages <> [] ->
  embedBatch service (validTextsOf pages) = Some embeddings ->
  length (validTextsOf pages) < 2 * failuresFrom embeddings 0 (validTextsOf pages) ->
  snd (loadDocumentationWithEmbeddings service store pages)
  = zipFrom embeddings 0 (validTextsOf pages).
Proof.
  intros Hinit Hne Hbatch Hmany.
  rewrite (load_answered service store pages embeddings Hinit Hne Hbatch).
  cbv zeta. apply Nat.ltb_lt in Hmany. now rewrite Hmany.
Qed.

(** A load that fails leaves the graph of the handler as it was: no
    query is ever answered from the records of a failed load. *)
Lemma failed_load_leaves_graph scrape service graphDestroy graphService h c docsUrl
    pages e :
  MessageHandler.scraped (scrape docsUrl) = Some pages ->
  fst (loadDocumentationWithEmbeddings service (MessageHandler.managerRecords h)
         pages) = inl e ->
  MessageHandler.graph
    (fst (fst (MessageHandler.handleLoadDocs scrape service graphDestroy
                 graphService h c docsUrl)))
  = MessageHandler.graph h.
Proof.
  intros Hpages Hfail. unfold MessageHandler.handleLoadDocs. rewrite Hpages.
  destruct pages as [|p ps]; [reflexivity|].
  destruct (loadDocumentationWithEmbeddings _ _ _) as [[e'|u] records];
    [reflexivity | discriminate].
Qed.

End PopulateFacts.


(** ** The crawler *)

Module ScraperFacts.
Import stdpp.base stdpp.list stdpp.gmap.
Import KnowledgeManager Scraper CrawlShapes.

Lemma markVisited_elem (visited : gset jsstring) (urls : list jsstring) (u : jsstring) :
  u ∈ markVisited visited urls ↔ u ∈ urls ∨ u ∈ visited.
Proof.
  revert visited. induction urls as [|v urls IH]; intros visited; simpl.
  - rewrite elem_of_nil. tauto.
  - rewrite IH, elem_of_cons, elem_of_union, elem_of_singleton. tauto.
Qed.

Lemma has_true (visited : gset jsstring) (u : jsstring) :
  has visited u = true ↔ u ∈ visited.
Proof. unfold has. apply bool_decide_eq_true. Qed.

Lemma has_false (visited : gset jsstring) (u : jsstring) :
  has visited u = false ↔ u ∉ visited.
Proof. unfold has. apply bool_decide_eq_false. Qed.

(** A link that is visited or queued is not queued again. *)
Lemma enqueue_skips (visited : gset jsstring) (queue : list jsstring) (link : jsstring) :
  link ∈ visited ∨ link ∈ queue → enqueue visited queue link = queue.
Proof.
  intros [H|H]; unfold enqueue.
  - apply has_true in H. by rewrite H.
  - apply (bool_decide_eq_true _) in H. rewrite H. by rewrite andb_false_r.
Qed.

Lemma enqueue_ok (visited : gset jsstring) (queue : list jsstring) (link : jsstring) :
  queueOk visited queue → queueOk visited (enqueue visited queue link).
Proof.
  intros [Hnd Hdis]. unfold enqueue.
  destruct (has visited link) eqn:Hv; simpl; [done|].
  destruct (bool_decide (link ∈ queue)) eqn:Hq; simpl; [done|].
  apply has_false in Hv. apply bool_decide_eq_false in Hq.
  split.
  - apply NoDup_app. split_and!; [done| |apply NoDup_singleton].
    intros x Hx Hx'. apply list_elem_of_singleton in Hx'. by subst.
  - intros u Hu. apply elem_of_app in Hu. destruct Hu as [Hu|Hu]; [by apply Hdis|].
    apply list_elem_of_singleton in Hu. by subst.
Qed.

Lemma enqueue_all_ok (visited : gset jsstring) (links queue : list jsstring) :
  queueOk visited queue → queueOk visited (fold_left (enqueue visited) links queue).
Proof.
  revert queue. induction links as [|l links IH]; intros queue H; simpl; [done|].
  apply IH. by apply enqueue_ok.
Qed.

Lemma collectResult_ok (visited : gset jsstring) st result :
  queueOk visited (snd st) →
  queueOk visited (snd (collectResult visited st result))
  ∧ length (fst (collectResult visited st result)) ≤ S (length (fst st)).
Proof.
  destruct st as [ps q], result as [[p|] links]; simpl; intros H.
  - split; [by apply enqueue_all_ok|]. rewrite length_app. simpl. lia.
  - split; [by apply enqueue_all_ok|]. lia.
Qed.

Lemma collect_all_ok (visited : gset jsstring) results st :
  queueOk visited (snd st) →
  queueOk visited (snd (fold_left (collectResult visited) results st))
  ∧ length (fst (fold_left (collectResult visited) results st))
    ≤ length (fst st) + length results.
Proof.
  revert st. induction results as [|r results IH]; intros st H; simpl.
  - split; [done|lia].
  - destruct (collectResult_ok visited st r H) as [Hq Hl].
    destruct (IH _ Hq) as [Hq' Hl']. split; [done|lia].
Qed.

Section Crawl.

Variable http_get : jsstring → option response.
Variable maxPages : nat.

Lemma urlsToProcess_sublist st :
  urlsToProcess maxPages st `sublist_of` take CONCURRENT_LIMIT (toCrawl st).
Proof. unfold urlsToProcess. apply sublist_take. Qed.

(** A partially filled batch is cut to the remaining slots. *)
Lemma urlsToProcess_length st :
  length (urlsToProcess maxPages st) ≤ maxPages - length (pages st).
Proof. unfold urlsToProcess. rewrite length_take. lia. Qed.

Lemma crawlStep_fields st :
  let urls := urlsToProcess maxPages st in
  let visited := markVisited (visitedUrls st) urls in
  let collected :=
    fold_left (collectResult visited) (map (fetchPageWithLinks http_get visited) urls)
      (pages st, drop CONCURRENT_LIMIT (toCrawl st)) in
  crawlStep http_get maxPages st
  = {| pages := fst collected; toCrawl := snd collected;
       visitedUrls := visited; fetched := fetched st ++ urls |}.
Proof. intros urls visited collected. unfold crawlStep. by destruct (fold_left _ _ _). Qed.

(** Every URL of a batch is in the visited set its fetch is given. *)
Lemma dispatched_are_marked st u :
  u ∈ urlsToProcess maxPages st →
  u ∈ visitedUrls (crawlStep http_get maxPages st).
Proof.
  intros Hu. rewrite crawlStep_fields. simpl. apply markVisited_elem. by left.
Qed.

Lemma crawlStep_inv st :
  crawlInv maxPages st → crawlInv maxPages (crawlStep http_get maxPages st).
Proof.
  intros (Hnd & Hfv & [Hq Hqv] & Hp).
  rewrite crawlStep_fields. cbv zeta.
  set (urls := urlsToProcess maxPages st).
  set (visited := markVisited (visitedUrls st) urls).
  pose proof (urlsToProcess_sublist st) as Hsub. fold urls in Hsub.
  pose proof (take_drop CONCURRENT_LIMIT (toCrawl st)) as Htd.
  assert (Hsplit : NoDup (take CONCURRENT_LIMIT (toCrawl st)
                          ++ drop CONCURRENT_LIMIT (toCrawl st))) by by rewrite Htd.
  apply NoDup_app in Hsplit. destruct Hsplit as (Hndt & Hdisj & Hndd).
  assert (Hurls : ∀ u, u ∈ urls → u ∈ toCrawl st).
  { intros u Hu. rewrite <- Htd. apply elem_of_app. left.
    by apply (elem_of_sublist _ _ _ Hu Hsub). }
  assert (Hrest : queueOk visited (drop CONCURRENT_LIMIT (toCrawl st))).
  { split; [done|]. intros u Hu Hv. apply markVisited_elem in Hv.
    destruct Hv as [Hv|Hv].
    - apply (Hdisj u); [|done]. by apply (elem_of_sublist _ _ _ Hv Hsub).
    - apply (Hqv u); [|done]. rewrite <- Htd. apply elem_of_app. by right. }
  destruct (collect_all_ok visited
              (map (fetchPageWithLinks http_get visited) urls)
              (pages st, drop CONCURRENT_LIMIT (toCrawl st)) Hrest) as [Hq' Hl'].
  unfold crawlInv. simpl. split_and!.
  - apply NoDup_app. split_and!; [done| |].
    + intros u Hu Hu'. apply (Hqv u); [by apply Hurls | by apply Hfv].
    + by apply (sublist_NoDup _ _ Hndt).
  - intros u Hu. apply markVisited_elem. apply elem_of_app in Hu.
    destruct Hu as [Hu|Hu]; [right; by apply Hfv | by left].
  - done.
  - simpl in Hl'. rewrite length_map in Hl'.
    pose proof (urlsToProcess_length st). fold urls in H. lia.
Qed.

Lemma start_inv baseUrl : crawlInv maxPages (start baseUrl ∅).
Proof.
  unfold crawlInv, start. simpl. split_and!.
  - apply NoDup_nil_2.
  - intros u Hu. by apply elem_of_nil in Hu.
  - split; [apply NoDup_singleton|]. intros u _. apply not_elem_of_empty.
  - lia.
Qed.

Lemma turns_inv n st :
  crawlInv maxPages st → crawlInv maxPages (turns http_get n maxPages st).
Proof.
  revert st. induction n as [|n IH]; intros st H; simpl; [done|].
  destruct (continues maxPages st); [|done]. apply IH. by apply crawlStep_inv.
Qed.

(** A crawl that completes is the state after some number of turns,
    and the loop condition fails there. *)
Lemma crawlLoop_turns fuel st st' :
  crawlLoop http_get fuel maxPages st = Some st' →
  st' = turns http_get fuel maxPages st ∧ continues maxPages st' = false.
Proof.
  revert st. induction fuel as [|fuel IH]; intros st; simpl;
    destruct (continues maxPages st) eqn:E; simpl; try done.
  - intros [= <-]. done.
  - apply IH.
  - intros [= <-]. done.
Qed.

End Crawl.

(** *** A crawl of a finite site completes *)

Section FiniteSite.

Variable http_get : jsstring → option response.
Variable maxPages : nat.

(** Every link of every page is in [site]. *)
Variable site : gset jsstring.
Hypothesis links_in_site :
  ∀ u r l, http_get u = Some r → l ∈ absoluteUrls r → l ∈ site.

Lemma enqueue_all_elem (visited : gset jsstring) (links queue : list jsstring) u :
  u ∈ fold_left (enqueue visited) links queue → u ∈ queue ∨ u ∈ links.
Proof.
  revert queue. induction links as [|l links IH]; intros queue H; simpl in H.
  - by left.
  - apply IH in H. destruct H as [H|H]; [|right; by apply elem_of_cons; right].
    unfold enqueue in H. destruct (_ && _); [|by left].
    apply elem_of_app in H. destruct H as [H|H]; [by left|].
    apply list_elem_of_singleton in H. subst. right. by apply elem_of_cons; left.
Qed.

Lemma fetched_links_in_site (visited : gset jsstring) url l :
  l ∈ snd (fetchPageWithLinks http_get visited url) → l ∈ site.
Proof.
  unfold fetchPageWithLinks. destruct (http_get url) as [r|] eqn:E; simpl.
  - intros H.
    assert (Hl : l ∈ List.filter (followed visited (domain r)) (absoluteUrls r)).
    { by destruct (_ <? _). }
    apply list_elem_of_In, filter_In in Hl. destruct Hl as [Hl _].
    apply list_elem_of_In in Hl. by eapply links_in_site.
  - intros H. by apply elem_of_nil in H.
Qed.

Lemma collect_all_elem (visited : gset jsstring) urls st u :
  u ∈ snd (fold_left (collectResult visited)
             (map (fetchPageWithLinks http_get visited) urls) st) →
  u ∈ snd st ∨ u ∈ site.
Proof.
  revert st. induction urls as [|url urls IH]; intros st H; simpl in H; [by left|].
  apply IH in H. destruct H as [H|H]; [|by right].
  destruct st as [ps q]. unfold collectResult in H.
  destruct (fetchPageWithLinks http_get visited url) as [p links] eqn:E.
  simpl in H. apply enqueue_all_elem in H. destruct H as [H|H]; [by left|right].
  apply (fetched_links_in_site visited url). by rewrite E.
Qed.

Lemma markVisited_size (visited : gset jsstring) (urls : list jsstring) :
  NoDup urls → (∀ u, u ∈ urls → u ∉ visited) →
  size (markVisited visited urls) = length urls + size visited.
Proof.
  revert visited. induction urls as [|u urls IH]; intros visited Hnd Hdis; simpl; [done|].
  apply NoDup_cons in Hnd. destruct Hnd as [Hu Hnd].
  rewrite IH; [|done|].
  - rewrite size_union, size_singleton; [lia|].
    apply disjoint_singleton_l. apply Hdis. by apply elem_of_cons; left.
  - intros v Hv Hin. apply elem_of_union in Hin. destruct Hin as [Hin|Hin].
    + apply elem_of_singleton in Hin. by subst.
    + apply (Hdis v); [by apply elem_of_cons; right | done].
Qed.

Lemma urls_in_queue st u :
  u ∈ urlsToProcess maxPages st → u ∈ toCrawl st.
Proof.
  intros Hu. rewrite <- (take_drop CONCURRENT_LIMIT (toCrawl st)).
  apply elem_of_app. left.
  by apply (elem_of_sublist _ _ _ Hu (urlsToProcess_sublist maxPages st)).
Qed.

Lemma crawlStep_withinSite baseUrl st :
  withinSite site baseUrl st → withinSite site baseUrl (crawlStep http_get maxPages st).
Proof.
  intros [Hq Hv]. rewrite crawlStep_fields. cbv zeta. split; simpl.
  - intros u Hu. apply collect_all_elem in Hu. simpl in Hu.
    destruct Hu as [Hu|Hu]; [|by apply elem_of_union; left].
    apply Hq. rewrite <- (take_drop CONCURRENT_LIMIT (toCrawl st)).
    apply elem_of_app. by right.
  - intros u Hu. apply markVisited_elem in Hu. destruct Hu as [Hu|Hu].
    + by apply Hq, urls_in_queue.
    + by apply Hv.
Qed.

Lemma continues_batch st :
  continues maxPages st = true → 1 ≤ length (urlsToProcess maxPages st).
Proof.
  unfold continues, urlsToProcess. intros H.
  apply andb_prop in H. destruct H as [H1 H2].
  apply Nat.ltb_lt in H1, H2. rewrite !length_take. unfold CONCURRENT_LIMIT. lia.
Qed.

Lemma crawlStep_visits_more st :
  crawlInv maxPages st → continues maxPages st = true →
  S (size (visitedUrls st)) ≤ size (visitedUrls (crawlStep http_get maxPages st)).
Proof.
  intros (_ & _ & [Hnd Hdis] & _) Hc. rewrite crawlStep_fields. cbv zeta. simpl.
  rewrite markVisited_size.
  - pose proof (continues_batch st Hc). lia.
  - apply (sublist_NoDup _ (toCrawl st)); [done|].
    etransitivity; [apply urlsToProcess_sublist | apply sublist_take].
  - intros u Hu. by apply Hdis, urls_in_queue.
Qed.

Lemma crawlLoop_completes baseUrl fuel st :
  crawlInv maxPages st → withinSite site baseUrl st →
  size (site ∪ {[baseUrl]}) < fuel + size (visitedUrls st) →
  ∃ st', crawlLoop http_get fuel maxPages st = Some st'.
Proof.
  revert st. induction fuel as [|fuel IH]; intros st Hinv Hsite Hfuel.
  - pose proof (subseteq_size _ _ (proj2 Hsite)). lia.
  - simpl. destruct (continues maxPages st) eqn:Hc; simpl; [|by eexists].
    apply IH.
    + by apply crawlStep_inv.
    + by apply crawlStep_withinSite.
    + pose proof (crawlStep_visits_more st Hinv Hc). lia.
Qed.

(** On a site with finitely many links the crawl from any seed ends
    within as many turns as the site and the seed have URLs. *)
Lemma crawl_of_finite_site_completes baseUrl :
  ∃ st, crawlLinks http_get (S (size (site ∪ {[baseUrl]}))) baseUrl maxPages = Some st.
Proof.
  unfold crawlLinks. apply (crawlLoop_completes baseUrl).
  - apply start_inv.
  - split; simpl.
    + intros u Hu. apply list_elem_of_singleton in Hu. subst.
      apply elem_of_union. right. by apply elem_of_singleton.
    + apply empty_subseteq.
  - unfold start. cbn [visitedUrls]. rewrite size_empty. lia.
Qed.

End FiniteSite.

(** The crawl of the sample site: three fetches, two pages. *)
Lemma small_site_crawl :
  option_map (fun st => (fetched st, length (pages st)))
    (crawlLinks CrawlSample.smallSite 5 CrawlSample.seedUrl 10)
  = Some ([CrawlSample.seedUrl; CrawlSample.urlA; CrawlSample.urlB], 2).
Proof. vm_compute. reflexivity. Qed.

(** C8. At every turn of a crawl from a seed, and so at the end of
    every crawl that completes: no URL has been fetched twice; the URLs
    fetched are in the visited set, and those of the coming batch are
    marked before their fetch runs; the queue holds no URL twice and
    none that is visited, so that a visited or queued link is not
    queued again; the pages are at most [maxPages] and the coming batch
    is cut to the remaining slots. *)
Theorem crawl_fetches_once_within_bound
    (http_get : jsstring → option response) (baseUrl : jsstring)
    (maxPages n : nat) :
  let st := turns http_get n maxPages (start baseUrl ∅) in
  NoDup (fetched st)
  ∧ (∀ u, u ∈ fetched st → u ∈ visitedUrls st)
  ∧ (∀ u, u ∈ urlsToProcess maxPages st →
          u ∈ visitedUrls (crawlStep http_get maxPages st))
  ∧ NoDup (toCrawl st)
  ∧ (∀ u, u ∈ toCrawl st → u ∉ visitedUrls st)
  ∧ (∀ link, link ∈ visitedUrls st ∨ link ∈ toCrawl st →
             enqueue (visitedUrls st) (toCrawl st) link = toCrawl st)
  ∧ length (pages st) ≤ maxPages
  ∧ length (urlsToProcess maxPages st) ≤ maxPages - length (pages st)
  ∧ (∀ fuel done,
       crawlLinks http_get fuel baseUrl maxPages = Some done →
       NoDup (fetched done) ∧ length (pages done) ≤ maxPages).
Proof.
  intros st.
  destruct (turns_inv http_get maxPages n _ (start_inv maxPages baseUrl))
    as (Hnd & Hfv & [Hq Hqv] & Hp).
  fold st in Hnd, Hfv, Hq, Hqv, Hp.
  split_and!; try done.
  - intros u. apply dispatched_are_marked.
  - intros link. apply enqueue_skips.
  - apply urlsToProcess_length.
  - intros fuel done Hdone. unfold crawlLinks in Hdone.
    apply crawlLoop_turns in Hdone. destruct Hdone as [-> _].
    destruct (turns_inv http_get maxPages fuel _ (start_inv maxPages baseUrl))
      as (Hnd' & _ & _ & Hp').
    done.
Qed.

End ScraperFacts.

(* ================================================================= *)
(** * Further properties *)

(* ================================================================= *)
(** ** Cosine similarity: symmetry, and NaN components *)

Module SimilarityFacts.
Import Num Embedder Retrieval Scores RetrievalFacts.

Lemma mul_comm x y : mul x y = mul y x.
Proof.
  unfold mul.
  destruct x as [sx|sx| |sx mx ex], y as [sy|sy| |sy my ey]; cbn [SFmul];
    try reflexivity; try (now rewrite xorb_comm).
  now rewrite xorb_comm, Pos.mul_comm, Z.add_comm.
Qed.

(** Exchanging the vectors exchanges the two sums of squares. *)
Lemma fold_accumulate_swap (a b : vector) dp na nb :
  fold_left accumulate (combine b a) (dp, nb, na)
  = let '(dp', na', nb') := fold_left accumulate (combine a b) (dp, na, nb) in
    (dp', nb', na').
Proof.
  revert b dp na nb. induction a as [|x a IH]; intros [|y b] dp na nb;
    try reflexivity.
  cbn [combine fold_left accumulate]. rewrite (mul_comm y x). apply IH.
Qed.

Lemma add_NaN_l x : add NaN x = NaN.
Proof. reflexivity. Qed.

Lemma add_NaN_r x : add x NaN = NaN.
Proof. now destruct x. Qed.

Lemma mul_NaN_r x : mul x NaN = NaN.
Proof. now destruct x. Qed.

Lemma div_NaN_r x : div x NaN = NaN.
Proof. now destruct x. Qed.

(** Once a sum of squares is NaN it stays NaN. *)
Lemma fold_accumulate_NaN_a (ab : list (number * number)) dp nb :
  exists dp' nb', fold_left accumulate ab (dp, NaN, nb) = (dp', NaN, nb').
Proof.
  revert dp nb. induction ab as [|[x y] ab IH]; intros dp nb; [now eauto|].
  cbn [fold_left accumulate]. rewrite add_NaN_l. apply IH.
Qed.

Lemma fold_accumulate_NaN_b (ab : list (number * number)) dp na :
  exists dp' na', fold_left accumulate ab (dp, na, NaN) = (dp', na', NaN).
Proof.
  revert dp na. induction ab as [|[x y] ab IH]; intros dp na; [now eauto|].
  cbn [fold_left accumulate]. rewrite add_NaN_l. apply IH.
Qed.

Lemma fold_accumulate_NaN_in_a (a b : vector) dp na nb :
  length a = length b -> In NaN a ->
  exists dp' nb', fold_left accumulate (combine a b) (dp, na, nb) = (dp', NaN, nb').
Proof.
  revert b dp na nb. induction a as [|x a IH]; intros [|y b] dp na nb Hlen Hin;
    try discriminate; try contradiction.
  cbn [combine fold_left accumulate]. destruct Hin as [->|Hin].
  - change (mul NaN NaN) with NaN. rewrite (add_NaN_r na). apply fold_accumulate_NaN_a.
  - apply IH; [now injection Hlen | exact Hin].
Qed.

Lemma fold_accumulate_NaN_in_b (a b : vector) dp na nb :
  length a = length b -> In NaN b ->
  exists dp' na', fold_left accumulate (combine a b) (dp, na, nb) = (dp', na', NaN).
Proof.
  revert b dp na nb. induction a as [|x a IH]; intros [|y b] dp na nb Hlen Hin;
    try discriminate; try contradiction.
  cbn [combine fold_left accumulate]. destruct Hin as [->|Hin].
  - change (mul NaN NaN) with NaN. rewrite (add_NaN_r nb). apply fold_accumulate_NaN_b.
  - apply IH; [now injection Hlen | exact Hin].
Qed.

Lemma cosineSimilarity_NaN_component (a b : vector) :
  length a = length b -> In NaN a \/ In NaN b ->
  cosineSimilarity a b = inr NaN.
Proof.
  intros Hlen Hin. unfold cosineSimilarity, sums.
  rewrite Hlen, Nat.eqb_refl. cbn [negb].
  destruct Hin as [Hin|Hin].
  - destruct (fold_accumulate_NaN_in_a a b zero zero zero Hlen Hin) as (dp & nb & ->).
    cbn [sqrt SFsqrt]. fold NaN. f_equal.
    rewrite (mul_comm NaN), mul_NaN_r. apply div_NaN_r.
  - destruct (fold_accumulate_NaN_in_b a b zero zero zero Hlen Hin) as (dp & na & ->).
    cbn [sqrt SFsqrt]. fold NaN. f_equal.
    rewrite mul_NaN_r. apply div_NaN_r.
Qed.

(** X1. The similarity of two vectors does not depend on their order: the
    same number, or the same error. *)
Theorem cosineSimilarity_is_symmetric (a b : vector) :
  cosineSimilarity a b = cosineSimilarity b a.
Proof.
  unfold cosineSimilarity, sums.
  rewrite (Nat.eqb_sym (length b) (length a)).
  destruct (length a =? length b)%nat; [|reflexivity]. cbn [negb].
  rewrite (fold_accumulate_swap a b zero zero zero).
  destruct (fold_left accumulate (combine a b) (zero, zero, zero)) as [[dp na] nb].
  now rewrite (mul_comm (sqrt nb) (sqrt na)).
Qed.

(** X2. A NaN among the components of the query or of a record's embedding,
    the two of the same length, makes the score of the record NaN, and
    the record is not returned, whatever the threshold and the number
    of results asked for. *)
Theorem NaN_component_is_never_returned store q i r topK threshold :
  nth_error store i = Some r ->
  length q = length (embedding r) ->
  In NaN q \/ In NaN (embedding r) ->
  similarity (score q r i) = NaN
  /\ forall item, In item (topItems topK threshold (similarities store q)) ->
                  index item <> i.
Proof.
  intros Hr Hlen Hin.
  assert (Hs : similarity (score q r i) = NaN).
  { unfold score. now rewrite (cosineSimilarity_NaN_component _ _ Hlen Hin). }
  split; [exact Hs|].
  intros item Hitem Hi. apply topItems_In in Hitem. destruct Hitem as [Hitem Hge].
  apply similarities_In in Hitem. destruct Hitem as (r' & Hr' & Hitem).
  rewrite Hi in Hr', Hitem. rewrite Hr in Hr'. injection Hr' as <-.
  rewrite Hitem, Hs in Hge. destruct threshold; discriminate.
Qed.

Lemma NaN_component_is_never_returned_witness :
  similarity (score [ofZ 1; ofZ 0] {| text := lit "b"; embedding := [NaN; ofZ 1] |} 1) = NaN
  /\ forall item,
       In item (topItems 5 Config.RETRIEVAL_THRESHOLD
                  (similarities [ {| text := lit "a"; embedding := [ofZ 1; ofZ 0] |};
                                  {| text := lit "b"; embedding := [NaN; ofZ 1] |} ]
                                [ofZ 1; ofZ 0])) ->
       index item <> 1.
Proof.
  apply (NaN_component_is_never_returned
           [ {| text := lit "a"; embedding := [ofZ 1; ofZ 0] |};
             {| text := lit "b"; embedding := [NaN; ofZ 1] |} ]
           [ofZ 1; ofZ 0] 1 {| text := lit "b"; embedding := [NaN; ofZ 1] |}).
  - reflexivity.
  - reflexivity.
  - right. left. reflexivity.
Defined.

End SimilarityFacts.

(* ================================================================= *)
(** ** Retrieval: what is selected, and in which order *)

Module SelectionFacts.
Import Num Embedder Retrieval Scores Samples RetrievalFacts RankingFacts.

Lemma insert_permutation x l : Permutation (insert x l) (x :: l).
Proof.
  induction l as [|y l IH]; cbn [insert]; [reflexivity|].
  destruct (SortCompare x y); try reflexivity.
  rewrite IH. apply perm_swap.
Qed.

Lemma sort_permutation l : Permutation (sort l) l.
Proof.
  induction l as [|x l IH]; cbn [sort]; [reflexivity|].
  rewrite insert_permutation. now constructor.
Qed.

Lemma filter_permutation {A} (f : A -> bool) l l' :
  Permutation l l' -> Permutation (filter f l) (filter f l').
Proof.
  intros H. induction H as [|x l l' H IH|x y l|l l' l'' H1 IH1 H2 IH2];
    cbn [filter].
  - reflexivity.
  - destruct (f x); [now constructor | exact IH].
  - destruct (f x), (f y); try reflexivity. apply perm_swap.
  - now rewrite IH1.
Qed.

(** X3. What retrieval returns, without any assumption on the scores: the
    items returned all pass the threshold and are scored records of
    the store; together with some of the other items that pass the
    threshold they are all such items; and they are as many as the
    store has such items, up to [topK].  So every record that passes
    the threshold is returned when there are at most [topK] of them. *)
Theorem retrieval_returns_those_above_threshold store q topK threshold :
  let relevant := filter (fun item => ge (similarity item) threshold)
                         (similarities store q) in
  let items := topItems topK threshold (similarities store q) in
  retrieve topK threshold store q
  = match store with
    | [] => inl NoEmbeddedRecordsAvailable
    | _ :: _ => inr (map record items)
    end
  /\ (exists others, Permutation (items ++ others) relevant)
  /\ length items = Nat.min topK (length relevant)
  /\ Forall (fun item =>
               exists r, nth_error store (index item) = Some r
                         /\ item = score q r (index item)
                         /\ record item = text r)
            items.
Proof.
  intros relevant items. split; [|split; [|split]].
  - now destruct store.
  - exists (skipn topK (filter (fun item => ge (similarity item) threshold)
                          (sort (similarities store q)))).
    unfold items, topItems. rewrite firstn_skipn.
    apply filter_permutation, sort_permutation.
  - unfold items, topItems. rewrite length_firstn. f_equal.
    apply Permutation_length, filter_permutation, sort_permutation.
  - apply Forall_forall. intros item Hitem.
    apply topItems_In in Hitem. destruct Hitem as [Hitem _].
    apply similarities_In in Hitem. destruct Hitem as (r & Hr & Hitem).
    exists r. split; [exact Hr|]. split; [exact Hitem|].
    rewrite Hitem. apply score_record.
Qed.

(** X4. When no score is NaN, the items returned are in descending order
    of score, items of equal score in the order of the store, and each
    is the scored record at its index. *)
Theorem retrieval_is_ranked_when_no_score_is_NaN store q topK threshold :
  store <> [] ->
  Forall isOrdinary (similarities store q) ->
  let items := topItems topK threshold (similarities store q) in
  retrieve topK threshold store q = inr (map record items)
  /\ StronglySorted rankedBefore items
  /\ Forall (fun item =>
               exists r, nth_error store (index item) = Some r
                         /\ item = score q r (index item))
            items.
Proof.
  intros Hne Hord items. split; [|split].
  - destruct store; [contradiction|reflexivity].
  - unfold items, topItems.
    apply StronglySorted_firstn, StronglySorted_filter, sort_sorted; [exact Hord|].
    apply (map_from_indices q 0 store).
  - apply Forall_forall. intros item Hitem.
    apply topItems_In in Hitem. destruct Hitem as [Hitem _].
    now apply similarities_In in Hitem.
Qed.

Lemma retrieval_is_ranked_when_no_score_is_NaN_witness :
  let store := [textOf "a" [1; 1]; textOf "b" [0; 1]; textOf "c" [1; 0];
                textOf "d" [2; 0]]%Z in
  let items := topItems 3 oneHalf (similarities store (map ofZ [1; 0]%Z)) in
  retrieve 3 oneHalf store (map ofZ [1; 0]%Z) = inr (map record items)
  /\ StronglySorted rankedBefore items
  /\ Forall (fun item =>
               exists r, nth_error store (index item) = Some r
                         /\ item = score (map ofZ [1; 0]%Z) r (index item))
            items.
Proof.
  apply (retrieval_is_ranked_when_no_score_is_NaN
           [textOf "a" [1; 1]; textOf "b" [0; 1]; textOf "c" [1; 0];
            textOf "d" [2; 0]]%Z (map ofZ [1; 0]%Z) 3 oneHalf).
  - discriminate.
  - repeat constructor.
Defined.

End SelectionFacts.

(* ================================================================= *)
(** ** The conversation history given to the prompt *)

Module PromptFacts.
Import JsArray Prompt.

Lemma slice_all_but_last {A} (l : list A) :
  slice l 0 (Some (-1)%Z) = removelast l.
Proof.
  unfold slice, relativeIndex. cbn [Z.ltb Z.compare].
  rewrite Z.min_l by lia. change (Z.to_nat 0) with 0%nat. cbn [skipn].
  destruct l as [|x l _] using rev_ind; [reflexivity|].
  rewrite removelast_last, length_app. cbn [length].
  rewrite Z.max_l by lia.
  replace (Z.to_nat (Z.of_nat (length l + 1) + -1 - 0)) with (length l) by lia.
  change (skipn 0 (l ++ [x])) with (l ++ [x]).
  rewrite firstn_app, Nat.sub_diag, firstn_all. cbn [firstn]. apply app_nil_r.
Qed.

Lemma slice_last_ten {A} (l : list A) :
  slice l (- MAX_CONVERSATION_HISTORY) None = skipn (length l - 10) l.
Proof.
  unfold slice, relativeIndex, MAX_CONVERSATION_HISTORY.
  change (- (10) <? 0)%Z with true. cbv iota.
  destruct (Z.max_spec (Z.of_nat (length l) + - (10)) 0) as [[H ->]|[H ->]].
  - change (Z.to_nat 0) with 0%nat. change (skipn 0 l) with l.
    rewrite Z.sub_0_r, Nat2Z.id, firstn_all.
    replace (length l - 10) with 0 by lia. reflexivity.
  - replace (Z.to_nat (Z.of_nat (length l) + - (10))) with (length l - 10) by lia.
    apply firstn_all2. rewrite length_skipn. lia.
Qed.

(** X5. The history given to the prompt is the end of the conversation
    without its last message (the query being answered): the messages
    just before it, at most ten of them, in order.  An empty
    conversation gives an empty history. *)
Theorem prompt_history_is_last_ten_before_query {M : Type} (h : list M) :
  (exists older, removelast h = older ++ conversation_history h)
  /\ length (conversation_history h) = Nat.min 10 (length h - 1).
Proof.
  unfold conversation_history. rewrite slice_all_but_last, slice_last_ten.
  split.
  - exists (firstn (length (removelast h) - 10) (removelast h)).
    symmetry. apply firstn_skipn.
  - rewrite length_skipn.
    assert (Hl : length (removelast h) = length h - 1).
    { destruct h as [|x h _] using rev_ind; [reflexivity|].
      rewrite removelast_last, length_app. cbn [length]. lia. }
    lia.
Qed.

End PromptFacts.

(* ================================================================= *)
(** ** The embedding service: batches *)

Module ServiceFacts.
Import Num Embedder Retrieval KnowledgeManager Population Service.

Lemma fullButLast_cons b rest :
  (length b = BATCH_SIZE \/ rest = []) -> fullButLast rest -> fullButLast (b :: rest).
Proof.
  intros H Hrest. destruct rest as [|b' rest]; [exact I|].
  destruct H as [H|H]; [|discriminate]. now split.
Qed.

(** What the loop does from index [i] on when it has turns enough:
    the batches it sends are the texts from [i] on, cut every
    [BATCH_SIZE]; it stops at the first batch that fails. *)
Lemma batchLoop_batches e texts fuel :
  forall i allEmbeddings sent,
    length texts - i <= fuel * BATCH_SIZE ->
    exists outcome sent',
      batchLoop fuel (Some e) texts i allEmbeddings sent
      = Some (outcome, sent ++ sent')
      /\ Forall (fun b => b <> [] /\ length b <= BATCH_SIZE) sent'
      /\ fullButLast sent'
      /\ (exists rest, skipn i texts = concat sent' ++ rest)
      /\ match outcome with
         | inr embeddings =>
             concat sent' = skipn i texts
             /\ exists answers,
                  Forall2 (fun b a => remoteBatch e b = Some a) sent' answers
                  /\ embeddings = allEmbeddings ++ concat answers
         | inl error =>
             error = BatchEmbeddingFailed
             /\ exists done failing,
                  sent' = done ++ [failing] /\ remoteBatch e failing = None
         end.
Proof.
  induction fuel as [|fuel IH]; intros i allEmbeddings sent Hfuel.
  - cbn [batchLoop]. destruct (Nat.ltb_spec i (length texts)) as [Hi|Hi];
      [unfold BATCH_SIZE in Hfuel; lia|].
    exists (inr allEmbeddings), []. rewrite !app_nil_r.
    rewrite skipn_all2 by lia.
    repeat split; try constructor; try (now exists []).
    exists []. split; [constructor | now rewrite app_nil_r].
  - cbn [batchLoop]. destruct (Nat.ltb_spec i (length texts)) as [Hi|Hi].
    + set (batch := firstn BATCH_SIZE (skipn i texts)).
      assert (Hbatch : batch <> [] /\ length batch <= BATCH_SIZE).
      { split.
        - intros Hnil. apply (f_equal (@length _)) in Hnil. unfold batch in Hnil.
          rewrite length_firstn, length_skipn in Hnil. cbn [length] in Hnil.
          unfold BATCH_SIZE in Hnil. lia.
        - unfold batch. rewrite length_firstn. lia. }
      assert (Hskip : skipn i texts = batch ++ skipn (i + BATCH_SIZE) texts).
      { unfold batch. rewrite Nat.add_comm, <- skipn_skipn.
        symmetry. apply firstn_skipn. }
      destruct (remoteBatch e batch) as [batchEmbeddings|] eqn:Hans.
      * destruct (IH (i + BATCH_SIZE) (allEmbeddings ++ batchEmbeddings)
                    (sent ++ [batch])) as (outcome & sent' & Hrun & Hall & Hfull & Hpre & Hout).
        { unfold BATCH_SIZE in *. lia. }
        exists outcome, (batch :: sent'). rewrite Hrun, <- app_assoc.
        split; [reflexivity|]. split; [now constructor|]. split.
        { apply fullButLast_cons; [|exact Hfull].
          destruct (Nat.le_gt_cases (length texts) (i + BATCH_SIZE)) as [Hend|Hmore].
          - right. destruct Hpre as [rest Hpre].
            rewrite skipn_all2 in Hpre by lia.
            destruct sent' as [|b sent']; [reflexivity|].
            inversion Hall as [|? ? [Hb _] _]; subst.
            destruct b; [contradiction | discriminate].
          - left. unfold batch. rewrite length_firstn, length_skipn. lia. }
        split.
        { destruct Hpre as [rest Hpre]. exists rest. cbn [concat].
          now rewrite Hskip, Hpre, app_assoc. }
        destruct outcome as [error|embeddings].
        -- destruct Hout as (-> & done & failing & -> & Hfail).
           split; [reflexivity|]. now exists (batch :: done), failing.
        -- destruct Hout as (Hcat & answers & Hans' & ->).
           split; [cbn [concat]; now rewrite Hcat, Hskip|].
           exists (batchEmbeddings :: answers). split; [now constructor|].
           cbn [concat]. now rewrite app_assoc.
      * exists (inl BatchEmbeddingFailed), [batch].
        split; [reflexivity|]. split; [constructor; [exact Hbatch | constructor]|].
        split; [exact I|].
        split.
        { exists (skipn (i + BATCH_SIZE) texts). cbn [concat]. now rewrite app_nil_r. }
        split; [reflexivity|]. now exists [], batch.
    + exists (inr allEmbeddings), []. rewrite !app_nil_r.
      rewrite skipn_all2 by lia.
      repeat split; try constructor; try (now exists []).
      exists []. split; [constructor | now rewrite app_nil_r].
Qed.

Lemma enough_turns (texts : list jsstring) :
  length texts - 0 <= length texts * BATCH_SIZE.
Proof. unfold BATCH_SIZE. lia. Qed.

(** X6. [embedBatch] always returns or throws.  On a service that is or
    can be initialized, the texts are sent to the remote embedder in
    order, each once, in batches that are not empty and hold at most
    [BATCH_SIZE] texts, all but the last exactly [BATCH_SIZE]; the
    embeddings returned are the answers to the batches, one after the
    other.  The first batch that fails makes the call throw, and no
    later batch is sent. *)
Theorem embedBatch_sends_texts_in_batches createRemote s texts :
  exists outcome s' sent,
    embedBatch createRemote s texts = Some (outcome, s', sent)
    /\ Forall (fun b => b <> [] /\ length b <= BATCH_SIZE) sent
    /\ fullButLast sent
    /\ (exists rest, texts = concat sent ++ rest)
    /\ match outcome with
       | inr embeddings =>
           initialized s' = true
           /\ concat sent = texts
           /\ exists answers,
                Forall2 (fun b a => answerOf s' b = Some a) sent answers
                /\ embeddings = concat answers
       | inl InitializationFailed =>
           sent = [] /\ initialized s = false /\ createRemote = None
       | inl BatchEmbeddingFailed =>
           initialized s' = true /\ texts <> []
           /\ answerOf s' (last sent []) = None
       | inl FailedToEmbedText => False
       end.
Proof.
  unfold embedBatch, ensureInitialized, initialize.
  assert (Hloop : forall s0 : service,
    initialized s0 = true ->
    exists outcome sent,
      batchLoop (length texts) (embedder s0) texts 0 [] [] = Some (outcome, sent)
      /\ Forall (fun b => b <> [] /\ length b <= BATCH_SIZE) sent
      /\ fullButLast sent
      /\ (exists rest, texts = concat sent ++ rest)
      /\ match outcome with
         | inr embeddings =>
             initialized s0 = true
             /\ concat sent = texts
             /\ exists answers,
                  Forall2 (fun b a => answerOf s0 b = Some a) sent answers
                  /\ embeddings = concat answers
         | inl InitializationFailed => False
         | inl BatchEmbeddingFailed =>
             initialized s0 = true /\ texts <> []
             /\ answerOf s0 (last sent []) = None
         | inl FailedToEmbedText => False
         end).
  { intros s0 Hs0. unfold answerOf. destruct (embedder s0) as [e|] eqn:He.
    - destruct (batchLoop_batches e texts (length texts) 0 [] [] (enough_turns texts))
        as (outcome & sent & Hrun & Hall & Hfull & Hpre & Hout).
      exists outcome, sent. cbn [app skipn] in *.
      split; [exact Hrun|]. split; [exact Hall|]. split; [exact Hfull|].
      split; [exact Hpre|].
      destruct outcome as [error|embeddings].
      + destruct Hout as (-> & done & failing & -> & Hfail).
        rewrite last_last. split; [exact Hs0|]. split; [|exact Hfail].
        intros ->. destruct Hpre as [rest Hpre].
        rewrite concat_app in Hpre. cbn [concat] in Hpre.
        inversion Hall as [|b l Hb Hl E]; [now destruct done|].
        apply Forall_app in Hall. destruct Hall as [_ Hall].
        inversion Hall as [|? ? [Hne _] _]; subst.
        symmetry in Hpre. apply app_eq_nil in Hpre. destruct Hpre as [Hpre _].
        apply app_eq_nil in Hpre. destruct Hpre as [_ Hpre].
        rewrite app_nil_r in Hpre. contradiction.
      + destruct Hout as (Hcat & answers & Hans & ->).
        split; [exact Hs0|]. split; [exact Hcat|]. now exists answers.
    - destruct texts as [|t texts].
      + exists (inr []), []. cbn [length batchLoop Nat.ltb Nat.leb concat].
        split; [reflexivity|]. split; [constructor|]. split; [exact I|].
        split; [now exists []|]. split; [exact Hs0|]. split; [reflexivity|].
        exists []. split; [constructor|reflexivity].
      + exists (inl BatchEmbeddingFailed), [].
        split; [reflexivity|]. split; [constructor|]. split; [exact I|].
        split; [now exists (t :: texts)|]. split; [exact Hs0|]. now split. }
  destruct (initialized s) eqn:Hinit; cbn [negb].
  - destruct (Hloop s Hinit) as (outcome & sent & Hrun & Hall & Hfull & Hpre & Hout).
    rewrite Hrun. exists outcome, s, sent.
    split; [reflexivity|]. split; [exact Hall|]. split; [exact Hfull|].
    split; [exact Hpre|].
    destruct outcome as [[| |]|embeddings]; try exact Hout. contradiction.
  - destruct createRemote as [e|].
    + destruct (Hloop {| embedder := Some e; initialized := true |} eq_refl)
        as (outcome & sent & Hrun & Hall & Hfull & Hpre & Hout).
      rewrite Hrun. exists outcome, {| embedder := Some e; initialized := true |}, sent.
      split; [reflexivity|]. split; [exact Hall|]. split; [exact Hfull|].
      split; [exact Hpre|].
      destruct outcome as [[| |]|embeddings]; try exact Hout. contradiction.
    + exists (inl InitializationFailed), s, [].
      split; [reflexivity|]. split; [constructor|]. split; [exact I|].
      split; [now exists texts|]. now repeat split.
Qed.

Lemma batches_textByText f e sent answers :
  textByText f e ->
  Forall2 (fun b a => remoteBatch e b = Some a) sent answers ->
  concat answers = map f (concat sent).
Proof.
  intros Hf H. induction H as [|b a sent answers Hb _ IH]; [reflexivity|].
  cbn [concat]. rewrite map_app, IH. rewrite Hf in Hb. now injection Hb as <-.
Qed.

(** X7. Batching does not show: with a remote embedder that answers every
    text on its own, [embedBatch] on a new service returns the answer
    to every text, in the order of the texts, however many they are. *)
Theorem embedBatch_answers_text_by_text f e texts :
  textByText f e ->
  exists sent,
    embedBatch (Some e) fresh texts
    = Some (inr (map f texts), {| embedder := Some e; initialized := true |}, sent).
Proof.
  intros Hf. unfold embedBatch, ensureInitialized, initialize.
  cbn [fresh initialized negb embedder].
  destruct (batchLoop_batches e texts (length texts) 0 [] [] (enough_turns texts))
    as (outcome & sent & Hrun & _ & _ & _ & Hout).
  cbn [app skipn] in *. rewrite Hrun. exists sent.
  destruct outcome as [error|embeddings].
  - destruct Hout as (_ & done & failing & _ & Hfail).
    rewrite Hf in Hfail. discriminate.
  - destruct Hout as (Hcat & answers & Hans & ->).
    now rewrite (batches_textByText f e sent answers Hf Hans), Hcat.
Qed.

Lemma embedBatch_answers_text_by_text_witness :
  let f := fun t : jsstring => Some [ofZ (len t)] in
  let e := {| embed := f; remoteBatch := fun batch => Some (map f batch) |} in
  exists sent,
    embedBatch (Some e) fresh (repeat (lit "text") 250)
    = Some (inr (map f (repeat (lit "text") 250)),
            {| embedder := Some e; initialized := true |}, sent).
Proof.
  apply (embedBatch_answers_text_by_text
           (fun t : jsstring => Some [ofZ (len t)])
           {| embed := fun t : jsstring => Some [ofZ (len t)];
              remoteBatch := fun batch =>
                Some (map (fun t : jsstring => Some [ofZ (len t)]) batch) |}).
  intros batch. reflexivity.
Defined.

End ServiceFacts.

(* ================================================================= *)
(** ** Populating the store: what a successful load holds *)

Module LoadFacts.
Import Num Embedder Retrieval Chunker KnowledgeManager Population Service.
Import PopulateFacts ServiceFacts.

Lemma zipFrom_In embeddings i validTexts r :
  In r (zipFrom embeddings i validTexts) ->
  In (text r) validTexts /\ embedding r <> []
  /\ exists k, nth_error embeddings k = Some (Some (embedding r)).
Proof.
  revert i. induction validTexts as [|t rest IH]; intros i H; cbn [zipFrom] in H;
    [contradiction|].
  destruct (nth_error embeddings i) as [[[|x e]|]|] eqn:E;
    try (apply IH in H; destruct H as (H1 & H2 & H3); repeat split;
         [now right | exact H2 | exact H3]).
  destruct H as [<-|H].
  - cbn [text embedding]. split; [now left|]. split; [discriminate|]. now exists i.
  - apply IH in H. destruct H as (H1 & H2 & H3). repeat split;
      [now right | exact H2 | exact H3].
Qed.

Lemma validTextsOf_In pages t :
  In t (validTextsOf pages) ->
  isValidText t = true
  /\ exists page, In page pages
                  /\ In t (chunkText (content page) Config.MAX_CHARS_PER_CHUNK).
Proof.
  unfold validTextsOf, collectTexts. intros H. apply filter_In in H.
  destruct H as [H Hv]. split; [exact Hv|]. apply in_flat_map in H.
  destruct H as (page & Hp & Ht). now exists page.
Qed.

(** The outcome of a load that does not throw, whatever the embedding
    service answered. *)
Lemma load_succeeded service store pages records :
  loadDocumentationWithEmbeddings service store pages = (inr tt, records) ->
  validTextsOf pages <> []
  /\ exists embeddings,
       KnowledgeManager.embedBatch service (validTextsOf pages) = Some embeddings
       /\ records = zipFrom embeddings 0 (validTextsOf pages)
       /\ 2 * failuresFrom embeddings 0 (validTextsOf pages)
          <= length (validTextsOf pages).
Proof.
  intros H.
  destruct (KnowledgeManager.initialize service) eqn:Hinit;
    [|unfold loadDocumentationWithEmbeddings in H; rewrite Hinit in H; discriminate].
  destruct (validTextsOf pages) as [|t rest] eqn:Hv.
  { unfold loadDocumentationWithEmbeddings in H. rewrite Hinit in H.
    fold (validTextsOf pages) in H. rewrite Hv in H. discriminate. }
  split; [discriminate|].
  destruct (KnowledgeManager.embedBatch service (t :: rest)) as [embeddings|] eqn:Hb.
  - assert (Hne : validTextsOf pages <> []) by (rewrite Hv; discriminate).
    rewrite <- Hv in Hb.
    rewrite (load_answered service store pages embeddings Hinit Hne Hb) in H.
    cbv zeta in H. rewrite Hv in *.
    destruct (Nat.ltb_spec (length (t :: rest))
                (2 * failuresFrom embeddings 0 (t :: rest))) as [Hlt|Hge];
      [discriminate|].
    injection H as <-. exists embeddings. now repeat split.
  - unfold loadDocumentationWithEmbeddings in H. rewrite Hinit in H.
    fold (validTextsOf pages) in H. rewrite Hv, Hb in H. discriminate.
Qed.

(** X8. After a load that does not throw the store is not empty, it holds
    a record for at least half of the valid chunks, and every record
    has an embedding that is not empty, returned by the service, and a
    text that is a chunk of one of the pages, of at least 10
    characters once trimmed. *)
Theorem successful_load_holds_embedded_chunks service store pages records :
  loadDocumentationWithEmbeddings service store pages = (inr tt, records) ->
  records <> []
  /\ length records <= length (validTextsOf pages) <= 2 * length records
  /\ Forall (fun r =>
               embedding r <> []
               /\ isValidText (text r) = true
               /\ (exists page, In page pages
                     /\ In (text r) (chunkText (content page) Config.MAX_CHARS_PER_CHUNK))
               /\ (exists embeddings k,
                     KnowledgeManager.embedBatch service (validTextsOf pages)
                     = Some embeddings
                     /\ nth_error embeddings k = Some (Some (embedding r))))
            records.
Proof.
  intros H. apply load_succeeded in H.
  destruct H as (Hne & embeddings & Hb & -> & Hfew).
  pose proof (failures_and_records embeddings (validTextsOf pages) 0) as Hsum.
  assert (Hlen : length (validTextsOf pages) <> 0).
  { destruct (validTextsOf pages); [contradiction | discriminate]. }
  split; [|split].
  - intros Hnil. rewrite Hnil in Hsum. cbn [length] in Hsum. lia.
  - lia.
  - apply Forall_forall. intros r Hr. apply zipFrom_In in Hr.
    destruct Hr as (Ht & He & k & Hk). apply validTextsOf_In in Ht.
    destruct Ht as (Hv & Hpage).
    split; [exact He|]. split; [exact Hv|]. split; [exact Hpage|].
    now exists embeddings, k.
Qed.

Lemma successful_load_holds_embedded_chunks_witness :
  let service := answering fourFailures in
  let records := snd (loadDocumentationWithEmbeddings service [] tenPages) in
  records <> []
  /\ length records <= length (validTextsOf tenPages) <= 2 * length records
  /\ Forall (fun r =>
               embedding r <> []
               /\ isValidText (text r) = true
               /\ (exists page, In page tenPages
                     /\ In (text r) (chunkText (content page) Config.MAX_CHARS_PER_CHUNK))
               /\ (exists embeddings k,
                     KnowledgeManager.embedBatch service (validTextsOf tenPages)
                     = Some embeddings
                     /\ nth_error embeddings k = Some (Some (embedding r))))
            records.
Proof.
  apply (successful_load_holds_embedded_chunks (answering fourFailures) [] tenPages).
  vm_compute. reflexivity.
Defined.

Lemma zipFrom_map (f : jsstring -> option vector) texts i
    (before : list (option vector)) :
  length before = i ->
  (forall t, In t texts -> exists x v, f t = Some (x :: v)) ->
  failuresFrom (before ++ map f texts) i texts = 0
  /\ map text (zipFrom (before ++ map f texts) i texts) = texts
  /\ Forall (fun r => f (text r) = Some (embedding r))
            (zipFrom (before ++ map f texts) i texts).
Proof.
  revert i before. induction texts as [|t texts IH]; intros i before Hi Hf.
  - repeat split. constructor.
  - cbn [failuresFrom zipFrom map]. unfold missingOrEmpty.
    assert (Hnth : nth_error (before ++ f t :: map f texts) i = Some (f t)).
    { rewrite nth_error_app2 by lia. now rewrite Hi, Nat.sub_diag. }
    rewrite Hnth. destruct (Hf t (or_introl eq_refl)) as (x & v & Ht). rewrite Ht.
    destruct (IH (S i) (before ++ [f t])) as (H1 & H2 & H3).
    + rewrite length_app. cbn [length]. lia.
    + intros t' Ht'. apply Hf. now right.
    + rewrite <- app_assoc in H1, H2, H3. cbn [app] in H1, H2, H3.
      rewrite Ht in H1, H2, H3. rewrite H1. split; [reflexivity|]. split.
      * cbn [map text]. now rewrite H2.
      * constructor; [exact Ht | exact H3].
Qed.

(** X9. With a remote embedder that embeds every text on its own, into a
    vector that is not empty, a load by a manager whose service is new
    stores one record for every valid chunk of the pages, in their
    order, each with the embedding of its own text. *)
Theorem load_stores_every_valid_chunk f e store pages :
  textByText f e ->
  (forall t, exists x v, f t = Some (x :: v)) ->
  validTextsOf pages <> [] ->
  exists records,
    loadDocumentationWithEmbeddings (asUsedByManager (Some e) fresh) store pages
    = (inr tt, records)
    /\ map text records = validTextsOf pages
    /\ Forall (fun r => f (text r) = Some (embedding r)) records.
Proof.
  intros Hf Htotal Hne.
  destruct (zipFrom_map f (validTextsOf pages) 0 [] eq_refl) as (H1 & H2 & H3).
  { intros t _. apply Htotal. }
  cbn [app] in H1, H2, H3.
  exists (zipFrom (map f (validTextsOf pages)) 0 (validTextsOf pages)).
  split; [|split; assumption].
  rewrite (load_answered _ store pages (map f (validTextsOf pages))).
  - cbv zeta. rewrite H1. cbn [Nat.mul].
    destruct (Nat.ltb_spec (length (validTextsOf pages)) 0); [lia|reflexivity].
  - reflexivity.
  - exact Hne.
  - unfold asUsedByManager. cbn [KnowledgeManager.embedBatch].
    unfold initialize. cbn [fresh initialized snd].
    unfold embedBatch, ensureInitialized. cbn [initialized negb embedder].
    destruct (batchLoop_batches e (validTextsOf pages) (length (validTextsOf pages))
                0 [] [] (enough_turns (validTextsOf pages)))
      as (outcome & sent & Hrun & _ & _ & _ & Hout).
    cbn [app skipn] in *. rewrite Hrun.
    destruct outcome as [error|embeddings].
    + destruct Hout as (_ & done & failing & _ & Hfail).
      rewrite Hf in Hfail. discriminate.
    + destruct Hout as (Hcat & answers & Hans & ->).
      now rewrite (batches_textByText f e sent answers Hf Hans), Hcat.
Qed.

Lemma load_stores_every_valid_chunk_witness :
  let f := fun t : jsstring => Some [ofZ (len t); ofZ 1] in
  let e := {| embed := f; remoteBatch := fun batch => Some (map f batch) |} in
  exists records,
    loadDocumentationWithEmbeddings (asUsedByManager (Some e) fresh) [] tenPages
    = (inr tt, records)
    /\ map text records = validTextsOf tenPages
    /\ Forall (fun r => f (text r) = Some (embedding r)) records.
Proof.
  apply (load_stores_every_valid_chunk
           (fun t : jsstring => Some [ofZ (len t); ofZ 1])
           {| embed := fun t : jsstring => Some [ofZ (len t); ofZ 1];
              remoteBatch := fun batch =>
                Some (map (fun t : jsstring => Some [ofZ (len t); ofZ 1]) batch) |}
           [] tenPages).
  - intros batch. reflexivity.
  - intros t. now exists (ofZ (len t)), [ofZ 1].
  - vm_compute. discriminate.
Defined.

Lemma zipFrom_short embeddings i validTexts :
  length (zipFrom embeddings i validTexts) <= length embeddings - i.
Proof.
  revert i. induction validTexts as [|t rest IH]; intros i; cbn [zipFrom length];
    [lia|].
  specialize (IH (S i)).
  destruct (nth_error embeddings i) as [[[|x e]|]|] eqn:E; try lia.
  cbn [length]. assert (i < length embeddings) by (apply nth_error_Some; congruence).
  lia.
Qed.

(** X10. A text whose index is beyond the embeddings returned counts as a
    failure: an answer of the service with embeddings for fewer than
    half of the valid chunks makes the load throw, whatever the
    embeddings are. *)
Theorem short_answer_fails_the_load service store pages embeddings :
  KnowledgeManager.initialize service = true ->
  KnowledgeManager.embedBatch service (validTextsOf pages) = Some embeddings ->
  2 * length embeddings < length (validTextsOf pages) ->
  exists failureCount,
    fst (loadDocumentationWithEmbeddings service store pages)
    = inl (EmbeddingFailureRateTooHigh failureCount (length (validTextsOf pages)))
    /\ length (validTextsOf pages) - length embeddings <= failureCount.
Proof.
  intros Hinit Hbatch Hshort.
  assert (Hne : validTextsOf pages <> []).
  { intros Hnil. rewrite Hnil in Hshort. cbn [length] in Hshort. lia. }
  rewrite (load_answered service store pages embeddings Hinit Hne Hbatch). cbv zeta.
  pose proof (failures_and_records embeddings (validTextsOf pages) 0) as Hsum.
  pose proof (zipFrom_short embeddings 0 (validTextsOf pages)) as Hfew.
  destruct (Nat.ltb_spec (length (validTextsOf pages))
              (2 * failuresFrom embeddings 0 (validTextsOf pages))) as [Hlt|Hge];
    [|lia].
  exists (failuresFrom embeddings 0 (validTextsOf pages)). split; [reflexivity|lia].
Qed.

Lemma short_answer_fails_the_load_witness :
  exists failureCount,
    fst (loadDocumentationWithEmbeddings
           (answering [Some unit_vector; Some unit_vector]) [] tenPages)
    = inl (EmbeddingFailureRateTooHigh failureCount (length (validTextsOf tenPages)))
    /\ length (validTextsOf tenPages) - 2 <= failureCount.
Proof.
  apply (short_answer_fails_the_load
           (answering [Some unit_vector; Some unit_vector]) [] tenPages
           [Some unit_vector; Some unit_vector]).
  - reflexivity.
  - reflexivity.
  - vm_compute. lia.
Defined.

End LoadFacts.

(* ================================================================= *)
(** ** The chunker: what the chunks hold *)

Module ChunkerContent.
Import Chunker Shapes Content JsStringFacts ScanFacts ChunkerLimit ChunkerRechunk.

Lemma visible_app a b : visible (a ++ b) = visible a ++ visible b.
Proof. apply filter_app. Qed.

Lemma visible_white s :
  Forall (fun c => isWhiteSpace c = true) s -> visible s = [].
Proof.
  intros H. induction H as [|c s Hc _ IH]; [reflexivity|].
  cbn [visible filter]. rewrite Hc. exact IH.
Qed.

Lemma visible_trimStart s : visible (trimStart s) = visible s.
Proof.
  destruct (dropWhile_decompose isWhiteSpace s) as (pre & Hs & Hp).
  unfold trimStart. rewrite Hs at 2. now rewrite visible_app, (visible_white pre Hp).
Qed.

Lemma visible_trimEnd s : visible (trimEnd s) = visible s.
Proof.
  destruct (trimEnd_decompose s) as (suf & Hs & Hp).
  rewrite Hs at 2. now rewrite visible_app, (visible_white suf Hp), app_nil_r.
Qed.

Lemma visible_trim s : visible (trim s) = visible s.
Proof. unfold trim. now rewrite visible_trimEnd, visible_trimStart. Qed.

Lemma visible_space : visible [SPACE] = [].
Proof. reflexivity. Qed.

Lemma visible_push chunks x :
  visible (concat (pushIfTruthy chunks x)) = visible (concat chunks ++ x).
Proof.
  unfold pushIfTruthy. destruct x as [|c x]; cbn [truthy].
  - now rewrite app_nil_r.
  - rewrite concat_app. cbn [concat]. rewrite app_nil_r.
    now rewrite !visible_app, visible_trim.
Qed.

Lemma visible_split cur s :
  visible (concat (split_from cur s)) = visible (cur ++ s).
Proof.
  revert cur. induction s as [|c s IH]; intros cur; cbn [split_from].
  - cbn [concat]. now rewrite !app_nil_r.
  - destruct (N.eqb_spec c SPACE) as [->|Hc].
    + cbn [concat]. rewrite visible_app, IH. cbn [app].
      rewrite (visible_app cur (SPACE :: s)).
      change (SPACE :: s) with ([SPACE] ++ s).
      now rewrite (visible_app [SPACE] s), visible_space.
    + rewrite IH. now rewrite <- app_assoc.
Qed.

Lemma visible_split_space s : visible (concat (split_space s)) = visible s.
Proof. apply (visible_split [] s). Qed.

(** The word loop neither loses nor adds a character other than
    white space. *)
Lemma wordStep_visible maxChars st word :
  visible (concat (fst (wordStep maxChars st word)) ++ snd (wordStep maxChars st word))
  = visible (concat (fst st) ++ snd st ++ word).
Proof.
  destruct st as [chunks tempChunk]. cbn [fst snd].
  destruct (Z.le_gt_cases (len (tempChunk ++ [SPACE] ++ word)) maxChars) as [Hfit|Hover].
  - rewrite (wordStep_fits _ _ _ _ Hfit). cbn [fst snd].
    destruct tempChunk as [|c t]; cbn [truthy]; [reflexivity|].
    rewrite !visible_app, visible_space. reflexivity.
  - rewrite (wordStep_overflows _ _ _ _ Hover). cbn [fst snd].
    rewrite visible_app, visible_push. now rewrite <- visible_app, <- app_assoc.
Qed.

Lemma fold_words_visible maxChars words st :
  let st' := fold_left (wordStep maxChars) words st in
  visible (concat (fst st') ++ snd st')
  = visible (concat (fst st) ++ snd st ++ concat words).
Proof.
  revert st. induction words as [|w words IH]; intros st; cbn [fold_left concat].
  - now rewrite app_nil_r.
  - cbv zeta in IH. rewrite IH.
    rewrite (app_assoc (concat (fst (wordStep maxChars st w)))), visible_app.
    rewrite wordStep_visible. now rewrite !visible_app, <- !app_assoc.
Qed.

(** After the last word of a sentence [tempChunk] is not empty. *)
Lemma wordStep_truthy maxChars st word :
  word <> [] -> snd (wordStep maxChars st word) <> [].
Proof.
  destruct st as [chunks tempChunk]. intros Hw.
  destruct (Z.le_gt_cases (len (tempChunk ++ [SPACE] ++ word)) maxChars) as [Hfit|Hover].
  - rewrite (wordStep_fits _ _ _ _ Hfit). cbn [snd].
    destruct tempChunk; cbn [truthy]; [exact Hw | discriminate].
  - now rewrite (wordStep_overflows _ _ _ _ Hover).
Qed.

Lemma fold_words_truthy maxChars chunks s :
  isSentence s ->
  snd (fold_left (wordStep maxChars) (split_space s) (chunks, [])) <> [].
Proof.
  intros Hs. destruct (words_of_sentence s Hs) as (ws & wl & -> & _ & _ & He & _).
  rewrite fold_left_app. cbn [fold_left]. apply wordStep_truthy.
  destruct He as (s0 & t & -> & _). now destruct s0.
Qed.

(** One turn of the sentence loop, on a match of the pattern or from
    an empty running chunk. *)
Lemma sentenceStep_visible maxChars st s :
  isSentence s \/ snd st = [] ->
  let st' := sentenceStep maxChars st s in
  visible (concat (fst st') ++ snd st') = visible (concat (fst st) ++ snd st ++ s).
Proof.
  destruct st as [chunks cur]. cbn [fst snd]. intros Hs.
  destruct (Z.le_gt_cases (len (cur ++ s)) maxChars) as [Hfit|Hover].
  - now rewrite (sentenceStep_fits _ _ _ _ Hfit).
  - destruct (Z.le_gt_cases (len s) maxChars) as [Hshort|Hlong].
    + rewrite (sentenceStep_starts_anew _ _ _ _ Hover Hshort). cbn [fst snd].
      rewrite visible_app, visible_push. now rewrite <- visible_app, <- app_assoc.
    + rewrite (sentenceStep_splits _ _ _ _ Hover Hlong). cbv zeta. cbn [fst snd].
      pose proof (fold_words_visible maxChars (split_space s)
                    (pushIfTruthy chunks cur, [])) as Hw.
      cbv zeta in Hw. cbn [fst snd app] in Hw.
      rewrite (visible_app (concat (pushIfTruthy chunks cur))) in Hw.
      rewrite visible_split_space, visible_push in Hw.
      rewrite <- visible_app, <- app_assoc in Hw.
      destruct (snd (fold_left (wordStep maxChars) (split_space s)
                       (pushIfTruthy chunks cur, []))) as [|c t] eqn:E;
        cbn [truthy]; [|exact Hw].
      destruct Hs as [Hs| ->].
      * exfalso. now apply (fold_words_truthy maxChars (pushIfTruthy chunks cur) s Hs).
      * exact Hw.
Qed.

Lemma fold_sentences_visible maxChars sentences st :
  Forall isSentence sentences ->
  let st' := fold_left (sentenceStep maxChars) sentences st in
  visible (concat (fst st') ++ snd st')
  = visible (concat (fst st) ++ snd st ++ concat sentences).
Proof.
  intros H. revert st. induction H as [|s sentences Hs _ IH]; intros st;
    cbn [fold_left concat].
  - now rewrite app_nil_r.
  - cbv zeta in IH. rewrite IH.
    rewrite (app_assoc (concat (fst (sentenceStep maxChars st s)))), visible_app.
    rewrite (sentenceStep_visible maxChars st s (or_introl Hs)).
    now rewrite !visible_app, <- !app_assoc.
Qed.

(** X11. White space apart, the chunks of a text spell its sentences: no
    other character is lost, added, repeated or moved, whatever the
    limit. *)
Theorem chunks_spell_the_sentences text maxChars :
  visible (concat (chunkText text maxChars)) = visible (concat (sentencesOf text)).
Proof.
  rewrite chunkText_unfold. cbv zeta. rewrite visible_push.
  destruct (sentencesOf_cases text) as [[Hm ->]|[Hm ->]].
  - cbn [fold_left concat]. rewrite app_nil_r.
    apply (sentenceStep_visible maxChars ([], []) text). now right.
  - apply (fold_sentences_visible maxChars (matchAll text) ([], [])).
    apply Forall_forall. intros s. apply matchAll_isSentence.
Qed.

(** What the pattern leaves out of a text: terminators at its start
    and the text after its last terminator.  Between the two the
    matches follow one another without a gap. *)
Lemma scan_covers s :
  (exists lead tail, s = lead ++ concat (scan Seek s) ++ tail
                     /\ allTerminators lead /\ noTerminator tail)
  /\ (forall b, noTerminator b ->
        exists tail, b ++ s = concat (scan (Body b) s) ++ tail /\ noTerminator tail)
  /\ (forall b t,
        exists tail, b ++ t ++ s = concat (scan (Terms b t) s) ++ tail
                     /\ noTerminator tail).
Proof.
  induction s as [|c s (IHs & IHb & IHt)].
  - split; [|split].
    + exists [], []. repeat split; constructor.
    + intros b Hb. exists b. cbn [scan concat app]. now rewrite app_nil_r.
    + intros b t. exists []. cbn [scan concat]. split; [|constructor].
      now rewrite !app_nil_r.
  - split; [|split].
    + cbn [scan]. destruct (isTerminator c) eqn:E.
      * destruct IHs as (lead & tail & Hs & Hl & Ht).
        exists (c :: lead), tail. split; [cbn [app]; now rewrite <- Hs|].
        split; [now constructor | exact Ht].
      * destruct (IHb [c]) as (tail & Hs & Ht); [now repeat constructor|].
        exists [], tail. split; [exact Hs|]. split; [constructor | exact Ht].
    + intros b Hb. cbn [scan]. destruct (isTerminator c) eqn:E.
      * destruct (IHt b [c]) as (tail & Hs & Ht). now exists tail.
      * destruct (IHb (b ++ [c])) as (tail & Hs & Ht).
        { apply Forall_app. split; [exact Hb | now repeat constructor]. }
        exists tail. rewrite <- app_assoc in Hs. now split.
    + intros b t. cbn [scan]. destruct (isTerminator c) eqn:E.
      * destruct (IHt b (t ++ [c])) as (tail & Hs & Ht).
        exists tail. rewrite <- app_assoc in Hs. now split.
      * destruct (IHb [c]) as (tail & Hs & Ht); [now repeat constructor|].
        exists tail. split; [|exact Ht]. cbn [concat].
        rewrite <- !app_assoc. cbn [app] in Hs. now rewrite <- Hs.
Qed.

(** X12. The sentences of a text are the text without the terminators it
    begins with and without what follows its last terminator, cut
    without a gap; each is a run of other characters followed by a run
    of terminators.  A text in which nothing matches is one sentence. *)
Theorem sentences_leave_out_only_the_ends text :
  exists lead tail,
    text = lead ++ concat (matchAll text) ++ tail
    /\ allTerminators lead /\ noTerminator tail
    /\ Forall isSentence (matchAll text)
    /\ sentencesOf text = match matchAll text with
                          | [] => [text]
                          | _ :: _ => matchAll text
                          end.
Proof.
  destruct (scan_covers text) as ((lead & tail & Hs & Hl & Ht) & _).
  exists lead, tail. split; [exact Hs|]. split; [exact Hl|]. split; [exact Ht|].
  split.
  - apply Forall_forall. intros s. apply matchAll_isSentence.
  - unfold sentencesOf. now destruct (matchAll text).
Qed.

(** X13. Every chunk is trimmed: it neither begins nor ends with white
    space. *)
Theorem chunks_are_trimmed text maxChars :
  Forall (fun c => trim c = c) (chunkText text maxChars).
Proof.
  rewrite chunkText_unfold. cbv zeta.
  set (P := fun st : chunk_state => Forall (fun c => trim c = c) (fst st)).
  assert (Hpush : forall chunks x,
             Forall (fun c => trim c = c) chunks ->
             Forall (fun c => trim c = c) (pushIfTruthy chunks x)).
  { intros chunks x H. apply pushIfTruthy_Forall; [exact H|].
    intros _. apply trim_idempotent. }
  assert (Hword : forall st w, P st -> P (wordStep maxChars st w)).
  { intros [chunks t] w H. unfold P, wordStep in *. cbn [fst] in *.
    destruct (len (t ++ [SPACE] ++ w) <=? maxChars)%Z; cbn [fst];
      [exact H | now apply Hpush]. }
  assert (Hsent : forall st s, P st -> P (sentenceStep maxChars st s)).
  { intros [chunks cur] s H. unfold P in *. cbn [fst] in H.
    destruct (Z.le_gt_cases (len (cur ++ s)) maxChars) as [Hfit|Hover].
    - now rewrite (sentenceStep_fits _ _ _ _ Hfit).
    - destruct (Z.le_gt_cases (len s) maxChars) as [Hshort|Hlong].
      + rewrite (sentenceStep_starts_anew _ _ _ _ Hover Hshort). now apply Hpush.
      + rewrite (sentenceStep_splits _ _ _ _ Hover Hlong). cbv zeta. cbn [fst].
        apply (fold_left_invariant P); [now apply Hpush|].
        intros a b _. apply Hword. }
  apply Hpush.
  apply (fold_left_invariant P); [constructor|].
  intros a b _. apply Hsent.
Qed.

End ChunkerContent.

(* ================================================================= *)
(** ** Cleaning the scraped text *)

Module CleanupFacts.
Import Chunker Scraper Content Cleanup JsStringFacts ChunkerContent.

Lemma collapseFrom_singleSpaced s :
  forall inRun,
    singleSpaced (collapseFrom inRun s)
    /\ (inRun = true -> headNotWhite (collapseFrom inRun s)).
Proof.
  induction s as [|c s IH]; intros inRun; cbn [collapseFrom].
  - split; [exact I | intros _; exact I].
  - destruct (isWhiteSpace c) eqn:E.
    + destruct inRun.
      * apply IH.
      * split; [|discriminate]. cbn [singleSpaced].
        destruct (IH true) as [Hs Hh]. split; [|exact Hs].
        intros _. split; [reflexivity|]. now apply Hh.
    + split; [|intros _; exact E]. cbn [singleSpaced].
      split; [congruence | apply IH].
Qed.

Lemma singleSpaced_app a b : singleSpaced (a ++ b) -> singleSpaced a /\ singleSpaced b.
Proof.
  induction a as [|c a IH]; cbn [app singleSpaced]; [now split|].
  intros [Hc Hab]. destruct (IH Hab) as [Ha Hb]. split; [|exact Hb].
  split; [|exact Ha]. intros Hw. destruct (Hc Hw) as [-> Hnext].
  split; [reflexivity|]. destruct a; [exact I | exact Hnext].
Qed.

Lemma singleSpaced_trim s : singleSpaced s -> singleSpaced (trim s).
Proof.
  intros H. unfold trim.
  destruct (dropWhile_decompose isWhiteSpace s) as (pre & Hs & _).
  fold (trimStart s) in Hs. rewrite Hs in H. apply singleSpaced_app in H.
  destruct H as [_ H].
  destruct (trimEnd_decompose (trimStart s)) as (suf & Hs' & _).
  rewrite Hs' in H. now apply singleSpaced_app in H.
Qed.

Lemma collapseFrom_fixed s :
  singleSpaced s ->
  collapseFrom false s = s /\ (headNotWhite s -> collapseFrom true s = s).
Proof.
  induction s as [|c s IH]; cbn [singleSpaced collapseFrom]; [now split|].
  intros [Hc Hs]. destruct (IH Hs) as [IH1 IH2].
  destruct (isWhiteSpace c) eqn:E.
  - destruct (Hc eq_refl) as [-> Hnext]. split.
    + f_equal. apply IH2. exact Hnext.
    + cbn [headNotWhite]. congruence.
  - split; [now rewrite IH1 | intros _; now rewrite IH1].
Qed.

Lemma visible_collapseFrom inRun s : visible (collapseFrom inRun s) = visible s.
Proof.
  revert inRun. induction s as [|c s IH]; intros inRun; cbn [collapseFrom];
    [reflexivity|].
  destruct (isWhiteSpace c) eqn:E.
  - cbn [visible filter]. rewrite E. cbn [negb].
    destruct inRun; [apply IH|]. cbn [filter].
    change (isWhiteSpace SPACE) with true. cbn [negb]. apply IH.
  - cbn [visible filter]. rewrite E. cbn [negb]. f_equal. apply IH.
Qed.

Lemma visible_cons c s :
  visible (c :: s) = (if isWhiteSpace c then [] else [c]) ++ visible s.
Proof. cbn [visible filter]. now destruct (isWhiteSpace c). Qed.

Lemma visible_splitCamelCase s : visible (splitCamelCase s) = visible s.
Proof.
  assert (H : forall n s, length s <= n -> visible (splitCamelCase s) = visible s).
  { clear s. induction n as [|n IH]; intros [|c1 s1] Hn; try reflexivity;
      cbn [length] in Hn; [lia|].
    cbn [splitCamelCase].
    assert (Hplain : visible (c1 :: splitCamelCase s1) = visible (c1 :: s1)).
    { rewrite !visible_cons. f_equal. apply IH. lia. }
    destruct s1 as [|c2 [|c3 s3]]; try exact Hplain.
    destruct (isLower c1 && isUpper c2 && isLower c3); [|exact Hplain].
    rewrite !(visible_cons c1). f_equal.
    rewrite (visible_cons SPACE). change (isWhiteSpace SPACE) with true. cbn [app].
    rewrite !(visible_cons c2). f_equal. rewrite !(visible_cons c3). f_equal.
    apply IH. cbn [length] in Hn. lia. }
  now apply (H (length s)).
Qed.

Lemma visible_spaceAfterTerminator s : visible (spaceAfterTerminator s) = visible s.
Proof.
  assert (H : forall n s, length s <= n -> visible (spaceAfterTerminator s) = visible s).
  { clear s. induction n as [|n IH]; intros [|c1 s1] Hn; try reflexivity;
      cbn [length] in Hn; [lia|].
    cbn [spaceAfterTerminator].
    destruct s1 as [|c2 s2]; [reflexivity|].
    destruct (isTerminator c1 && isUpper c2).
    - rewrite !(visible_cons c1). f_equal.
      rewrite (visible_cons SPACE). change (isWhiteSpace SPACE) with true. cbn [app].
      rewrite !(visible_cons c2). f_equal. apply IH. cbn [length] in Hn. lia.
    - rewrite !(visible_cons c1). f_equal. apply IH. lia. }
  now apply (H (length s)).
Qed.

Lemma removeCodeBlocks_without_fence s :
  includes s [BACKTICK; BACKTICK; BACKTICK] = false ->
  removeCodeBlocks Outside s = s.
Proof.
  induction s as [|c1 s1 IH]; [reflexivity|].
  cbn [includes]. intros H. apply orb_false_iff in H. destruct H as [Hhere Hlater].
  cbn [removeCodeBlocks].
  assert (Hfence : match s1 with
                   | c2 :: c3 :: _ =>
                       ((c1 =? BACKTICK) && (c2 =? BACKTICK) && (c3 =? BACKTICK))%N
                   | _ => false
                   end = false).
  { destruct s1 as [|c2 [|c3 s3]]; try reflexivity.
    destruct (N.eqb_spec c1 BACKTICK) as [->|]; [|reflexivity].
    destruct (N.eqb_spec c2 BACKTICK) as [->|]; [|reflexivity].
    destruct (N.eqb_spec c3 BACKTICK) as [->|]; [|reflexivity].
    exfalso. destruct s3; vm_compute in Hhere; discriminate. }
  rewrite Hfence. f_equal. now apply IH.
Qed.

Lemma cleanupContent_normalized content : normalized (cleanupContent content).
Proof.
  unfold cleanupContent.
  destruct (negb (truthy content) || (length (trim content) =? 0)%nat);
    [now split|].
  split; [|apply trim_idempotent].
  apply singleSpaced_trim. apply (collapseFrom_singleSpaced _ false).
Qed.

(** X14. The text that [cleanupText] returns is normalized: its only white
    space is single spaces between other characters, none at either
    end. *)
Theorem cleanupText_is_normalized text :
  normalized (cleanupText text).
Proof.
  unfold cleanupText, normalized. split.
  - apply singleSpaced_trim. apply (collapseFrom_singleSpaced _ false).
  - apply trim_idempotent.
Qed.

(** X15. On a text without three backticks in a row, [cleanupText] changes
    white space only: the other characters are the same, in the same
    order. *)
Theorem cleanupText_keeps_visible_characters text :
  includes text (lit "```") = false ->
  visible (cleanupText text) = visible text.
Proof.
  intros H. unfold cleanupText.
  rewrite visible_trim. unfold collapseWhiteSpace.
  rewrite visible_collapseFrom, visible_spaceAfterTerminator, visible_splitCamelCase.
  now rewrite (removeCodeBlocks_without_fence text H).
Qed.

Lemma cleanupText_keeps_visible_characters_witness :
  visible (cleanupText (lit "  Read theDocs.Then   ask! "))
  = visible (lit "  Read theDocs.Then   ask! ").
Proof.
  apply (cleanupText_keeps_visible_characters (lit "  Read theDocs.Then   ask! ")).
  reflexivity.
Defined.

(** X16. [cleanupContent] changes white space only, what it returns is
    normalized, and cleaning it again changes nothing. *)
Theorem cleanupContent_normalizes_once content :
  visible (cleanupContent content) = visible content
  /\ normalized (cleanupContent content)
  /\ cleanupContent (cleanupContent content) = cleanupContent content.
Proof.
  assert (Hnorm : normalized (trim (collapseWhiteSpace content))).
  { split; [|apply trim_idempotent].
    apply singleSpaced_trim. apply (collapseFrom_singleSpaced _ false). }
  assert (Hval : cleanupContent content = [] /\ visible content = []
                 \/ cleanupContent content = trim (collapseWhiteSpace content)).
  { unfold cleanupContent.
    destruct (negb (truthy content) || (length (trim content) =? 0)%nat) eqn:E;
      [left; split; [reflexivity|] | now right].
    apply orb_true_iff in E. destruct E as [E|E].
    - destruct content; [reflexivity|discriminate].
    - apply Nat.eqb_eq in E. rewrite <- (visible_trim content).
      now destruct (trim content). }
  destruct Hval as [[-> Hv]| ->].
  - split; [now rewrite Hv|]. split; [now split|reflexivity].
  - split; [|split; [exact Hnorm|]].
    + rewrite visible_trim. apply visible_collapseFrom.
    + destruct Hnorm as [Hs Ht].
      remember (trim (collapseWhiteSpace content)) as r eqn:Er. clear Er.
      unfold cleanupContent. rewrite Ht.
      destruct r as [|c r]; [reflexivity|].
      cbn [truthy negb length Nat.eqb orb].
      unfold collapseWhiteSpace. rewrite (proj1 (collapseFrom_fixed _ Hs)). exact Ht.
Qed.

End CleanupFacts.

(* ================================================================= *)
(** ** The crawler: what is fetched, and what is returned *)

Module CrawlerFacts.
Import stdpp.base stdpp.list stdpp.gmap.
Import KnowledgeManager Scraper CrawlShapes CrawlLinks CrawlSample ScraperFacts.

Lemma followed_spec (visited : gset jsstring) (d l : jsstring) :
  followed visited d l = true ↔ isDocumentationLink d l = true ∧ l ∉ visited.
Proof.
  unfold followed, isDocumentationLink. rewrite <- has_false.
  destruct (includes l d), (has visited l), (includes l (lit "/docs/")),
    (includes l (lit "/login")), (includes l (lit "redirect=")); simpl;
    split; try done; intros [? ?]; done.
Qed.

Section Crawl.

Variable http_get : jsstring → option response.
Variable maxPages : nat.

(** What one fetch gives: a page, if any, of the URL fetched, and
    documentation links of that URL that are not visited. *)
Lemma fetch_page (visited : gset jsstring) u p links :
  fetchPageWithLinks http_get visited u = (Some p, links) →
  url p = u ∧ isFetchedDocument http_get p.
Proof.
  unfold fetchPageWithLinks. destruct (http_get u) as [r|] eqn:E; [|done].
  destruct (Nat.ltb_spec (length (pageContent r)) 50) as [Hs|Hl]; [done|].
  intros [= <- _]. simpl. split; [done|]. exists r. simpl. done.
Qed.

Lemma fetch_links (visited : gset jsstring) u l :
  l ∈ snd (fetchPageWithLinks http_get visited u) ↔
  linkedFrom http_get u l ∧ l ∉ visited.
Proof.
  unfold fetchPageWithLinks, linkedFrom.
  destruct (http_get u) as [r|] eqn:E; simpl.
  - assert (Hl : snd (if length (pageContent r) <? 50
                      then (None, List.filter (followed visited (domain r)) (absoluteUrls r))
                      else (Some {| url := u; title := pageTitle r; content := pageContent r |},
                            List.filter (followed visited (domain r)) (absoluteUrls r)))
                 = List.filter (followed visited (domain r)) (absoluteUrls r)).
    { by destruct (_ <? _). }
    rewrite Hl, list_elem_of_In, filter_In, <- list_elem_of_In, followed_spec.
    split.
    + intros (Hin & Hdoc & Hv). split; [|done]. by exists r.
    + intros ((r' & [= <-] & Hin & Hdoc) & Hv). done.
  - rewrite elem_of_nil. split; [done|]. by intros ((r & ? & _) & _).
Qed.

(** *** The pages *)

Lemma collect_pages (visited : gset jsstring) urls ps q :
  ∃ new,
    fst (fold_left (collectResult visited)
           (map (fetchPageWithLinks http_get visited) urls) (ps, q)) = ps ++ new
    ∧ map url new `sublist_of` urls
    ∧ Forall (isFetchedDocument http_get) new.
Proof.
  revert ps q. induction urls as [|u urls IH]; intros ps q; simpl.
  - exists []. rewrite app_nil_r. split_and!; [done|done|constructor].
  - destruct (fetchPageWithLinks http_get visited u) as [[p|] links] eqn:E; simpl.
    + destruct (IH (ps ++ [p]) (fold_left (enqueue visited) links q))
        as (new & Hnew & Hsub & Hall).
      exists (p :: new). rewrite Hnew, <- app_assoc. simpl.
      destruct (fetch_page visited u p links E) as [Hu Hp].
      split_and!; [done| |by constructor].
      rewrite Hu. by apply sublist_skip.
    + destruct (IH ps (fold_left (enqueue visited) links q))
        as (new & Hnew & Hsub & Hall).
      exists new. split_and!; [done| |done]. by apply sublist_cons.
Qed.

Lemma crawlStep_pagesFetched st :
  pagesFetched http_get st → pagesFetched http_get (crawlStep http_get maxPages st).
Proof.
  intros [Hsub Hall]. rewrite crawlStep_fields. cbv zeta. unfold pagesFetched. simpl.
  destruct (collect_pages (markVisited (visitedUrls st) (urlsToProcess maxPages st))
              (urlsToProcess maxPages st) (pages st)
              (drop CONCURRENT_LIMIT (toCrawl st))) as (new & -> & Hnew & Hdocs).
  split.
  - rewrite map_app. by apply sublist_app.
  - apply Forall_app. done.
Qed.

Lemma turns_pagesFetched n st :
  pagesFetched http_get st → pagesFetched http_get (turns http_get n maxPages st).
Proof.
  revert st. induction n as [|n IH]; intros st H; simpl; [done|].
  destruct (continues maxPages st); [|done]. by apply IH, crawlStep_pagesFetched.
Qed.

(** *** The URLs *)

Lemma enqueue_all_from (visited : gset jsstring) links queue u :
  u ∈ fold_left (enqueue visited) links queue ↔
  u ∈ queue ∨ (u ∈ links ∧ u ∉ visited).
Proof.
  revert queue. induction links as [|l links IH]; intros queue; simpl.
  - rewrite elem_of_nil. tauto.
  - rewrite IH, elem_of_cons. unfold enqueue.
    destruct (has visited l) eqn:Hv; simpl.
    + apply has_true in Hv. split; [tauto|].
      intros [H|[[->|H] Hn]]; tauto.
    + apply has_false in Hv.
      destruct (bool_decide (l ∈ queue)) eqn:Hq; simpl.
      * apply bool_decide_eq_true in Hq. split; [tauto|].
        intros [H|[[->|H] Hn]]; tauto.
      * rewrite elem_of_app, list_elem_of_singleton. split.
        -- intros [[H| ->]|H]; tauto.
        -- intros [H|[[->|H] Hn]]; tauto.
Qed.

(** The queue after the results of a batch are collected: what it
    held, and the links of the batch that are not visited. *)
Lemma collect_queue (visited : gset jsstring) urls ps q u :
  u ∈ snd (fold_left (collectResult visited)
             (map (fetchPageWithLinks http_get visited) urls) (ps, q)) ↔
  u ∈ q ∨ ∃ v, v ∈ urls ∧ linkedFrom http_get v u ∧ u ∉ visited.
Proof.
  revert ps q. induction urls as [|w urls IH]; intros ps q; simpl.
  - split; [tauto|]. intros [H|(v & Hv & _)]; [done|]. by apply elem_of_nil in Hv.
  - destruct (fetchPageWithLinks http_get visited w) as [p links] eqn:E. simpl.
    rewrite IH, enqueue_all_from.
    assert (Hlinks : ∀ l, l ∈ links ↔ linkedFrom http_get w l ∧ l ∉ visited).
    { intros l. rewrite <- (fetch_links visited w l). by rewrite E. }
    split.
    + intros [[H|[H Hn]]|(v & Hv & Hl)].
      * by left.
      * right. exists w. apply Hlinks in H. split; [by left|done].
      * right. exists v. split; [by right|done].
    + intros [H|(v & Hv & Hl & Hn)]; [tauto|].
      apply elem_of_cons in Hv. destruct Hv as [->|Hv].
      * left. right. split; [|done]. apply Hlinks. done.
      * right. by exists v.
Qed.

Lemma crawlStep_foundByLinks baseUrl st :
  foundByLinks http_get baseUrl st →
  foundByLinks http_get baseUrl (crawlStep http_get maxPages st).
Proof.
  intros H. rewrite crawlStep_fields. cbv zeta. unfold foundByLinks. simpl.
  assert (Hold : ∀ u, u ∈ toCrawl st ∨ u ∈ fetched st →
            u = baseUrl ∨ ∃ v, v ∈ fetched st ++ urlsToProcess maxPages st
                               ∧ linkedFrom http_get v u).
  { intros u Hu. destruct (H u Hu) as [->|(v & Hv & Hl)]; [by left|].
    right. exists v. split; [|done]. apply elem_of_app. by left. }
  intros u [Hu|Hu].
  - apply collect_queue in Hu. destruct Hu as [Hu|(v & Hv & Hl & _)].
    + apply Hold. left. rewrite <- (take_drop CONCURRENT_LIMIT (toCrawl st)).
      apply elem_of_app. by right.
    + right. exists v. split; [|done]. apply elem_of_app. by right.
  - apply elem_of_app in Hu. destruct Hu as [Hu|Hu]; [apply Hold; by right|].
    apply Hold. left. rewrite <- (take_drop CONCURRENT_LIMIT (toCrawl st)).
    apply elem_of_app. left.
    by apply (elem_of_sublist _ _ _ Hu (urlsToProcess_sublist maxPages st)).
Qed.

Lemma turns_foundByLinks baseUrl n st :
  foundByLinks http_get baseUrl st →
  foundByLinks http_get baseUrl (turns http_get n maxPages st).
Proof.
  revert st. induction n as [|n IH]; intros st H; simpl; [done|].
  destruct (continues maxPages st); [|done]. by apply IH, crawlStep_foundByLinks.
Qed.

(** *** No link is forgotten while the batches are not cut *)

Lemma pages_grow st :
  length (pages st) ≤ length (pages (crawlStep http_get maxPages st)).
Proof.
  rewrite crawlStep_fields. cbv zeta. simpl.
  destruct (collect_pages (markVisited (visitedUrls st) (urlsToProcess maxPages st))
              (urlsToProcess maxPages st) (pages st)
              (drop CONCURRENT_LIMIT (toCrawl st))) as (new & -> & _).
  rewrite length_app. lia.
Qed.

Lemma turns_pages_grow n st :
  length (pages st) ≤ length (pages (turns http_get n maxPages st)).
Proof.
  revert st. induction n as [|n IH]; intros st; simpl; [done|].
  destruct (continues maxPages st); [|done].
  etransitivity; [apply pages_grow | apply IH].
Qed.

Lemma whole_batch st :
  length (pages st) + CONCURRENT_LIMIT ≤ maxPages →
  urlsToProcess maxPages st = take CONCURRENT_LIMIT (toCrawl st).
Proof.
  intros H. unfold urlsToProcess. apply take_ge. rewrite length_take. lia.
Qed.

Lemma crawlStep_linksKept st :
  length (pages st) + CONCURRENT_LIMIT ≤ maxPages →
  linksKept http_get st → linksKept http_get (crawlStep http_get maxPages st).
Proof.
  intros Hroom [Hmarked Hkept]. rewrite crawlStep_fields. cbv zeta.
  rewrite (whole_batch st Hroom). unfold linksKept. simpl. split.
  - intros u Hu. apply markVisited_elem in Hu. apply elem_of_app.
    destruct Hu as [Hu|Hu]; [by right | left; by apply Hmarked].
  - intros v l Hv Hl.
    destruct (decide (l ∈ markVisited (visitedUrls st)
                            (take CONCURRENT_LIMIT (toCrawl st)))) as [Hin|Hout];
      [by left|right].
    apply collect_queue. apply elem_of_app in Hv. destruct Hv as [Hv|Hv].
    + left. destruct (Hkept v l Hv Hl) as [Hvis|Hq].
      * exfalso. apply Hout, markVisited_elem. by right.
      * rewrite <- (take_drop CONCURRENT_LIMIT (toCrawl st)) in Hq.
        apply elem_of_app in Hq. destruct Hq as [Hq|Hq]; [|done].
        exfalso. apply Hout, markVisited_elem. by left.
    + right. by exists v.
Qed.

Lemma turns_linksKept n st :
  length (pages (turns http_get n maxPages st)) + CONCURRENT_LIMIT ≤ maxPages →
  linksKept http_get st → linksKept http_get (turns http_get n maxPages st).
Proof.
  revert st. induction n as [|n IH]; intros st; simpl; [done|].
  destruct (continues maxPages st); [|done]. intros Hroom H.
  apply IH; [done|]. apply crawlStep_linksKept; [|done].
  pose proof (turns_pages_grow n (crawlStep http_get maxPages st)).
  pose proof (pages_grow st). lia.
Qed.

End Crawl.

Lemma start_pagesFetched http_get baseUrl :
  pagesFetched http_get (start baseUrl ∅).
Proof. split; simpl; [done | constructor]. Qed.

Lemma start_foundByLinks http_get baseUrl :
  foundByLinks http_get baseUrl (start baseUrl ∅).
Proof.
  intros u [Hu|Hu]; simpl in Hu.
  - apply list_elem_of_singleton in Hu. by left.
  - by apply elem_of_nil in Hu.
Qed.

Lemma start_linksKept http_get baseUrl :
  linksKept http_get (start baseUrl ∅).
Proof.
  split; simpl.
  - intros u Hu. by apply not_elem_of_empty in Hu.
  - intros v l Hv. by apply elem_of_nil in Hv.
Qed.

(** X17. At every turn of a crawl, and so in its result: every page is
    what its URL gave when it was fetched, with the title and the text
    read there and at least 50 characters of text; the pages come in
    the order in which their URLs were fetched; and no two pages have
    the same URL. *)
Theorem pages_are_fetched_documents
    (http_get : jsstring → option response) (baseUrl : jsstring)
    (maxPages n : nat) :
  let st := turns http_get n maxPages (start baseUrl ∅) in
  map url (pages st) `sublist_of` fetched st
  ∧ NoDup (map url (pages st))
  ∧ Forall (λ p, ∃ r, http_get (url p) = Some r ∧ title p = pageTitle r
                      ∧ content p = pageContent r ∧ 50 ≤ length (content p))
           (pages st)
  ∧ (∀ fuel done,
       crawlLinks http_get fuel baseUrl maxPages = Some done →
       done = turns http_get fuel maxPages (start baseUrl ∅)).
Proof.
  intros st.
  destruct (turns_pagesFetched http_get maxPages n _ (start_pagesFetched http_get baseUrl))
    as [Hsub Hall].
  destruct (turns_inv http_get maxPages n _ (start_inv maxPages baseUrl)) as (Hnd & _).
  fold st in Hsub, Hall, Hnd. split_and!; [done| |done|].
  - by apply (sublist_NoDup _ (fetched st)).
  - intros fuel done Hdone. unfold crawlLinks in Hdone.
    by apply crawlLoop_turns in Hdone as [-> _].
Qed.

(** X18. At every turn of a crawl, every URL queued or fetched is the seed
    or a link of a page fetched before it which holds the host name of
    that page and [/docs/] and holds neither [/login] nor [redirect=]:
    the crawl leaves the seed by such links only. *)
Theorem only_documentation_links_are_followed
    (http_get : jsstring → option response) (baseUrl : jsstring)
    (maxPages n : nat) :
  let st := turns http_get n maxPages (start baseUrl ∅) in
  Forall (λ u,
            u = baseUrl
            ∨ ∃ v r, v ∈ fetched st ∧ http_get v = Some r ∧ u ∈ absoluteUrls r
                     ∧ includes u (domain r) = true
                     ∧ includes u (lit "/docs/") = true
                     ∧ includes u (lit "/login") = false
                     ∧ includes u (lit "redirect=") = false)
         (toCrawl st ++ fetched st).
Proof.
  intros st. apply Forall_forall. intros u Hu. apply elem_of_app in Hu.
  destruct (turns_foundByLinks http_get maxPages baseUrl n _
              (start_foundByLinks http_get baseUrl) u Hu)
    as [->|(v & Hv & r & Hr & Hin & Hdoc)]; [by left|right].
  exists v, r. unfold isDocumentationLink in Hdoc.
  destruct (includes u (domain r)), (includes u (lit "/docs/")),
    (includes u (lit "/login")), (includes u (lit "redirect=")); done.
Qed.

(** X19. A crawl that ends with room for a whole batch below the bound has
    left no documentation link behind: the seed was fetched, and every
    documentation link of every page fetched was fetched as well.  (A
    batch that is cut to the remaining slots loses the URLs cut off.) *)
Theorem crawl_below_the_bound_follows_every_link
    (http_get : jsstring → option response) (baseUrl : jsstring)
    (maxPages fuel : nat) (done : crawl_state) :
  crawlLinks http_get fuel baseUrl maxPages = Some done →
  length (pages done) + CONCURRENT_LIMIT ≤ maxPages →
  baseUrl ∈ fetched done
  ∧ ∀ v r l, v ∈ fetched done → http_get v = Some r → l ∈ absoluteUrls r →
             isDocumentationLink (domain r) l = true →
             l ∈ fetched done.
Proof.
  intros Hdone Hroom. unfold crawlLinks in Hdone.
  apply crawlLoop_turns in Hdone. destruct Hdone as [Hst Hstop].
  assert (Hkept : linksKept http_get done).
  { rewrite Hst. apply turns_linksKept; [by rewrite <- Hst|]. apply start_linksKept. }
  destruct Hkept as [Hmarked Hkept].
  assert (Hempty : toCrawl done = []).
  { unfold continues in Hstop. apply andb_false_iff in Hstop.
    destruct Hstop as [Hq|Hp].
    - apply Nat.ltb_ge in Hq. destruct (toCrawl done); [done|simpl in Hq; lia].
    - apply Nat.ltb_ge in Hp. unfold CONCURRENT_LIMIT in Hroom. lia. }
  split.
  - destruct fuel as [|fuel].
    + simpl in Hst. rewrite Hst in Hempty. done.
    + simpl in Hst. destruct (continues maxPages (start baseUrl ∅)) eqn:Hc.
      * assert (Hfirst : baseUrl ∈ fetched (crawlStep http_get maxPages (start baseUrl ∅))).
        { rewrite crawlStep_fields. cbv zeta. simpl.
          rewrite whole_batch.
          - simpl. apply elem_of_cons. by left.
          - simpl. pose proof (turns_pages_grow http_get maxPages fuel
                                 (crawlStep http_get maxPages (start baseUrl ∅))).
            rewrite <- Hst in H. unfold CONCURRENT_LIMIT in *. lia. }
        rewrite Hst. clear -Hfirst.
        generalize dependent (crawlStep http_get maxPages (start baseUrl ∅)).
        induction fuel as [|fuel IH]; intros st Hin; simpl; [done|].
        destruct (continues maxPages st); [|done]. apply IH.
        rewrite crawlStep_fields. cbv zeta. simpl. apply elem_of_app. by left.
      * rewrite Hst in Hempty. done.
  - intros v r l Hv Hr Hl Hdoc.
    destruct (Hkept v l Hv) as [Hvis|Hq].
    + by exists r.
    + by apply Hmarked.
    + rewrite Hempty in Hq. by apply elem_of_nil in Hq.
Qed.

Lemma crawl_below_the_bound_follows_every_link_witness :
  let done := turns smallSite 5 10 (start seedUrl ∅) in
  seedUrl ∈ fetched done
  ∧ ∀ v r l, v ∈ fetched done → smallSite v = Some r → l ∈ absoluteUrls r →
             isDocumentationLink (domain r) l = true →
             l ∈ fetched done.
Proof.
  apply (crawl_below_the_bound_follows_every_link smallSite seedUrl 10 5).
  - vm_compute. reflexivity.
  - vm_compute. lia.
Defined.

(** X20. On a site with finitely many links the crawl from any seed ends:
    [scrapeDocumentation] returns, within as many turns as the site
    and the seed have URLs, and one more. *)
Theorem finite_site_is_scraped
    (http_get : jsstring → option response) (site : gset jsstring) (url : jsstring) :
  (∀ u r l, http_get u = Some r → l ∈ absoluteUrls r → l ∈ site) →
  ∃ pages,
    scrapeDocumentation http_get (S (size (site ∪ {[url]}))) url = Some pages
    ∧ length pages ≤ Config.SCRAPER_MAX_PAGES.
Proof.
  intros Hsite. unfold scrapeDocumentation, crawlLinks.
  destruct (crawlLoop_completes http_get Config.SCRAPER_MAX_PAGES site Hsite url
              (S (size (site ∪ {[url]}))) (start url ∅)) as [st Hst].
  - apply start_inv.
  - split; simpl.
    + intros u Hu. apply list_elem_of_singleton in Hu. subst.
      apply elem_of_union. right. by apply elem_of_singleton.
    + apply empty_subseteq.
  - unfold start. cbn [visitedUrls]. rewrite size_empty. lia.
  - rewrite Hst. simpl. exists (pages st). split; [done|].
    apply crawlLoop_turns in Hst. destruct Hst as [-> _].
    by destruct (turns_inv http_get Config.SCRAPER_MAX_PAGES
                   (S (size (site ∪ {[url]}))) _
                   (start_inv Config.SCRAPER_MAX_PAGES url)) as (_ & _ & _ & Hp).
Qed.

Lemma finite_site_is_scraped_witness :
  ∃ pages,
    scrapeDocumentation smallSite
      (S (size (({[seedUrl; urlA; urlB; urlLogin]} : gset jsstring) ∪ {[seedUrl]})))
      seedUrl = Some pages
    ∧ length pages ≤ Config.SCRAPER_MAX_PAGES.
Proof.
  apply (finite_site_is_scraped smallSite {[seedUrl; urlA; urlB; urlLogin]} seedUrl).
  intros u r l Hr Hl. unfold smallSite, pageWith in Hr.
  destruct (bool_decide (u = seedUrl)).
  - injection Hr as <-. simpl in Hl.
    repeat (apply elem_of_cons in Hl; destruct Hl as [->|Hl]);
      [set_solver..|by apply elem_of_nil in Hl].
  - destruct (bool_decide (u = urlA)); [|done].
    injection Hr as <-. simpl in Hl.
    repeat (apply elem_of_cons in Hl; destruct Hl as [->|Hl]);
      [set_solver..|by apply elem_of_nil in Hl].
Defined.

End CrawlerFacts.

(* ================================================================= *)
(** ** The answer stream of a chat *)

Module ChatStreamFacts.
Import ChatStream.

Lemma forallb_snoc {A} (f : A -> bool) l x :
  forallb f (l ++ [x]) = forallb f l && f x.
Proof. rewrite forallb_app. cbn [forallb]. now rewrite andb_true_r. Qed.

Lemma filter_snoc {A} (f : A -> bool) l x :
  filter f (l ++ [x]) = filter f l ++ (if f x then [x] else []).
Proof. rewrite filter_app. cbn [filter]. now destruct (f x). Qed.

(** What a message adds to the answer: its content, unless it is a
    notice. *)
Lemma concat_contents l m :
  concat (map contentOf (answerParts (l ++ [m])))
  = concat (map contentOf (answerParts l))
    ++ (if isNotice m then [] else contentOf m).
Proof.
  unfold answerParts. rewrite filter_snoc, map_app, concat_app.
  destruct (isNotice m); cbn [negb map concat]; now rewrite ?app_nil_r.
Qed.

(** A message that is not streamed changes nothing to the stream. *)
Lemma streamInv_other st c m :
  isStreamed m = false -> isFinal m = false ->
  (if isNotice m then [] else contentOf m) = c ->
  streamInv st ->
  streamInv {| fullResponse := fullResponse st ++ c;
               isFirstChunk := isFirstChunk st;
               outbox := outbox st ++ [m] |}.
Proof.
  intros Hs Hf Hc (H1 & H2 & H3 & H4). unfold streamInv, wellStreamed in *.
  cbn [fullResponse isFirstChunk outbox].
  rewrite concat_contents, forallb_snoc, filter_snoc, Hs, Hf, Hc, H1, H2, app_nil_r.
  cbn [negb andb]. split; [reflexivity|]. split; [reflexivity|]. split; assumption.
Qed.

Lemma onChunk_inv st text : streamInv st -> streamInv (onChunk st text).
Proof.
  intros (H1 & H2 & H3 & H4). unfold onChunk.
  destruct (truthy text); [|exact (conj H1 (conj H2 (conj H3 H4)))].
  unfold streamInv, wellStreamed in *. cbn [fullResponse isFirstChunk outbox].
  rewrite concat_contents, forallb_snoc, filter_snoc, H1, H2.
  assert (Hno : forall (l : list sent) m, l ++ [m] = [] -> false = true).
  { intros l m Hl. now destruct l. }
  destruct (isFirstChunk st) eqn:E;
    cbn [contentOf isFinal isStreamed isNotice negb andb].
  - rewrite (proj1 H4 eq_refl). cbn [app forallb].
    split; [reflexivity|]. split; [reflexivity|]. split; [split; [now exists text|reflexivity]|].
    split; [discriminate | apply (Hno [])].
  - split; [reflexivity|]. split; [reflexivity|]. split; [|split; [discriminate|apply Hno]].
    destruct (filter isStreamed (outbox st)) as [|m rest] eqn:F.
    + destruct H4 as [_ H4]. discriminate (H4 eq_refl).
    + cbn [app]. destruct H3 as [Hm Hrest]. split; [exact Hm|].
      now rewrite forallb_snoc, Hrest.
Qed.

Lemma onChunks_inv l st : streamInv st -> streamInv (fold_left onChunk l st).
Proof.
  revert st. induction l as [|t l IH]; intros st H; cbn [fold_left]; [exact H|].
  apply IH. now apply onChunk_inv.
Qed.

Lemma streamInv_same st : streamInv st ->
  streamInv {| fullResponse := fullResponse st; isFirstChunk := isFirstChunk st;
               outbox := outbox st ++ [NotFoundMessage] |}.
Proof.
  intros H. pose proof (streamInv_other st [] NotFoundMessage eq_refl eq_refl eq_refl H)
    as H'. now rewrite app_nil_r in H'.
Qed.

Lemma onResult_inv st r :
  streamInv st ->
  match onResult st r with
  | inl (_, st') | inr st' => streamInv st'
  end.
Proof.
  intros H. destruct r as [s|s|c|d|]; cbn [onResult].
  - destruct (ending s); now apply onChunks_inv.
  - destruct (ending s); now apply onChunks_inv.
  - destruct (truthy c); [|exact H]. now apply streamInv_other.
  - destruct (truthy d); cbn [negb]; [now apply streamInv_other|].
    now apply streamInv_same.
  - exact H.
Qed.

Lemma onResults_inv results st :
  streamInv st ->
  match onResults st results with
  | inl (_, st') | inr st' => streamInv st'
  end.
Proof.
  revert st. induction results as [|r results IH]; intros st H; cbn [onResults];
    [exact H|].
  pose proof (onResult_inv st r H) as Hr.
  destruct (onResult st r) as [[b st']|st']; [exact Hr | now apply IH].
Qed.

Lemma streamInv_start :
  streamInv {| fullResponse := []; isFirstChunk := true; outbox := [] |}.
Proof. now repeat split. Qed.




(** X22. Of the streamed parts of an answer the first, and only the first,
    is sent as [message_start]; the others are sent as
    [message_chunk]; and no streamed part is empty. *)
Theorem stream_starts_once results ending :
  match filter isStreamed (fst (respond results ending)) with
  | [] => True
  | m :: rest =>
      (exists c, m = MessageStart c) /\ forallb isChunk rest = true
  end
  /\ Forall (fun m => isStreamed m = true -> contentOf m <> [])
            (fst (respond results ending)).
Proof.
  assert (Hne : forall results st,
            Forall (fun m => isStreamed m = true -> contentOf m <> []) (outbox st) ->
            match onResults st results with
            | inl (_, st') | inr st' =>
                Forall (fun m => isStreamed m = true -> contentOf m <> []) (outbox st')
            end).
  { clear. induction results as [|r results IH]; intros st H; cbn [onResults];
      [exact H|].
    assert (Hchunks : forall l st,
              Forall (fun m => isStreamed m = true -> contentOf m <> []) (outbox st) ->
              Forall (fun m => isStreamed m = true -> contentOf m <> [])
                     (outbox (fold_left onChunk l st))).
    { clear. induction l as [|t l IH]; intros st H; cbn [fold_left]; [exact H|].
      apply IH. unfold onChunk. destruct t as [|c t]; cbn [truthy]; [exact H|].
      cbn [outbox]. apply Forall_app. split; [exact H|].
      constructor; [|constructor]. intros _. now destruct (isFirstChunk st). }
    destruct r as [s|s|c|d|]; cbn [onResult].
    - destruct (ending s); [apply IH|]; now apply Hchunks.
    - destruct (ending s); [apply IH|]; now apply Hchunks.
    - apply IH. destruct (truthy c); [|exact H]. cbn [outbox].
      apply Forall_app. split; [exact H|]. constructor; [discriminate|constructor].
    - apply IH. destruct (truthy d); cbn [negb outbox]; apply Forall_app;
        (split; [exact H|]); (constructor; [discriminate|constructor]).
    - now apply IH. }
  specialize (Hne results {| fullResponse := []; isFirstChunk := true; outbox := [] |}
                (Forall_nil _)).
  pose proof (onResults_inv results _ streamInv_start) as H.
  unfold respond.
  assert (Hfinal : forall l m, isStreamed m = false -> wellStreamed l ->
            match filter isStreamed (l ++ [m]) with
            | [] => True
            | m0 :: rest => (exists c, m0 = MessageStart c) /\ forallb isChunk rest = true
            end).
  { intros l m Hm Hl. rewrite filter_snoc, Hm, app_nil_r. exact Hl. }
  assert (Hfinal' : forall l m, isStreamed m = false ->
            Forall (fun m => isStreamed m = true -> contentOf m <> []) l ->
            Forall (fun m => isStreamed m = true -> contentOf m <> []) (l ++ [m])).
  { intros l m Hm Hl. apply Forall_app. split; [exact Hl|].
    constructor; [congruence|constructor]. }
  destruct (onResults _ results) as [[blocked st]|st].
  - destruct H as (_ & _ & H3 & _). cbn [fst]. split;
      [now apply Hfinal | now apply Hfinal'].
  - destruct H as (_ & _ & H3 & _). destruct ending as [|blocked].
    + destruct (truthy (fullResponse st)); cbn [fst].
      * split; [now apply Hfinal | now apply Hfinal'].
      * now split.
    + cbn [fst]. split; [now apply Hfinal | now apply Hfinal'].
Qed.

End ChatStreamFacts.

(* ================================================================= *)
(** ** The server: what holds after every sequence of events *)

Module ServerFacts.
Import stdpp.base stdpp.list stdpp.gmap.
Import Num Embedder Retrieval KnowledgeManager MessageHandler Server.

Lemma createGraph_records graphService records g :
  createGraph graphService records = Some g →
  graphRecords g = records ∧ records ≠ [].
Proof.
  unfold createGraph, hasEmbeddings.
  destruct records as [|r records]; simpl; [done|].
  destruct (initialize graphService); simpl; [|done]. by intros [= <-].
Qed.

(** Neither a progress message nor a message of the answer is a query
    of the graph or says that the documentation is loaded. *)
Lemma progressMessage_neither p :
  (∀ m r, progressMessage p ≠ GraphQuery m r)
  ∧ (∀ n k, progressMessage p ≠ SendDocsLoaded n k).
Proof. by destruct p. Qed.

Lemma chatMessage_neither x :
  (∀ m r, chatMessage x ≠ GraphQuery m r)
  ∧ (∀ n k, chatMessage x ≠ SendDocsLoaded n k).
Proof. by destruct x. Qed.

Lemma started_neither run e :
  e ∈ started run →
  (∀ m r, e ≠ GraphQuery m r) ∧ (∀ n k, e ≠ SendDocsLoaded n k).
Proof.
  unfold started. intros Hin. apply elem_of_app in Hin.
  destruct Hin as [Hin|Hin].
  - repeat (apply elem_of_cons in Hin; destruct Hin as [->|Hin]; [done|]).
    by apply elem_of_nil in Hin.
  - apply list_elem_of_fmap in Hin. destruct Hin as (p & -> & _).
    apply progressMessage_neither.
Qed.

(** The two ways [handleLoadDocs] ends: with an error, the graph being
    the one before or none and the connection as ready as it was; or
    with [docs_loaded], the graph being new over the records of a load
    that succeeded. *)
Lemma handleLoadDocs_cases scrape service graphDestroy graphService h c url :
  let cleared := {| messages := []; knowledgeLoaded := knowledgeLoaded c |} in
  (∃ h' error,
     handleLoadDocs scrape service graphDestroy graphService h c url
     = (h', cleared, started (scrape url) ++ [SendError error])
     ∧ (error = NO_PAGES ∨ error = LOAD_FAILED)
     ∧ (graph h' = graph h ∨ graph h' = None))
  ∨ (∃ pages records,
       scraped (scrape url) = Some pages ∧ pages ≠ []
       ∧ loadDocumentationWithEmbeddings service (managerRecords h) pages
         = (inr tt, records)
       ∧ records ≠ []
       ∧ handleLoadDocs scrape service graphDestroy graphService h c url
         = ({| graph := Some {| graphRecords := records |};
               managerRecords := records |},
            {| messages := []; knowledgeLoaded := true |},
            started (scrape url) ++ [SendDocsLoaded (length pages) (length records)])).
Proof.
  intros cleared. unfold handleLoadDocs. fold cleared.
  destruct (scraped (scrape url)) as [[|p pages]|] eqn:Hp.
  - left. exists h, NO_PAGES. auto.
  - destruct (loadDocumentationWithEmbeddings service (managerRecords h) (p :: pages))
      as [[e|[]] records] eqn:Hl.
    + left. eexists _, LOAD_FAILED. split; [done|]. auto.
    + destruct (match graph h with Some _ => negb graphDestroy | None => false end).
      * left. eexists _, LOAD_FAILED. split; [done|]. auto.
      * destruct (createGraph graphService records) as [g|] eqn:Hg.
        -- right. apply createGraph_records in Hg. destruct Hg as [Hg Hne].
           destruct g as [rs]. simpl in Hg. subst rs.
           exists (p :: pages), records. done.
        -- left. eexists _, LOAD_FAILED. split; [done|]. auto.
  - left. exists h, LOAD_FAILED. auto.
Qed.

Lemma handleChat_effects embedSingle generate h c message :
  let '(c', effects) := handleChat embedSingle generate h c message in
  knowledgeLoaded c' = knowledgeLoaded c
  ∧ ((effects = [SendError NOT_READY] ∧ c' = c
      ∧ (graph h = None ∨ knowledgeLoaded c = false))
     ∨ (∃ g, graph h = Some g ∧ knowledgeLoaded c = true
          ∧ ∀ m r, GraphQuery m r ∈ effects →
                   ∃ q, embedSingle (trim message) = Some q
                        ∧ m = message ∧ r = process (graphRecords g) q)).
Proof.
  unfold handleChat. destruct (graph h) as [g|] eqn:Hg; [|split; [done|left; auto]].
  destruct (knowledgeLoaded c) eqn:Hk; [|split; [done|left; auto]].
  unfold processQuery.
  assert (Hparts : ∀ sent0 m r, GraphQuery m r ∉ map chatMessage sent0).
  { intros sent0 m r Hin. apply list_elem_of_fmap in Hin.
    destruct Hin as (x & Hx & _). symmetry in Hx.
    by apply chatMessage_neither in Hx. }
  destruct (embedSingle (trim message)) as [q|] eqn:Hq.
  - destruct (generate message _) as [results ending].
    destruct (ChatStream.respond results ending) as [sent stored].
    split; [by destruct stored|right]. exists g. split_and!; [done..|].
    intros m r Hin. exists q.
    apply elem_of_cons in Hin. destruct Hin as [[= -> ->]|Hin]; [done|].
    by apply Hparts in Hin.
  - destruct (generate message None) as [results ending].
    destruct (ChatStream.respond results ending) as [sent stored].
    split; [by destruct stored|right]. exists g. split_and!; [done..|].
    intros m r Hin. by apply Hparts in Hin.
Qed.

Lemma process_nonempty records q :
  records ≠ [] → ∃ texts, process records q = inr texts.
Proof. destruct records; [done|]. intros _. by eexists. Qed.

(** One event keeps the two invariants, and queries the graph on a
    store that is not empty only. *)
Lemma step_inv s we sent :
  graphHasRecords s → readyWasLoaded s sent →
  let '(s', out) := step s we in
  graphHasRecords s' ∧ readyWasLoaded s' (sent ++ out)
  ∧ ∀ sessionId m r, Effect sessionId (GraphQuery m r) ∈ out →
                     ∃ texts, r = inr texts.
Proof.
  intros Hg Hr. destruct we as [w [sid|sid|sid m]]; unfold step; cbn [fst snd].
  - unfold handleConnection, readyWasLoaded. cbn [connections]. split_and!; [done| |].
    + intros sid' c. rewrite lookup_insert_Some.
      intros [[<- <-]|[Hne Hc]]; [done|]. intros Hk.
      destruct (Hr sid' c Hc Hk) as (n & k & Hin). exists n, k.
      apply elem_of_app. by left.
    + intros sid' m r Hin. apply list_elem_of_singleton in Hin. done.
  - unfold handleClose, readyWasLoaded. cbn [connections]. split_and!; [done| |].
    + intros sid' c. rewrite lookup_delete_Some. intros [Hne Hc] Hk.
      destruct (Hr sid' c Hc Hk) as (n & k & Hin). exists n, k.
      apply elem_of_app. by left.
    + intros sid' m r Hin. by apply elem_of_nil in Hin.
  - unfold handleMessage. destruct (connections s !! sid) as [c|] eqn:Hc.
    + destruct m as [url|message|].
      * pose proof (handleLoadDocs_cases (scrape w) (service w) (graphDestroy w)
                      (graphService w) (state s) c url) as H.
        cbv zeta in H.
        destruct (handleLoadDocs (scrape w) (service w) (graphDestroy w)
                    (graphService w) (state s) c url) as [[h c'] effects].
        assert (Hkeep : ∀ sid' c0, 
                  (knowledgeLoaded c' = true → knowledgeLoaded c = true
                     ∨ ∃ n k, SendDocsLoaded n k ∈ effects) →
                  <[sid:=c']> (connections s) !! sid' = Some c0 →
                  knowledgeLoaded c0 = true →
                  ∃ n k, Effect sid' (SendDocsLoaded n k)
                           ∈ sent ++ map (Effect sid) effects).
        { intros sid' c0 Hc' Hl Hk. apply lookup_insert_Some in Hl.
          destruct Hl as [[<- <-]|[Hne Hl]].
          - destruct (Hc' Hk) as [Hold|(n & k & Hin)].
            + destruct (Hr sid c Hc Hold) as (n & k & Hin). exists n, k.
              apply elem_of_app. by left.
            + exists n, k. apply elem_of_app. right.
              apply list_elem_of_fmap. by exists (SendDocsLoaded n k).
          - destruct (Hr sid' c0 Hl Hk) as (n & k & Hin). exists n, k.
            apply elem_of_app. by left. }
        assert (Hnoquery : ∀ e,
                  effects = started (scrape w url) ++ [e] →
                  (∀ m r, e ≠ GraphQuery m r) →
                  ∀ sessionId m r,
                    Effect sessionId (GraphQuery m r) ∈ map (Effect sid) effects →
                    ∃ texts, r = inr texts).
        { intros e -> He sid' m r Hin. apply list_elem_of_fmap in Hin.
          destruct Hin as (x & [= -> <-] & Hin). apply elem_of_app in Hin.
          destruct Hin as [Hin|Hin].
          - apply started_neither in Hin. by destruct (proj1 Hin m r).
          - apply list_elem_of_singleton in Hin. by destruct (He m r). }
        destruct H as [(h' & error & H & _ & Hgraph)
                      |(pages & records & _ & _ & _ & Hne & H)];
          apply pair_equal_spec in H; destruct H as [H ->];
          apply pair_equal_spec in H; destruct H as [-> ->].
        -- split_and!; [|by intros sid' c0; apply Hkeep; simpl; auto
                        |by eapply Hnoquery].
           intros g Hgr. cbn [state] in Hgr.
           destruct Hgraph as [Hsame|Hnone]; [|congruence].
           apply Hg. congruence.
        -- split_and!; [by intros g [= <-]| |by eapply Hnoquery].
           intros sid' c0. apply Hkeep. intros _. right.
           eexists _, _. apply elem_of_app. right. apply elem_of_cons. by left.
      * pose proof (handleChat_effects (embedSingle w) (generate w) (state s) c message)
          as H.
        destruct (handleChat (embedSingle w) (generate w) (state s) c message)
          as [c' effects].
        destruct H as [Hk H]. split_and!; [done| |].
        -- intros sid' c0 Hl Hk0. cbn [connections] in Hl.
           apply lookup_insert_Some in Hl.
           destruct Hl as [[<- <-]|[Hne Hl]].
           ++ rewrite Hk in Hk0. destruct (Hr sid c Hc Hk0) as (n & k & Hin).
              exists n, k. apply elem_of_app. by left.
           ++ destruct (Hr sid' c0 Hl Hk0) as (n & k & Hin). exists n, k.
              apply elem_of_app. by left.
        -- intros sid' m r Hin. apply list_elem_of_fmap in Hin.
           destruct Hin as (e & [= -> <-] & Hin).
           destruct H as [(-> & _)|(g & Hgr & _ & Hq)].
           ++ apply list_elem_of_singleton in Hin. done.
           ++ destruct (Hq m r Hin) as (q & _ & _ & ->).
              apply process_nonempty. by apply Hg.
      * split_and!; [done| |].
        -- intros sid' c0 Hl Hk. destruct (Hr sid' c0 Hl Hk) as (n & k & Hin).
           exists n, k. apply elem_of_app. by left.
        -- intros sid' m r Hin. by apply elem_of_nil in Hin.
    + split_and!; [done| |].
      * intros sid' c0 Hl Hk. destruct (Hr sid' c0 Hl Hk) as (n & k & Hin).
        exists n, k. apply elem_of_app. by left.
      * intros sid' m' r Hin. by apply elem_of_nil in Hin.
Qed.

Lemma run_inv events s sent :
  graphHasRecords s → readyWasLoaded s sent →
  let '(s', out) := run s events in
  graphHasRecords s' ∧ readyWasLoaded s' (sent ++ out)
  ∧ ∀ sessionId m r, Effect sessionId (GraphQuery m r) ∈ out →
                     ∃ texts, r = inr texts.
Proof.
  revert s sent. induction events as [|we events IH]; intros s sent Hg Hr; simpl.
  - rewrite app_nil_r. split_and!; [done..|].
    intros sid m r Hin. by apply elem_of_nil in Hin.
  - pose proof (step_inv s we sent Hg Hr) as Hs.
    destruct (step s we) as [s' out]. destruct Hs as (Hg' & Hr' & Hq').
    specialize (IH s' (sent ++ out) Hg' Hr').
    destruct (run s' events) as [s'' out']. destruct IH as (Hg'' & Hr'' & Hq'').
    split_and!; [done|by rewrite app_assoc|].
    intros sid m r Hin. apply elem_of_app in Hin.
    destruct Hin as [Hin|Hin]; [by eapply Hq' | by eapply Hq''].
Qed.

Lemma initial_inv : graphHasRecords initial ∧ readyWasLoaded initial [].
Proof.
  split.
  - intros g Hg. done.
  - intros sid c Hc. done.
Qed.

(** X23. Whatever the clients send and whatever the crawler, the embedding
    service and the generator answer, the retrieval node never finds an
    empty store: every query that reaches the graph is ranked. *)
Theorem retrieval_never_finds_an_empty_store (events : list (world * event)) :
  Forall isRanked (snd (run initial events)).
Proof.
  destruct initial_inv as [Hg Hr].
  pose proof (run_inv events initial [] Hg Hr) as H.
  destruct (run initial events) as [s out]. destruct H as (_ & _ & H).
  apply Forall_forall. intros [sid|sid e] Hin; [done|].
  destruct e; try done. by apply (H sid message).
Qed.

(** X24. A chat is answered only on a connection that was itself told
    that its documentation is loaded: after any sequence of events, a
    chat message of a session is ignored when the session is not
    connected, rejected as not ready, or the session has received
    [docs_loaded] before; what other sessions loaded does not make a
    connection ready. *)
Theorem chat_needs_own_load (events : list (world * event)) (w : world)
    (sessionId message : jsstring) :
  let '(s, sent) := run initial events in
  let out := snd (handleMessage w s sessionId (Chat message)) in
  out = []
  ∨ out = [Effect sessionId (SendError NOT_READY)]
  ∨ ∃ pageCount recordCount,
      Effect sessionId (SendDocsLoaded pageCount recordCount) ∈ sent.
Proof.
  destruct initial_inv as [Hg Hr].
  pose proof (run_inv events initial [] Hg Hr) as H.
  destruct (run initial events) as [s sent]. destruct H as (_ & Hready & _).
  simpl in Hready. cbv zeta. unfold handleMessage.
  destruct (connections s !! sessionId) as [c|] eqn:Hc; [|by left].
  pose proof (handleChat_effects (embedSingle w) (generate w) (state s) c message) as H.
  destruct (handleChat (embedSingle w) (generate w) (state s) c message) as [c' effects].
  simpl. destruct H as [_ [(-> & _)|(g & _ & Hk & _)]].
  - right. by left.
  - right. right. by apply (Hready sessionId c).
Qed.

End ServerFacts.

(* ================================================================= *)
(** ** The server: loading documentation, then asking *)

Module LoadAndAsk.
Import stdpp.base stdpp.list stdpp.gmap.
Import Num Embedder Retrieval KnowledgeManager MessageHandler Population.
Import Server ServerSample RetrievalFacts SelectionFacts PopulateFacts LoadFacts.
Import ServerFacts.

(** X25. [handleLoadDocs] always empties the conversation of the
    connection and sends [clear_messages], [loading_docs], one
    [scraping_progress] for each call of the callback by the scraper,
    in order, and one more message.  When that is [docs_loaded], the
    scraper has returned pages and the counts it gives are the number
    of these pages and the number of records stored, both at least 1,
    the records being at least half of the valid chunks; the graph is
    new and holds these records, and the connection is ready.  When it
    is an error, the connection is as ready as it was and the graph is
    the one before or none: no graph is made of a failed load. *)
Theorem load_docs_ends_in_docs_loaded_or_error
    scrape service graphDestroy graphService h c url :
  let '(h', c', effects) :=
    handleLoadDocs scrape service graphDestroy graphService h c url in
  messages c' = []
  ∧ ∃ final,
      effects = [SendClearMessages; SendLoadingDocs]
                ++ map progressMessage (reported (scrape url)) ++ [final]
      ∧ match final with
        | SendDocsLoaded pageCount recordCount =>
            (∃ pages, scraped (scrape url) = Some pages
                      ∧ pageCount = length pages
                      ∧ length (validTextsOf pages) ≤ 2 * recordCount)
            ∧ 1 ≤ pageCount
            ∧ recordCount = length (managerRecords h') ∧ 1 ≤ recordCount
            ∧ graph h' = Some {| graphRecords := managerRecords h' |}
            ∧ knowledgeLoaded c' = true
        | SendError error =>
            (error = NO_PAGES ∨ error = LOAD_FAILED)
            ∧ knowledgeLoaded c' = knowledgeLoaded c
            ∧ (graph h' = graph h ∨ graph h' = None)
        | _ => False
        end.
Proof.
  pose proof (handleLoadDocs_cases scrape service graphDestroy graphService h c url)
    as H. cbv zeta in H.
  destruct H as [(h' & error & H & Herror & Hgraph)
                |(pages & records & Hp & Hpages & Hl & Hne & H)];
    rewrite H; (split; [done|]).
  - exists (SendError error). unfold started. rewrite <- app_assoc. done.
  - eexists. unfold started. rewrite <- app_assoc. split; [done|]. cbn [managerRecords graph].
    apply load_succeeded in Hl. destruct Hl as (_ & embeddings & _ & -> & Hfew).
    pose proof (failures_and_records embeddings (validTextsOf pages) 0).
    split_and!; try done.
    + exists pages. split_and!; [done..|lia].
    + destruct pages; [done|simpl; lia].
    + destruct (zipFrom embeddings 0 (validTextsOf pages)); [done|simpl; lia].
Qed.



End LoadAndAsk.
(* ================================================================= *)
(** ** The browser scraper *)

Module BrowserScraperFacts.
Import stdpp.base stdpp.list stdpp.gmap.
Import KnowledgeManager Scraper Cleanup BrowserScraper ScraperFacts CleanupFacts.

Lemma setAdd_elem (set : list jsstring) (x u : jsstring) :
  u ∈ setAdd set x ↔ u ∈ set ∨ u = x.
Proof.
  unfold setAdd. destruct (bool_decide (x ∈ set)) eqn:E.
  - apply bool_decide_eq_true in E. split; [tauto|]. intros [H| ->]; done.
  - rewrite elem_of_app, list_elem_of_singleton. done.
Qed.

Lemma setAdd_NoDup (set : list jsstring) (x : jsstring) : NoDup set → NoDup (setAdd set x).
Proof.
  intros H. unfold setAdd. destruct (bool_decide (x ∈ set)) eqn:E; [done|].
  apply bool_decide_eq_false in E. apply NoDup_app. split_and!; [done| |apply NoDup_singleton].
  intros u Hu Hx. apply list_elem_of_singleton in Hx. by subst.
Qed.

Lemma addAll_spec (l set : list jsstring) :
  NoDup set →
  NoDup (addAll set l)
  ∧ (∃ rest, addAll set l = set ++ rest)
  ∧ ∀ u, u ∈ addAll set l ↔ u ∈ set ∨ u ∈ l.
Proof.
  revert set. induction l as [|x l IH]; intros set Hnd; unfold addAll; simpl.
  - split_and!; [done|exists []; by rewrite app_nil_r|].
    intros u. rewrite elem_of_nil. tauto.
  - destruct (IH (setAdd set x) (setAdd_NoDup set x Hnd)) as (H1 & [rest H2] & H3).
    unfold addAll in *. split_and!; [done| |].
    + rewrite H2. unfold setAdd. destruct (bool_decide (x ∈ set)).
      * by exists rest.
      * exists ([x] ++ rest). by rewrite app_assoc.
    + intros u. rewrite H3, setAdd_elem, elem_of_cons. tauto.
Qed.

Lemma omap_id_map {A B} (f : A → option B) (l : list A) :
  omap id (map f l) = omap f l.
Proof.
  induction l as [|x l IH]; [done|].
  change (omap id (map f (x :: l)))
    with (match f x with Some y => y :: omap id (map f l) | None => omap id (map f l) end).
  change (omap f (x :: l))
    with (match f x with Some y => y :: omap f l | None => omap f l end).
  by rewrite IH.
Qed.

Lemma omap_length_le {A B} (f : A → option B) (l : list A) :
  length (omap f l) ≤ length l.
Proof.
  induction l as [|x l IH]; [done|].
  change (omap f (x :: l))
    with (match f x with Some y => y :: omap f l | None => omap f l end).
  destruct (f x); simpl; lia.
Qed.

Section Browser.

Variable open : jsstring → option document.
Variable hostname : jsstring → jsstring.
Variable resolve : jsstring → jsstring → option jsstring.

(** A batch of URLs that are neither visited nor repeated is scraped
    whole. *)
Lemma scrape_batch (batch : list jsstring) :
  ∀ (visited : gset jsstring) settled,
    NoDup batch → (∀ u, u ∈ batch → u ∉ visited) →
    ∃ visited',
      fold_left (scrapeUrl open) batch (visited, settled)
      = (visited', settled ++ map (scrapeSinglePage open) batch)
      ∧ ∀ u, u ∈ visited' ↔ u ∈ batch ∨ u ∈ visited.
Proof.
  induction batch as [|x batch IH]; intros visited settled Hnd Hnew; simpl.
  - exists visited. rewrite app_nil_r. split; [done|].
    intros u. rewrite elem_of_nil. tauto.
  - apply NoDup_cons in Hnd. destruct Hnd as [Hx Hnd].
    assert (Hv : has visited x = false).
    { apply has_false. apply Hnew. by apply elem_of_cons; left. }
    rewrite Hv.
    destruct (IH ({[x]} ∪ visited) (settled ++ [scrapeSinglePage open x]) Hnd)
      as (visited' & Hrun & Hin).
    + intros u Hu Hin. apply elem_of_union in Hin. destruct Hin as [Hin|Hin].
      * apply elem_of_singleton in Hin. by subst.
      * apply (Hnew u); [by apply elem_of_cons; right | done].
    + exists visited'. rewrite Hrun, <- app_assoc. split; [done|].
      intros u. rewrite Hin, elem_of_union, elem_of_singleton, elem_of_cons. tauto.
Qed.

Lemma scrapeFrom_all (urls : list jsstring) (k : nat) :
  NoDup urls → length urls ≤ Config.SCRAPER_MAX_PAGES → 1 ≤ k →
  ∀ fuel i (visited : gset jsstring),
    length urls - i ≤ fuel * k →
    (∀ u, u ∈ visited ↔ u ∈ take i urls) →
    ∃ visited',
      scrapeFrom open fuel k urls i visited (omap (scrapeSinglePage open) (take i urls))
      = Some (visited', omap (scrapeSinglePage open) urls).
Proof.
  intros Hnd Hmax Hk. induction fuel as [|fuel IH]; intros i visited Hfuel Hvis;
    cbn [scrapeFrom]; destruct (Nat.ltb_spec i (length urls)) as [Hi|Hi]; try lia.
  - exists visited. by rewrite take_ge.
  - set (batch := take k (drop i urls)).
    assert (Hsplit : take (i + k) urls = take i urls ++ batch).
    { rewrite <- (take_drop i urls) at 1. apply take_app_add'.
      rewrite length_take. lia. }
    assert (Hparts : NoDup (take i urls ++ batch)).
    { rewrite <- Hsplit. apply (sublist_NoDup _ urls); [done|apply sublist_take]. }
    apply NoDup_app in Hparts. destruct Hparts as (_ & Hdis & Hndb).
    destruct (scrape_batch batch visited [] Hndb) as (visited' & Hrun & Hin).
    { intros u Hu Hv. apply Hvis in Hv. by apply (Hdis u). }
    fold batch. rewrite Hrun. cbn [app]. rewrite omap_id_map, <- omap_app, <- Hsplit.
    destruct (Nat.leb_spec Config.SCRAPER_MAX_PAGES
                (length (omap (scrapeSinglePage open) (take (i + k) urls))))
      as [Hfull|Hroom].
    + exists visited'.
      pose proof (omap_length_le (scrapeSinglePage open) (take (i + k) urls)) as Hle.
      rewrite length_take in Hle.
      assert (Hwhole : take (i + k) urls = urls) by (apply take_ge; lia).
      by rewrite Hwhole.
    + apply IH.
      * lia.
      * intros u. rewrite Hin, Hvis, Hsplit, elem_of_app. tauto.
  - exists visited. by rewrite take_ge.
Qed.

(** X27. [scrapeDocumentation] reads the seed and the pages its anchors
    lead to, one level deep: it throws when the seed cannot be
    opened; otherwise it returns the pages of the seed and of the
    links of the seed's page that are kept, the first
    [SCRAPER_MAX_PAGES] of them, each URL once, in document order.
    Every page has the URL it was read from and its cleaned text,
    normalized and of at least 50 characters. *)
Theorem browser_scrape_is_one_level_deep (url : jsstring) :
  match open url with
  | None => scrapeDocumentation open hostname resolve url = Some None
  | Some d =>
      let urls := urlsToScrape hostname resolve d url in
      scrapeDocumentation open hostname resolve url
      = Some (Some (omap (scrapeSinglePage open) urls))
      ∧ NoDup urls
      ∧ length urls ≤ Config.SCRAPER_MAX_PAGES
      ∧ (∃ rest, urls = url :: rest)
      ∧ (∀ u, u ∈ urls →
              u = url
              ∨ (keepLink (hostname url) u = true
                 ∧ ∃ href, href ∈ anchors d
                           ∧ absoluteUrlOf resolve (hostname url) (location d) href
                             = Some u))
      ∧ Forall (λ p, (∃ d', open (KnowledgeManager.url p) = Some d'
                            ∧ content p = cleanupContent (joinedText d'))
                     ∧ normalized (content p) ∧ 50 ≤ length (content p))
               (omap (scrapeSinglePage open) urls)
  end.
Proof.
  unfold scrapeDocumentation. destruct (open url) as [d|] eqn:Hd; [|done].
  cbv zeta. set (urls := urlsToScrape hostname resolve d url).
  set (links := extractLinksFromPage hostname resolve d url).
  destruct (addAll_spec links [url] (NoDup_singleton url)) as (Hnd & [rest Hrest] & Hin).
  assert (Hurls : urls = take Config.SCRAPER_MAX_PAGES (url :: rest)).
  { unfold urls, urlsToScrape. fold links. by rewrite Hrest. }
  assert (Hndu : NoDup urls).
  { unfold urls, urlsToScrape. fold links.
    apply (sublist_NoDup _ (addAll [url] links)); [done|apply sublist_take]. }
  assert (Hlen : length urls ≤ Config.SCRAPER_MAX_PAGES).
  { unfold urls, urlsToScrape. rewrite length_take. lia. }
  split_and!; [|done|done| | |].
  - unfold scrapePagesConcurrently.
    destruct (scrapeFrom_all urls 3 Hndu Hlen (le_S _ _ (le_S _ _ (le_n 1)))
                (length urls) 0 ∅) as [visited' Hrun].
    + lia.
    + intros u. rewrite take_0, elem_of_nil. split; [|done]. apply not_elem_of_empty.
    + rewrite take_0 in Hrun. simpl in Hrun. by rewrite Hrun.
  - exists (take 99 rest). by rewrite Hurls.
  - intros u Hu.
    assert (Hall : u ∈ addAll [url] links).
    { apply (elem_of_sublist _ _ _ Hu). unfold urls, urlsToScrape. apply sublist_take. }
    apply Hin in Hall. destruct Hall as [Hall|Hall].
    + left. by apply list_elem_of_singleton in Hall.
    + right. unfold links, extractLinksFromPage in Hall.
      destruct (addAll_spec
                  (List.filter (keepLink (hostname url))
                     (omap (absoluteUrlOf resolve (hostname url) (location d)) (anchors d)))
                  [] (NoDup_nil_2)) as (_ & _ & Hin').
      apply Hin' in Hall. destruct Hall as [Hall|Hall]; [by apply elem_of_nil in Hall|].
      apply list_elem_of_In, filter_In in Hall. destruct Hall as [Hall Hkeep].
      split; [done|]. apply list_elem_of_In, list_elem_of_omap in Hall.
      destruct Hall as (href & Hhref & Habs). by exists href.
  - apply Forall_forall. intros p Hp. apply list_elem_of_omap in Hp.
    destruct Hp as (u & _ & Hp). unfold scrapeSinglePage in Hp.
    destruct (open u) as [d'|] eqn:Hu; [|done].
    destruct (Nat.ltb_spec (length (cleanupContent (joinedText d'))) 50) as [Hs|Hl];
      [done|].
    injection Hp as <-. simpl. split_and!; [by exists d'| |done].
    apply cleanupContent_normalized.
Qed.

End Browser.

End BrowserScraperFacts.

